(** * ProcessingQueueSim: the admission registry and the tick driver

    A shallow embedding of [person_registry.py].  [Person] objects are
    mutable and shared by reference between the caller, the registry's three
    lists and the driver, so the embedding keeps them in a heap (the list of
    all persons constructed so far, a reference being a position in it); the
    registry's lists hold references.  Methods are computations in a state
    monad whose state survives a raised exception, as the attribute writes of
    a Python method do.  What lies outside the program, whether the output
    path can be opened and whether the user interrupts a sleep, is a
    parameter ([Env]) of the methods that meet it. *)

From stdpp Require Import gmap strings list.

From Stdlib Require Import ZArith Ascii.

Local Open Scope Z_scope.

(** * The program *)

(** ** Data model *)

(** [uuid.UUID]: a 128-bit integer, compared and hashed by value. *)
Abbreviation UUID := N.

(** [datetime.datetime] (naive, as returned by [datetime.now()]). *)
Record datetime := mk_datetime {
  year : N; month : N; day : N;
  hour : N; minute : N; second : N; microsecond : N
}.

#[global] Instance datetime_eq_dec : EqDecision datetime.
Proof. solve_decision. Defined.

(** [class Statuses(Enum)]. *)
Inductive Statuses := UNASSIGNED | ASSIGNED | WAITING | COMPLETED.

#[global] Instance Statuses_eq_dec : EqDecision Statuses.
Proof. solve_decision. Defined.

(** The attributes set by [Person.__init__]. *)
Record Person := mk_Person {
  name : string;
  surname : string;
  email : string;
  processing_time : Z;
  assigned_at : option datetime;
  registered_at : option datetime;
  completed_at : option datetime;
  status : Statuses;
  id_no : UUID
}.

#[global] Instance Person_eq_dec : EqDecision Person.
Proof. solve_decision. Defined.

(** Attribute assignment, one setter per attribute the program writes. *)
Definition set_processing_time (v : Z) (p : Person) : Person :=
  mk_Person (name p) (surname p) (email p) v (assigned_at p)
            (registered_at p) (completed_at p) (status p) (id_no p).

Definition set_assigned_at (v : option datetime) (p : Person) : Person :=
  mk_Person (name p) (surname p) (email p) (processing_time p) v
            (registered_at p) (completed_at p) (status p) (id_no p).

Definition set_registered_at (v : option datetime) (p : Person) : Person :=
  mk_Person (name p) (surname p) (email p) (processing_time p) (assigned_at p)
            v (completed_at p) (status p) (id_no p).

Definition set_completed_at (v : option datetime) (p : Person) : Person :=
  mk_Person (name p) (surname p) (email p) (processing_time p) (assigned_at p)
            (registered_at p) v (status p) (id_no p).

Definition set_status (v : Statuses) (p : Person) : Person :=
  mk_Person (name p) (surname p) (email p) (processing_time p) (assigned_at p)
            (registered_at p) (completed_at p) v (id_no p).

(** A reference to a [Person] object.  [Person] defines no [__eq__], so
    [==] on persons, and with it [list.remove], compares references. *)
Abbreviation ref := nat.

(** The attributes of a [Registry]; the three lists hold references. *)
Record Registry := mk_Registry {
  limit : Z;
  assigned_list : list ref;
  awaiting_queue : list ref;
  completed_list : list ref;
  seen_ids : gset UUID
}.

#[global] Instance Registry_eq_dec : EqDecision Registry.
Proof. solve_decision. Defined.

(** [Registry.__init__]. *)
Definition Registry_init (lim : Z) : Registry := mk_Registry lim [] [] [] ∅.

(** What [logger.info] is called with: a fixed message, the numbers
    [report_detailed] formats ([added], [finished], assigned count with the
    limit, awaiting count, completed count), or the total [run] formats when
    the simulation has finished. *)
Inductive LogRecord :=
| Info (msg : string)
| Report (added finished assigned_count lim awaiting_count completed_count : Z)
| Finished (total_completed : Z).

(** The exceptions the modelled code can raise.  [OSError] stands for the
    subclass ([FileNotFoundError], [PermissionError], ...) that [open] raises
    when it cannot open a file.  [Dangling] is the model's own: a reference
    outside the heap, which no Python program can hold.  [Diverged] marks a
    loop that used up its fuel. *)
Inductive Exn :=
| ValueError | IndexError | KeyboardInterrupt | OSError | Dangling | Diverged.

(** What the program finds outside itself: whether a path can be opened for
    writing, and whether the user interrupts the program while it sleeps at
    the end of the iteration that leaves [k] iterations to go. *)
Record Env := mk_Env {
  can_open : string → bool;
  interrupted : nat → bool
}.

#[global] Instance Exn_eq_dec : EqDecision Exn.
Proof. solve_decision. Defined.

(** The state a method runs in: the heap of persons (in order of
    construction), the one registry, the wall clock (an oracle answering the
    successive [datetime.now()] calls), the random source (answering [random]
    and [uuid4]) and the log. *)
Record World := mk_World {
  heap : list Person;
  registry : Registry;
  clock : nat → datetime;
  clock_reads : nat;
  entropy : nat → N;
  entropy_reads : nat;
  log : list LogRecord
}.

Definition set_heap (h : list Person) (w : World) : World :=
  mk_World h (registry w) (clock w) (clock_reads w)
           (entropy w) (entropy_reads w) (log w).

Definition set_registry (g : Registry) (w : World) : World :=
  mk_World (heap w) g (clock w) (clock_reads w)
           (entropy w) (entropy_reads w) (log w).

Definition set_clock_reads (n : nat) (w : World) : World :=
  mk_World (heap w) (registry w) (clock w) n
           (entropy w) (entropy_reads w) (log w).

Definition set_entropy_reads (n : nat) (w : World) : World :=
  mk_World (heap w) (registry w) (clock w) (clock_reads w)
           (entropy w) n (log w).

Definition set_log (l : list LogRecord) (w : World) : World :=
  mk_World (heap w) (registry w) (clock w) (clock_reads w)
           (entropy w) (entropy_reads w) l.

(** ** The monad of methods *)

Inductive Res (A : Type) := Val (a : A) | Raise (e : Exn).

Arguments Val {A} a.

Arguments Raise {A} e.

Definition M (A : Type) : Type := World → Res A * World.

Definition ret {A} (a : A) : M A := λ w, (Val a, w).

Definition raise {A} (e : Exn) : M A := λ w, (Raise e, w).

Definition bind {A B} (c : M A) (k : A → M B) : M B :=
  λ w, match c w with
       | (Val a, w') => k a w'
       | (Raise e, w') => (Raise e, w')
       end.

(** [try: c except e: h], for one exception class [e]. *)
Definition try_except {A} (c : M A) (e : Exn) (h : M A) : M A :=
  λ w, match c w with
       | (Val a, w') => (Val a, w')
       | (Raise e', w') => if decide (e' = e) then h w' else (Raise e', w')
       end.

Declare Scope py_scope.

Delimit Scope py_scope with py.

Notation "x <- c ;; k" := (bind c (λ x, k))
  (at level 100, c at next level, right associativity) : py_scope.

Notation "c ;; k" := (bind c (λ _, k))
  (at level 100, right associativity) : py_scope.

Local Open Scope py_scope.

(** The object behind a reference. *)
Definition get_person (r : ref) : M Person :=
  λ w, match heap w !! r with
       | Some p => (Val p, w)
       | None => (Raise Dangling, w)
       end.

(** [person.attr = v], with the setter [f] for [attr]. *)
Definition setattr (r : ref) (f : Person → Person) : M unit :=
  p <- get_person r ;;
  λ w, (Val tt, set_heap (<[r := f p]> (heap w)) w).

(** [self], when the method is one of the registry. *)
Definition get_registry : M Registry := λ w, (Val (registry w), w).

Definition put_registry (g : Registry) : M unit :=
  λ w, (Val tt, set_registry g w).

(** [datetime.now()]. *)
Definition datetime_now : M datetime :=
  λ w, (Val (clock w (clock_reads w)), set_clock_reads (S (clock_reads w)) w).

(** [logger.info(...)]. *)
Definition logger_info (m : LogRecord) : M unit :=
  λ w, (Val tt, set_log (log w ++ [m]) w).

(** [for x in l: body(x)]. *)
Fixpoint for_each {A} (l : list A) (body : A → M unit) : M unit :=
  match l with
  | [] => ret tt
  | x :: l' => body x ;; for_each l' body
  end.

(** The next answer of the random source. *)
Definition random_bits : M N :=
  λ w, (Val (entropy w (entropy_reads w)),
        set_entropy_reads (S (entropy_reads w)) w).

(** ** [Person] *)

(** [uuid.uuid4()]: 128 random bits with the variant and version fields
    overwritten as [UUID.__init__] does for [version=4]. *)
Definition uuid4_of (n : N) : UUID :=
  let i := (n mod 2 ^ 128)%N in
  let i := N.ldiff i (N.shiftl 0xc000 48) in
  let i := N.lor i (N.shiftl 0x8000 48) in
  let i := N.ldiff i (N.shiftl 0xf000 64) in
  N.lor i (N.shiftl 4 76).

Definition uuid4 : M UUID := n <- random_bits ;; ret (uuid4_of n).

(** [Person(name, surname, email, processing_time)]: a new object, whose
    reference is returned. *)
Definition Person_init (n s e : string) (pt : Z) : M ref :=
  u <- uuid4 ;;
  λ w, (Val (length (heap w)),
        set_heap (heap w ++ [mk_Person n s e pt None None None UNASSIGNED u]) w).

(** [Person.register]. *)
Definition register (r : ref) : M unit :=
  t <- datetime_now ;;
  setattr r (set_registered_at (Some t)) ;;
  setattr r (set_status WAITING).

(** [Person.assign]. *)
Definition assign (r : ref) : M unit :=
  t <- datetime_now ;;
  setattr r (set_assigned_at (Some t)) ;;
  setattr r (set_status ASSIGNED).

(** ** [Registry] *)

(** The property [Registry.available_tickets]. *)
Definition available_tickets (g : Registry) : Z :=
  limit g - Z.of_nat (length (assigned_list g)).

(** The writes to the registry's private attributes. *)
Definition seen_add (u : UUID) : M unit :=
  g <- get_registry ;;
  put_registry (mk_Registry (limit g) (assigned_list g) (awaiting_queue g)
                            (completed_list g) ({[u]} ∪ seen_ids g)).

Definition seen_discard (u : UUID) : M unit :=
  g <- get_registry ;;
  put_registry (mk_Registry (limit g) (assigned_list g) (awaiting_queue g)
                            (completed_list g) (seen_ids g ∖ {[u]})).

Definition assigned_append (r : ref) : M unit :=
  g <- get_registry ;;
  put_registry (mk_Registry (limit g) (assigned_list g ++ [r])
                            (awaiting_queue g) (completed_list g) (seen_ids g)).

Definition awaiting_append (r : ref) : M unit :=
  g <- get_registry ;;
  put_registry (mk_Registry (limit g) (assigned_list g)
                            (awaiting_queue g ++ [r]) (completed_list g)
                            (seen_ids g)).

Definition completed_append (r : ref) : M unit :=
  g <- get_registry ;;
  put_registry (mk_Registry (limit g) (assigned_list g) (awaiting_queue g)
                            (completed_list g ++ [r]) (seen_ids g)).

(** [self.__awaiting_queue.pop(0)]; [IndexError] on an empty list. *)
Definition awaiting_pop0 : M ref :=
  g <- get_registry ;;
  match awaiting_queue g with
  | [] => raise IndexError
  | r :: q =>
      put_registry (mk_Registry (limit g) (assigned_list g) q
                                (completed_list g) (seen_ids g)) ;;
      ret r
  end.

(** [list.remove(x)] on a list of references: the list without the first
    occurrence of [x], or [None] where Python raises [ValueError]. *)
Fixpoint list_remove (x : ref) (l : list ref) : option (list ref) :=
  match l with
  | [] => None
  | y :: l' => if decide (y = x) then Some l'
               else match list_remove x l' with
                    | Some l'' => Some (y :: l'')
                    | None => None
                    end
  end.

(** [self.__assigned_list.remove(person)]. *)
Definition assigned_remove (r : ref) : M unit :=
  g <- get_registry ;;
  match list_remove r (assigned_list g) with
  | None => raise ValueError
  | Some l =>
      put_registry (mk_Registry (limit g) l (awaiting_queue g)
                                (completed_list g) (seen_ids g))
  end.

Definition duplicate_msg : string := "You cannot add the same person twice".

(** [Registry.add]. *)
Definition add (r : ref) : M unit :=
  p <- get_person r ;;
  g <- get_registry ;;
  if decide (id_no p ∈ seen_ids g) then
    logger_info (Info duplicate_msg)
  else
    seen_add (id_no p) ;;
    (match registered_at p with
     | None => register r
     | Some _ => ret tt
     end) ;;
    g <- get_registry ;;
    if decide (available_tickets g > 0) then
      assign r ;;
      assigned_append r
    else
      awaiting_append r.

(** The [while] loop of [promote]; every iteration pops one reference, so
    the length of the queue bounds the number of iterations. *)
Fixpoint promote_loop (fuel : nat) : M unit :=
  g <- get_registry ;;
  if decide (awaiting_queue g ≠ [] ∧ available_tickets g > 0) then
    match fuel with
    | O => raise Diverged
    | S fuel' =>
        next_person <- awaiting_pop0 ;;
        assign next_person ;;
        assigned_append next_person ;;
        promote_loop fuel'
    end
  else ret tt.

(** [Registry.promote]. *)
Definition promote : M unit :=
  g <- get_registry ;;
  promote_loop (length (awaiting_queue g)).

(** [Registry.complete]. *)
Definition complete (r : ref) : M unit :=
  t <- datetime_now ;;
  setattr r (set_completed_at (Some t)) ;;
  setattr r (set_status COMPLETED) ;;
  assigned_remove r ;;
  p <- get_person r ;;
  seen_discard (id_no p) ;;
  completed_append r ;;
  promote.

(** [Registry.report_detailed]. *)
Definition report_detailed (added finished : Z) : M unit :=
  g <- get_registry ;;
  logger_info (Report added finished
                      (Z.of_nat (length (assigned_list g))) (limit g)
                      (Z.of_nat (length (awaiting_queue g)))
                      (Z.of_nat (length (completed_list g)))).

(** ** [Registry.save]: the export *)

(** Text is handled as a list of characters; a [string] stands for the
    UTF-8 encoding of a Python [str], in which the characters the CSV dialect
    cares about are single bytes. *)
Abbreviation chars := (list ascii).

Definition comma : ascii := ","%char.

Definition dquote : ascii := "034"%char.

Definition CR : ascii := "013"%char.

Definition LF : ascii := "010"%char.

(** *** [str(uuid)] and [datetime.isoformat()] *)

Definition digit_char (d : N) : ascii :=
  nth (N.to_nat d) (String.list_ascii_of_string "0123456789abcdef") "0"%char.

(** ['%0<width>d' % n] in base 10, ['%0<width>x' % n] in base 16, for an [n]
    of at most [width] digits: the digits of [n], most significant first. *)
Fixpoint pad_num (base : N) (width : nat) (n : N) : chars :=
  match width with
  | O => []
  | S w => digit_char ((n / base ^ N.of_nat w) mod base) :: pad_num base w n
  end.

(** [UUID.__str__]: 32 hexadecimal digits, cut 8-4-4-4-12. *)
Definition UUID_str (u : UUID) : chars :=
  let h := pad_num 16 32 u in
  take 8 h ++ "-"%char :: take 4 (drop 8 h) ++ "-"%char :: take 4 (drop 12 h)
    ++ "-"%char :: take 4 (drop 16 h) ++ "-"%char :: drop 20 h.

(** [datetime.isoformat()] of a naive datetime: the microseconds are left
    out when they are 0. *)
Definition isoformat (d : datetime) : chars :=
  pad_num 10 4 (year d) ++ "-"%char :: pad_num 10 2 (month d)
    ++ "-"%char :: pad_num 10 2 (day d)
    ++ "T"%char :: pad_num 10 2 (hour d)
    ++ ":"%char :: pad_num 10 2 (minute d)
    ++ ":"%char :: pad_num 10 2 (second d)
    ++ (if decide (microsecond d = 0%N) then []
        else "."%char :: pad_num 10 6 (microsecond d)).

(** *** [csv.writer(f, delimiter=',')]: the [excel] dialect *)

(** The characters that make [QUOTE_MINIMAL] quote a field: the delimiter,
    the quote character and those of the line terminator. *)
Definition special (c : ascii) : bool :=
  bool_decide (c = comma ∨ c = dquote ∨ c = CR ∨ c = LF).

(** With [doublequote], a quote character inside a field is written twice. *)
Fixpoint csv_escape (s : chars) : chars :=
  match s with
  | [] => []
  | c :: s' => if decide (c = dquote) then dquote :: dquote :: csv_escape s'
               else c :: csv_escape s'
  end.

Definition csv_quote (s : chars) : chars := dquote :: csv_escape s ++ [dquote].

Definition csv_field (s : chars) : chars :=
  if existsb special s then csv_quote s else s.

Fixpoint csv_join (fs : list chars) : chars :=
  match fs with
  | [] => []
  | [f] => csv_field f
  | f :: fs' => csv_field f ++ comma :: csv_join fs'
  end.

(** [writer.writerow(fields)]: a row made of one empty field is written as
    an empty quoted field; every row ends with the line terminator. *)
Definition csv_row (fs : list chars) : chars :=
  match fs with
  | [[]] => [dquote; dquote]
  | _ => csv_join fs
  end ++ [CR; LF].

(** *** [save] *)

(** The first row. *)
Definition header : list chars :=
  String.list_ascii_of_string <$>
    ["Id_no"; "Name"; "Surname"; "Email"; "Registered"; "Assigned"; "Completed"]%string.

(** [t.isoformat()] if [t] is set, else the empty string; a [datetime] is
    always true. *)
Definition timestamp_field (t : option datetime) : chars :=
  match t with
  | Some d => isoformat d
  | None => []
  end.

(** The list passed to [writerow] for one record. *)
Definition record_fields (p : Person) : list chars :=
  [UUID_str (id_no p);
   String.list_ascii_of_string (name p);
   String.list_ascii_of_string (surname p);
   String.list_ascii_of_string (email p);
   timestamp_field (registered_at p);
   timestamp_field (assigned_at p);
   timestamp_field (completed_at p)].

(** The rows written after the header, one per completed person. *)
Fixpoint save_rows (l : list ref) : M chars :=
  match l with
  | [] => ret []
  | r :: l' =>
      p <- get_person r ;;
      rest <- save_rows l' ;;
      ret (csv_row (record_fields p) ++ rest)
  end.

(** The [with] block of [Registry.save(file)]: returns the text written to
    the opened file (on a platform whose [os.linesep] is LF, where text mode
    writes CR and LF unchanged). *)
Definition save : M chars :=
  g <- get_registry ;;
  rows <- save_rows (completed_list g) ;;
  ret (csv_row header ++ rows).

(** [Registry.save(file)]: [open(file, 'w', encoding="UTF-8")], which raises
    when the path cannot be opened, then the [with] block. *)
Definition Registry_save (env : Env) (file : string) : M chars :=
  if can_open env file then save else raise OSError.

(** ** [PersonGenerator] *)

(** [class PersonGenerator]. *)
Record PersonGenerator := mk_PersonGenerator {
  min_user_per_tick : Z;
  max_user_per_tick : Z;
  min_processing_time : Z;
  max_processing_time : Z;
  names : list string;
  surnames : list string
}.

(** [random.randint(a, b)]: [ValueError] on an empty range. *)
Definition randint (a b : Z) : M Z :=
  if decide (a ≤ b) then
    n <- random_bits ;;
    ret (a + Z.of_N n mod (b - a + 1))
  else raise ValueError.

(** [random.choice(seq)]: [IndexError] on an empty sequence. *)
Definition choice (l : list string) : M string :=
  match l with
  | [] => raise IndexError
  | x :: _ =>
      n <- random_bits ;;
      ret (nth (N.to_nat n mod length l) l x)
  end.

(** The body of the [for] loop of [generate], [n] times. *)
Fixpoint generate_loop (gen : PersonGenerator) (n : nat) : M (list ref) :=
  match n with
  | O => ret []
  | S n' =>
      nm <- choice (names gen) ;;
      sn <- choice (surnames gen) ;;
      let em := (nm +:+ "." +:+ sn +:+ "@gmail.com")%string in
      pt <- randint (min_processing_time gen) (max_processing_time gen) ;;
      r <- Person_init nm sn em pt ;;
      rest <- generate_loop gen n' ;;
      ret (r :: rest)
  end.

(** [PersonGenerator.generate]. *)
Definition generate (gen : PersonGenerator) : M (list ref) :=
  number_users <- randint (min_user_per_tick gen) (max_user_per_tick gen) ;;
  generate_loop gen (Z.to_nat number_users).

(** ** [PipelineOrchestrator] *)

(** [person.processing_time -= 1], the driver's write to a person. *)
Definition work (r : ref) : M unit :=
  p <- get_person r ;;
  setattr r (set_processing_time (processing_time p - 1)).

(** [[p for p in l if p.processing_time <= 0]]. *)
Fixpoint select_finished (l : list ref) : M (list ref) :=
  match l with
  | [] => ret []
  | r :: l' =>
      p <- get_person r ;;
      rest <- select_finished l' ;;
      ret (if decide (processing_time p ≤ 0) then r :: rest else rest)
  end.

(** The first half of an iteration of [PipelineOrchestrator.run]: the
    decrements, the list [finished], the completions.  Returns [finished]. *)
Definition tick_finish : M (list ref) :=
  g <- get_registry ;;
  for_each (assigned_list g) work ;;
  g <- get_registry ;;
  finished <- select_finished (assigned_list g) ;;
  for_each finished complete ;;
  ret finished.

(** [time.sleep(secs)]: [ValueError] on a negative length.  The program
    spends its waiting time here, and this is where the user's interrupt is
    taken: [interrupt] tells whether it comes during this sleep, which then
    raises [KeyboardInterrupt].  (An interrupt that falls between two
    instructions of the work of an iteration is not modelled.) *)
Definition sleep (interrupt : bool) (secs : Z) : M unit :=
  if decide (secs < 0) then raise ValueError
  else if interrupt then raise KeyboardInterrupt
  else ret tt.

(** One iteration of the [while] loop, with the delay [tick_time_interval]
    and whether the user interrupts its sleep. *)
Definition tick (gen : PersonGenerator) (tick_time_interval : Z)
    (interrupt : bool) : M unit :=
  finished <- tick_finish ;;
  users <- generate gen ;;
  for_each users add ;;
  report_detailed (Z.of_nat (length users)) (Z.of_nat (length finished)) ;;
  sleep interrupt tick_time_interval.

(** [while self.tick_interval > 0: self.tick_interval -= 1; ...]: one
    iteration per unit of [tick_interval]; [n] is [self.tick_interval]. *)
Fixpoint run_loop (env : Env) (gen : PersonGenerator) (tick_time_interval : Z)
    (n : nat) : M unit :=
  match n with
  | O => ret tt
  | S n' =>
      tick gen tick_time_interval (interrupted env n') ;;
      run_loop env gen tick_time_interval n'
  end.

(** The loop of [PipelineOrchestrator.run]. *)
Definition run_ticks (env : Env) (gen : PersonGenerator)
    (tick_interval tick_time_interval : Z) : M unit :=
  run_loop env gen tick_time_interval (Z.to_nat tick_interval).

Definition stopped_msg : string := "Simulation stopped by user".

(** [PipelineOrchestrator.run]: the loop inside [try ... except
    KeyboardInterrupt], the final log line, the export to [file] (which is
    [config["file"]["output"]]) and the last log line; returns the text of
    the exported file. *)
Definition run (env : Env) (gen : PersonGenerator)
    (tick_interval tick_time_interval : Z) (file : string) : M chars :=
  try_except (run_ticks env gen tick_interval tick_time_interval)
             KeyboardInterrupt (logger_info (Info stopped_msg)) ;;
  g <- get_registry ;;
  logger_info (Finished (Z.of_nat (length (completed_list g)))) ;;
  text <- Registry_save env file ;;
  logger_info (Info "Process Saved") ;;
  ret text.

(** * Reading the export back *)

(** Modelled from the spec: the repository has no reader for the file it
    exports; re-parsing is modelled as a reader of the dialect the file is
    written in, with the states of Python's [csv.reader]: fields separated by
    commas, records ended by CR LF, CR or LF outside quotes, quoted fields
    with doubled quotes, a blank line read as an empty record. *)
Inductive RState :=
| START_RECORD | START_FIELD | IN_FIELD
| IN_QUOTED_FIELD | QUOTE_IN_QUOTED_FIELD | AFTER_CR.

Record Reader := mk_Reader {
  rstate : RState;
  field : chars;
  fields : list chars
}.

(** The reader's step on one character: the next reader, and the record
    this character completes, if any. *)
Definition reader_step (rd : Reader) (c : ascii) : Reader * option (list chars) :=
  let done := fields rd ++ [field rd] in
  let start_field :=
    if decide (c = CR) then (mk_Reader AFTER_CR [] [], Some (fields rd ++ [[]]))
    else if decide (c = LF) then (mk_Reader START_RECORD [] [], Some (fields rd ++ [[]]))
    else if decide (c = dquote) then (mk_Reader IN_QUOTED_FIELD [] (fields rd), None)
    else if decide (c = comma) then (mk_Reader START_FIELD [] (fields rd ++ [[]]), None)
    else (mk_Reader IN_FIELD [c] (fields rd), None) in
  let start_record :=
    if decide (c = CR) then (mk_Reader AFTER_CR [] [], Some [])
    else if decide (c = LF) then (mk_Reader START_RECORD [] [], Some [])
    else start_field in
  match rstate rd with
  | START_RECORD => start_record
  | AFTER_CR =>
      if decide (c = LF) then (mk_Reader START_RECORD [] [], None)
      else start_record
  | START_FIELD => start_field
  | IN_FIELD =>
      if decide (c = CR) then (mk_Reader AFTER_CR [] [], Some done)
      else if decide (c = LF) then (mk_Reader START_RECORD [] [], Some done)
      else if decide (c = comma) then (mk_Reader START_FIELD [] done, None)
      else (mk_Reader IN_FIELD (field rd ++ [c]) (fields rd), None)
  | IN_QUOTED_FIELD =>
      if decide (c = dquote)
      then (mk_Reader QUOTE_IN_QUOTED_FIELD (field rd) (fields rd), None)
      else (mk_Reader IN_QUOTED_FIELD (field rd ++ [c]) (fields rd), None)
  | QUOTE_IN_QUOTED_FIELD =>
      if decide (c = dquote)
      then (mk_Reader IN_QUOTED_FIELD (field rd ++ [c]) (fields rd), None)
      else if decide (c = comma) then (mk_Reader START_FIELD [] done, None)
      else if decide (c = CR) then (mk_Reader AFTER_CR [] [], Some done)
      else if decide (c = LF) then (mk_Reader START_RECORD [] [], Some done)
      else (mk_Reader IN_FIELD (field rd ++ [c]) (fields rd), None)
  end.

Fixpoint csv_read (rd : Reader) (s : chars) : list (list chars) :=
  match s with
  | [] =>
      match rstate rd with
      | START_RECORD | AFTER_CR => []
      | _ => [fields rd ++ [field rd]]
      end
  | c :: s' =>
      match reader_step rd c with
      | (rd', Some record) => record :: csv_read rd' s'
      | (rd', None) => csv_read rd' s'
      end
  end.

(** The records of a text. *)
Definition csv_reader (s : chars) : list (list chars) :=
  csv_read (mk_Reader START_RECORD [] []) s.

(** Modelled from the spec: the inverse of [digit_char], for the digits of
    base [base]. *)
Definition digit_val (base : N) (c : ascii) : option N :=
  let v := N_of_ascii c in
  let d := if decide (48 ≤ v ≤ 57)%N then Some (v - 48)%N
           else if decide (97 ≤ v ≤ 102)%N then Some (v - 87)%N
           else None in
  match d with
  | Some x => if decide (x < base)%N then Some x else None
  | None => None
  end.

(** Modelled from the spec: reads exactly [width] digits. *)
Fixpoint read_num (base : N) (width : nat) (acc : N) (s : chars)
  : option (N * chars) :=
  match width with
  | O => Some (acc, s)
  | S w =>
      match s with
      | [] => None
      | c :: s' =>
          match digit_val base c with
          | Some d => read_num base w (acc * base + d)%N s'
          | None => None
          end
      end
  end.

(** Modelled from the spec: reads the character [c]. *)
Definition expect (c : ascii) (s : chars) : option chars :=
  match s with
  | c' :: s' => if decide (c' = c) then Some s' else None
  | [] => None
  end.

(** Modelled from the spec: the reading of an identifier as [str(uuid)]
    writes it (what [UUID(text)] does): the hyphens are dropped and 32
    hexadecimal digits are read. *)
Definition UUID_parse (s : chars) : option UUID :=
  match read_num 16 32 0 (filter (λ c, c ≠ "-"%char) s) with
  | Some (u, []) => Some u
  | _ => None
  end.

(** Modelled from the spec: the reading of a timestamp as [isoformat]
    writes it (what [datetime.fromisoformat] does on such text). *)
Definition fromisoformat (s : chars) : option datetime :=
  '(y, s) ← read_num 10 4 0 s; s ← expect "-"%char s;
  '(mo, s) ← read_num 10 2 0 s; s ← expect "-"%char s;
  '(d, s) ← read_num 10 2 0 s; s ← expect "T"%char s;
  '(h, s) ← read_num 10 2 0 s; s ← expect ":"%char s;
  '(mi, s) ← read_num 10 2 0 s; s ← expect ":"%char s;
  '(sec, s) ← read_num 10 2 0 s;
  match s with
  | [] => Some (mk_datetime y mo d h mi sec 0)
  | _ =>
      s ← expect "."%char s;
      '(us, s) ← read_num 10 6 0 s;
      match s with
      | [] => if decide (us = 0%N) then None
              else Some (mk_datetime y mo d h mi sec us)
      | _ => None
      end
  end.

(** Modelled from the spec: an empty field is an unset timestamp. *)
Definition timestamp_parse (s : chars) : option (option datetime) :=
  match s with
  | [] => Some None
  | _ => Some <$> fromisoformat s
  end.

(** What the export holds of a person. *)
Record Exported := mk_Exported {
  x_id_no : UUID;
  x_name : string;
  x_surname : string;
  x_email : string;
  x_registered_at : option datetime;
  x_assigned_at : option datetime;
  x_completed_at : option datetime
}.

Definition exported (p : Person) : Exported :=
  mk_Exported (id_no p) (name p) (surname p) (email p)
              (registered_at p) (assigned_at p) (completed_at p).

(** Modelled from the spec: the reading of one record of the export. *)
Definition record_parse (fs : list chars) : option Exported :=
  match fs with
  | [i; n; s; e; r; a; c] =>
      u ← UUID_parse i;
      r' ← timestamp_parse r;
      a' ← timestamp_parse a;
      c' ← timestamp_parse c;
      Some (mk_Exported u (String.string_of_list_ascii n)
                        (String.string_of_list_ascii s)
                        (String.string_of_list_ascii e) r' a' c')
  | _ => None
  end.

(** Modelled from the spec: the reading of a whole export: the header, then
    one record per person. *)
Definition export_parse (s : chars) : option (list Exported) :=
  match csv_reader s with
  | h :: records =>
      if decide (h = header) then mapM record_parse records else None
  | [] => None
  end.

(** * The notions of the statements *)

(** ** Calls on a registry and the states they reach *)

(** What a client of the registry can do between two observations: build a
    person, call one of the registry's methods on any reference it holds
    (with or without the method's precondition), or decrement a person's
    remaining time. *)
Inductive Call :=
| CPerson (n s e : string) (pt : Z)
| CAdd (r : ref)
| CComplete (r : ref)
| CPromote
| CWork (r : ref)
| CReport (added finished : Z).

(** The computation a call stands for. *)
Definition exec (c : Call) : M unit :=
  match c with
  | CPerson n s e pt => _ <- Person_init n s e pt ;; ret tt
  | CAdd r => add r
  | CComplete r => complete r
  | CPromote => promote
  | CWork r => work r
  | CReport a f => report_detailed a f
  end.

(** The world after a call, whether it returned or raised. *)
Definition after {A} (c : M A) (w : World) : World := (c w).2.

(** The world after a sequence of calls. *)
Definition exec_all (cs : list Call) (w : World) : World :=
  foldl (λ w c, after (exec c) w) w cs.

(** A fresh process: no persons, [Registry(limit=lim)], nothing logged. *)
Definition init_world (lim : Z) (clk : nat → datetime) (ent : nat → N) : World :=
  mk_World [] (Registry_init lim) clk 0 ent 0 [].

(** The worlds a process with [Registry(limit=lim)] can be in. *)
Inductive reachable (lim : Z) : World → Prop :=
| reachable_init clk ent : reachable lim (init_world lim clk ent)
| reachable_call w c : reachable lim w → reachable lim (after (exec c) w).

(** ** What the methods leave behind *)

(** The references [rs] denote persons of the heap. *)
Definition allocated (w : World) (rs : list ref) : Prop :=
  Forall (λ r, (r < length (heap w))%nat) rs.

(** What [assign] writes into a person. *)
Definition assigned_at_time (t : datetime) (p : Person) : Person :=
  set_status ASSIGNED (set_assigned_at (Some t) p).

(** What [register] writes into a person. *)
Definition registered_at_time (t : datetime) (p : Person) : Person :=
  set_status WAITING (set_registered_at (Some t) p).

(** What [complete] writes into a person. *)
Definition completed_at_time (t : datetime) (p : Person) : Person :=
  set_status COMPLETED (set_completed_at (Some t) p).

(** How many persons one call of [promote] moves: as many as wait, as long
    as tickets are left. *)
Definition promoted_count (g : Registry) : nat :=
  length (awaiting_queue g) `min` Z.to_nat (available_tickets g).

(** The registry after [promote]. *)
Definition promoted (g : Registry) : Registry :=
  let k := promoted_count g in
  mk_Registry (limit g) (assigned_list g ++ take k (awaiting_queue g))
              (drop k (awaiting_queue g)) (completed_list g) (seen_ids g).

(** The heap [h'] is [h] after [assign] ran on the references [rs] and on
    nothing else. *)
Definition assigned_in (rs : list ref) (h h' : list Person) : Prop :=
  length h' = length h ∧
  ∀ r, (r ∈ rs → ∃ p t, h !! r = Some p ∧ h' !! r = Some (assigned_at_time t p)) ∧
       (r ∉ rs → h' !! r = h !! r).

(** The person [add] leaves behind for a newcomer [p]: registered unless it
    was registered before, then assigned if [direct]. *)
Definition newcomer (w : World) (direct : bool) (p : Person) : Person :=
  let t := clock w (clock_reads w) in
  match registered_at p with
  | None =>
      let p1 := registered_at_time t p in
      if direct then assigned_at_time (clock w (S (clock_reads w))) p1 else p1
  | Some _ => if direct then assigned_at_time t p else p
  end.

(** The clock after [add] took a newcomer [p]. *)
Definition newcomer_reads (w : World) (direct : bool) (p : Person) : nat :=
  ((match registered_at p with Some _ => 0 | None => 1 end)
   + (if direct then 1 else 0) + clock_reads w)%nat.

(** The world in which [complete] reaches its call of [promote]. *)
Definition released (r : ref) (p : Person) (l : list ref) (w : World) : World :=
  set_registry
    (mk_Registry (limit (registry w)) l (awaiting_queue (registry w))
                 (completed_list (registry w) ++ [r])
                 (seen_ids (registry w) ∖ {[id_no p]}))
    (set_heap (<[r := completed_at_time (clock w (clock_reads w)) p]> (heap w))
              (set_clock_reads (S (clock_reads w)) w)).

(** Whether the person behind [r] on heap [h] has no processing time left. *)
Definition finished_now (h : list Person) (r : ref) : bool :=
  match h !! r with
  | Some p => bool_decide (processing_time p ≤ 0)
  | None => false
  end.

(** [person.processing_time -= 1] as a change of the record. *)
Definition decremented (p : Person) : Person :=
  set_processing_time (processing_time p - 1) p.

(** ** The invariant of the registry *)

(** The identifiers of the persons on the heap, by reference.  No method
    writes [id_no], so this list only grows. *)
Definition ids (w : World) : list UUID := id_no <$> heap w.

(** The identifier at position [r] of a list of identifiers. *)
Definition uid_in (I : list UUID) (r : ref) : UUID := default 0%N (I !! r).

(** [person.id_no] of the person behind [r]. *)
Definition uid (w : World) (r : ref) : UUID := uid_in (ids w) r.

(** The live persons: the active ones, then the waiting ones. *)
Definition live (g : Registry) : list ref := assigned_list g ++ awaiting_queue g.

(** What every call keeps: the limit, live and completed references denote
    persons, live persons have distinct identifiers, which are exactly the
    seen ones, and the active list is within the capacity. *)
Record core (lim : Z) (I : list UUID) (g : Registry) : Prop := mk_core {
  core_limit : limit g = lim;
  core_alloc : Forall (λ r, (r < length I)%nat) (live g ++ completed_list g);
  core_nodup : NoDup (uid_in I <$> live g);
  core_seen : seen_ids g = list_to_set (uid_in I <$> live g);
  core_cap : Z.of_nat (length (assigned_list g)) ≤ Z.max 0 lim
}.

(** Nobody waits while a ticket is free. *)
Definition settled (g : Registry) : Prop :=
  awaiting_queue g ≠ [] → available_tickets g ≤ 0.

(** The invariant of the reachable worlds. *)
Definition inv (lim : Z) (w : World) : Prop :=
  core lim (ids w) (registry w) ∧ settled (registry w).

(** [A] stands before [B] in the list [l]. *)
Definition precedes (A B : ref) (l : list ref) : Prop :=
  ∃ l1 l2 l3, l = l1 ++ A :: l2 ++ B :: l3.

(** ** The exported text *)

(** The occurrences of a character in a text. *)
Definition count_char (x : ascii) (s : chars) : nat :=
  length (filter (λ c, c = x) s).

(** The number of lines of a text, as the number of its line feeds. *)
Definition count_lines (s : chars) : nat := count_char LF s.

(** The values a [datetime] and a [UUID] can hold. *)
Definition valid_datetime (d : datetime) : Prop :=
  (1 ≤ year d ≤ 9999 ∧ 1 ≤ month d ≤ 12 ∧ 1 ≤ day d ≤ 31 ∧ hour d < 24
   ∧ minute d < 60 ∧ second d < 60 ∧ microsecond d < 1000000)%N.

Definition valid_timestamp (t : option datetime) : Prop :=
  match t with
  | Some d => valid_datetime d
  | None => True
  end.

Definition valid_person (p : Person) : Prop :=
  (id_no p < 2 ^ 128)%N ∧ valid_timestamp (registered_at p)
  ∧ valid_timestamp (assigned_at p) ∧ valid_timestamp (completed_at p).

(** No carriage return or line feed in the text attributes of a person. *)
Definition one_line (s : string) : Prop :=
  Forall (λ c, c ≠ CR ∧ c ≠ LF) (String.list_ascii_of_string s).

Definition one_line_person (p : Person) : Prop :=
  one_line (name p) ∧ one_line (surname p) ∧ one_line (email p).

#[global] Instance valid_datetime_dec d : Decision (valid_datetime d).
Proof. unfold valid_datetime. apply _. Defined.

#[global] Instance valid_timestamp_dec t : Decision (valid_timestamp t).
Proof. destruct t; apply _. Defined.

#[global] Instance valid_person_dec p : Decision (valid_person p).
Proof. unfold valid_person. apply _. Defined.

#[global] Instance one_line_dec s : Decision (one_line s).
Proof. unfold one_line. apply _. Defined.

#[global] Instance one_line_person_dec p : Decision (one_line_person p).
Proof. unfold one_line_person. apply _. Defined.

(** From the start of a field, the reader is after it in one of three
    ways; in each, a comma or a line end stores the field. *)
Definition after_field (f : chars) (fs : list chars) (rd : Reader) : Prop :=
  fields rd = fs ∧
  ((rstate rd = START_FIELD ∧ field rd = [] ∧ f = [])
   ∨ (rstate rd = IN_FIELD ∧ field rd = f)
   ∨ (rstate rd = QUOTE_IN_QUOTED_FIELD ∧ field rd = f)).

(** The characters [digit_char] produces. *)
Definition alphabet : chars := String.list_ascii_of_string "0123456789abcdef".

(** ** Concrete runs *)

(** A clock that advances by one second per reading, and a random source. *)
Definition clock0 (n : nat) : datetime :=
  mk_datetime 2024 5 17 9 30 (N.of_nat n) 0.

Definition entropy0 (n : nat) : N := N.of_nat (7 * n + 3).

(** Capacity 2; E1, E2 and E3 are built and added in this order. *)
Definition scenario_A : World :=
  exec_all [CPerson "Ada" "Lovelace" "Ada.Lovelace@gmail.com" 2;
            CPerson "Alan" "Turing" "Alan.Turing@gmail.com" 3;
            CPerson "Grace" "Hopper" "Grace.Hopper@gmail.com" 1;
            CAdd 0%nat; CAdd 1%nat; CAdd 2%nat]
           (init_world 2 clock0 entropy0).

(** Capacity 2 and four persons: E1 and E2 are active, E3 and E4 wait. *)
Definition scenario_queue : World :=
  exec_all [CPerson "Edsger" "Dijkstra" "Edsger.Dijkstra@gmail.com" 4;
            CAdd 3%nat]
           scenario_A.

(** Scenario A one tick before E1 is due, with E3 (waiting) out of time. *)
Definition scenario_due : World :=
  exec_all [CWork 0%nat; CWork 2%nat] scenario_A.

(** A completed log whose only person has a line feed in its name. *)
Definition scenario_multiline : World :=
  exec_all [CPerson (String.string_of_list_ascii ["A"%char; LF; "B"%char])
                    "Smith" "ab.smith@gmail.com" 1;
            CAdd 0%nat; CComplete 0%nat]
           (init_world 2 clock0 entropy0).

(** Both persons of Scenario A completed, E1 first. *)
Definition scenario_done : World :=
  exec_all [CComplete 0%nat; CComplete 1%nat] scenario_A.

(** * The driver's states and the program's entry *)

(** ** The program's entry *)



(** ** The states the driver passes through *)

(** [w'] comes from [w] by calls on the registry, constructions of persons,
    readings of the random source and log lines, in any number and order.
    Every method of the program is made of such steps. *)
Inductive steps_to (w : World) : World → Prop :=
| steps_refl : steps_to w w
| steps_call w' c : steps_to w w' → steps_to w (after (exec c) w')
| steps_random w' : steps_to w w' → steps_to w (after random_bits w')
| steps_log w' m : steps_to w w' → steps_to w (after (logger_info m) w').

(** The worlds of a process that started with [Registry(limit=lim)]: the
    reachable ones and those the generator and the driver add to them. *)
Definition driven (lim : Z) (w : World) : Prop :=
  ∃ clk ent, steps_to (init_world lim clk ent) w.

(** A computation all of whose runs are steps. *)
Definition stepwise {A} (c : M A) : Prop := ∀ w, steps_to w (after c w).

(** ** What persons keep *)

(** The attributes no method writes. *)
Definition person_identity (p : Person) : UUID * string * string * string :=
  (id_no p, name p, surname p, email p).

(** [p'] is [p] later on: the same identity, no more processing time left
    than before, the same [registered_at] once it is set, and [assigned_at]
    and [completed_at] still set if they were. *)
Definition same_person (p p' : Person) : Prop :=
  person_identity p' = person_identity p ∧
  processing_time p' ≤ processing_time p ∧
  (∀ t, registered_at p = Some t → registered_at p' = Some t) ∧
  (is_Some (assigned_at p) → is_Some (assigned_at p')) ∧
  (is_Some (completed_at p) → is_Some (completed_at p')).

(** Every person of the heap [h] is still there in [h'], the same person. *)
Definition heap_kept (h h' : list Person) : Prop :=
  ∀ r p, h !! r = Some p → ∃ p', h' !! r = Some p' ∧ same_person p p'.

(** From [w] to [w'] nothing is lost: the persons are kept, the completed
    list and the log are only appended to, a person in one of the registry's
    lists is still in one of them, and the limit, the clock and the random
    source are the same. *)
Definition grows (w w' : World) : Prop :=
  heap_kept (heap w) (heap w') ∧
  completed_list (registry w) `prefix_of` completed_list (registry w') ∧
  log w `prefix_of` log w' ∧
  (∀ r, r ∈ live (registry w) ++ completed_list (registry w) →
        r ∈ live (registry w') ++ completed_list (registry w')) ∧
  limit (registry w') = limit (registry w) ∧
  clock w' = clock w ∧ entropy w' = entropy w.

(** The world after one round of the loop of [promote]: the head [r] of the
    queue [r :: q], whose person is [p], is assigned and made active. *)
Definition promote_step (r : ref) (q : list ref) (p : Person) (w : World) : World :=
  set_registry
    (mk_Registry (limit (registry w)) (assigned_list (registry w) ++ [r]) q
                 (completed_list (registry w)) (seen_ids (registry w)))
    (set_heap (<[r := assigned_at_time (clock w (clock_reads w)) p]> (heap w))
              (set_clock_reads (S (clock_reads w)) w)).

(** How many of the newcomers [rs] get a ticket at once: as many as there
    are, as long as tickets are left. *)
Definition admitted (w : World) (rs : list ref) : nat :=
  length rs `min` Z.to_nat (available_tickets (registry w)).

(** What holds of a person in the active list. *)
Definition active_ok (p : Person) : Prop :=
  status p = ASSIGNED ∧ is_Some (assigned_at p) ∧ is_Some (registered_at p).

(** Active persons are assigned, and waiting persons registered. *)
Definition status_inv (w : World) : Prop :=
  (∀ r, r ∈ assigned_list (registry w) →
        ∃ p, heap w !! r = Some p ∧ active_ok p) ∧
  (∀ r, r ∈ awaiting_queue (registry w) →
        ∃ p, heap w !! r = Some p ∧ is_Some (registered_at p)).

(** ** The generator *)

(** The ranges are not empty and there is a name and a surname to pick. *)
Definition valid_generator (gen : PersonGenerator) : Prop :=
  min_user_per_tick gen ≤ max_user_per_tick gen ∧
  min_processing_time gen ≤ max_processing_time gen ∧
  names gen ≠ [] ∧ surnames gen ≠ [].

(** The number of persons the next call of [generate] draws, when the range
    is not empty. *)
Definition number_users (gen : PersonGenerator) (w : World) : Z :=
  min_user_per_tick gen
  + Z.of_N (entropy w (entropy_reads w))
    mod (max_user_per_tick gen - min_user_per_tick gen + 1).

(** What holds of a person [generate] has just built. *)
Definition generated_by (gen : PersonGenerator) (p : Person) : Prop :=
  name p ∈ names gen ∧ surname p ∈ surnames gen ∧
  email p = (name p +:+ "." +:+ surname p +:+ "@gmail.com")%string ∧
  min_processing_time gen ≤ processing_time p ≤ max_processing_time gen ∧
  status p = UNASSIGNED ∧ registered_at p = None ∧ assigned_at p = None ∧
  completed_at p = None ∧ (id_no p < 2 ^ 128)%N.

(** Whether the tick that starts now brings the person behind [r] to the end
    of its processing time. *)
Definition due (w : World) (r : ref) : bool :=
  match heap w !! r with
  | Some p => bool_decide (processing_time p - 1 ≤ 0)
  | None => false
  end.

(** How [sleep] ends. *)
Definition slept (interrupt : bool) (secs : Z) : Res unit :=
  if decide (secs < 0) then Raise ValueError
  else if interrupt then Raise KeyboardInterrupt
  else Val tt.





(** ** What holds of every person *)




(** The clock of [w] is [clk], and [Q] holds of every person of the heap. *)
Definition persons_ok (Q : Person → Prop) (clk : nat → datetime) (w : World) : Prop :=
  clock w = clk ∧ Forall Q (heap w).

(** ** Further concrete runs *)

(** A generator of one to three persons per tick. *)
Definition generator0 : PersonGenerator :=
  mk_PersonGenerator 1 3 1 5 ["Ada"; "Alan"; "Grace"]%string
                     ["Lovelace"; "Turing"; "Hopper"]%string.



(** Every path can be opened and the user never interrupts; no path can be
    opened. *)
Definition env0 : Env := mk_Env (λ _, true) (λ _, false).




(** Scenario A after both active persons completed (E3 is promoted), with
    three more persons built and not yet added. *)
Definition scenario_arrivals : World :=
  exec_all [CPerson "Edsger" "Dijkstra" "Edsger.Dijkstra@gmail.com" 4;
            CPerson "Barbara" "Liskov" "Barbara.Liskov@gmail.com" 2;
            CPerson "Tony" "Hoare" "Tony.Hoare@gmail.com" 5]
           scenario_done.

(** Capacity 2 raised to 3 ([registry.limit = 3]) with E1 and E2 active and
    E3 and E4 waiting: one ticket is free while two persons wait. *)
Definition scenario_raised : World :=
  set_registry (mk_Registry 3 (assigned_list (registry scenario_queue))
                            (awaiting_queue (registry scenario_queue))
                            (completed_list (registry scenario_queue))
                            (seen_ids (registry scenario_queue)))
               scenario_queue.

(** The state a first tick leaves, from which a second one starts. *)
Definition scenario_second_tick : World :=
  after (tick generator0 0 false) scenario_due.

(** * Properties *)

Arguments assign : simpl never.

Arguments register : simpl never.

Arguments setattr : simpl never.

Ltac unfold_prims :=
  unfold bind, ret, raise, get_person, get_registry, put_registry,
    datetime_now, logger_info, seen_add, seen_discard, assigned_append,
    awaiting_append, completed_append, awaiting_pop0, assigned_remove.

(** ** How the methods run *)

Lemma setattr_run r f w :
  setattr r f w =
  match heap w !! r with
  | Some p => (Val tt, set_heap (<[r := f p]> (heap w)) w)
  | None => (Raise Dangling, w)
  end.
Proof. unfold setattr, bind, get_person. by destruct (heap w !! r). Qed.

Lemma assign_run r w :
  assign r w =
  let t := clock w (clock_reads w) in
  let w1 := set_clock_reads (S (clock_reads w)) w in
  match heap w !! r with
  | Some p => (Val tt, set_heap (<[r := assigned_at_time t p]> (heap w)) w1)
  | None => (Raise Dangling, w1)
  end.
Proof.
  unfold assign, bind, datetime_now. rewrite setattr_run. simpl.
  destruct (heap w !! r) as [p|] eqn:Hp; [|done].
  rewrite setattr_run. simpl.
  rewrite list_lookup_insert_eq by (by eapply lookup_lt_Some).
  by rewrite list_insert_insert_eq.
Qed.

Lemma register_run r w :
  register r w =
  let t := clock w (clock_reads w) in
  let w1 := set_clock_reads (S (clock_reads w)) w in
  match heap w !! r with
  | Some p => (Val tt, set_heap (<[r := registered_at_time t p]> (heap w)) w1)
  | None => (Raise Dangling, w1)
  end.
Proof.
  unfold register, bind, datetime_now. rewrite setattr_run. simpl.
  destruct (heap w !! r) as [p|] eqn:Hp; [|done].
  rewrite setattr_run. simpl.
  rewrite list_lookup_insert_eq by (by eapply lookup_lt_Some).
  by rewrite list_insert_insert_eq.
Qed.

(** ** [list.remove] *)

Lemma list_remove_None x l : list_remove x l = None ↔ x ∉ l.
Proof.
  induction l as [|y l IH]; simpl.
  - split; [intros _; apply not_elem_of_nil | done].
  - rewrite not_elem_of_cons. case_decide as Hy.
    + split; [done | intros [Hne _]; congruence].
    + destruct (list_remove x l) as [l'|].
      * split; [done|]. intros [_ Hl]. by apply IH in Hl.
      * split; [|done]. intros _. split; [congruence | by apply IH].
Qed.

Lemma list_remove_Some x l l' :
  list_remove x l = Some l' ↔
  ∃ l1 l2, l = l1 ++ x :: l2 ∧ (x ∉ l1) ∧ l' = l1 ++ l2.
Proof.
  revert l'. induction l as [|y l IH]; intros l'; simpl.
  - split; [done|]. intros (l1 & l2 & Hl & _). by destruct l1.
  - case_decide as Hy.
    + subst y. split.
      * intros [= <-]. exists [], l. split_and!; [done | apply not_elem_of_nil | done].
      * intros (l1 & l2 & Hl & Hx & ->). destruct l1 as [|z l1]; simplify_eq/=; [done|].
        exfalso. apply Hx. left.
    + destruct (list_remove x l) as [l''|] eqn:Hr.
      * split.
        -- intros [= <-]. destruct (proj1 (IH l'') eq_refl) as (l1 & l2 & -> & Hx & ->).
           exists (y :: l1), l2. split_and!; [done | | done].
           rewrite not_elem_of_cons. split; [congruence | done].
        -- intros (l1 & l2 & Hl & Hx & ->). destruct l1 as [|z l1]; simplify_eq/=.
           apply not_elem_of_cons in Hx as [_ Hx].
           f_equal. f_equal. apply (inj Some). apply IH. by exists l1, l2.
      * split; [done|]. intros (l1 & l2 & Hl & Hx & ->).
        destruct l1 as [|z l1]; simplify_eq/=.
        apply not_elem_of_cons in Hx as [_ Hx].
        assert (None = Some (l1 ++ l2)) as Habs; [|done].
        apply IH. by exists l1, l2.
Qed.

Lemma list_remove_is_Some x l : x ∈ l → is_Some (list_remove x l).
Proof.
  intros Hx. destruct (list_remove x l) eqn:Hr; [by eexists|].
  by apply list_remove_None in Hr.
Qed.

Lemma list_remove_length x l l' :
  list_remove x l = Some l' → length l = S (length l').
Proof.
  intros (l1 & l2 & -> & _ & ->)%list_remove_Some.
  rewrite !length_app. simpl. lia.
Qed.

(** ** [promote] *)

Lemma assigned_in_cons r rs h h' p t :
  h !! r = Some p →
  assigned_in rs (<[r := assigned_at_time t p]> h) h' →
  assigned_in (r :: rs) h h'.
Proof.
  intros Hp [Hlen Hrs]. split; [by rewrite Hlen, length_insert|].
  intros r'. destruct (Hrs r') as [Hin Hout]. split.
  - intros Hr'. destruct (decide (r' ∈ rs)) as [Hd|Hd].
    + destruct (Hin Hd) as (p' & t' & Hp' & Hh').
      destruct (decide (r' = r)) as [->|Hne].
      * rewrite list_lookup_insert_eq in Hp' by (by eapply lookup_lt_Some).
        injection Hp' as <-. exists p, t'. by rewrite Hh'.
      * rewrite list_lookup_insert_ne in Hp' by done. by exists p', t'.
    + apply elem_of_cons in Hr' as [->|Hr']; [|done].
      exists p, t. split; [done|]. rewrite (Hout Hd).
      apply list_lookup_insert_eq. by eapply lookup_lt_Some.
  - intros [Hne Hd]%not_elem_of_cons. rewrite (Hout Hd).
    by apply list_lookup_insert_ne.
Qed.

Lemma promote_loop_exit fuel w :
  ¬ (awaiting_queue (registry w) ≠ [] ∧ available_tickets (registry w) > 0) →
  promote_loop fuel w = (Val tt, w).
Proof.
  intros Hc. destruct fuel; cbn; by rewrite decide_False.
Qed.

Lemma promote_loop_iter fuel w r q p :
  awaiting_queue (registry w) = r :: q →
  available_tickets (registry w) > 0 →
  heap w !! r = Some p →
  promote_loop (S fuel) w =
  promote_loop fuel
    (set_registry
       (mk_Registry (limit (registry w)) (assigned_list (registry w) ++ [r]) q
                    (completed_list (registry w)) (seen_ids (registry w)))
       (set_heap (<[r := assigned_at_time (clock w (clock_reads w)) p]> (heap w))
                 (set_clock_reads (S (clock_reads w)) w))).
Proof.
  intros Hq Hav Hp. cbn [promote_loop]. unfold_prims.
  rewrite decide_True by (by rewrite Hq).
  cbn. rewrite Hq. cbn. rewrite assign_run. cbn. rewrite Hp. cbn.
  done.
Qed.

Lemma promoted_count_0 g :
  ¬ (awaiting_queue g ≠ [] ∧ available_tickets g > 0) → promoted_count g = 0%nat.
Proof.
  intros Hc. unfold promoted_count. apply not_and_l in Hc as [Hq|Hav].
  - destruct (awaiting_queue g); [done|]. by destruct Hq.
  - lia.
Qed.

Lemma promoted_0 g : promoted_count g = 0%nat → promoted g = g.
Proof.
  intros Hk. unfold promoted. rewrite Hk. simpl. rewrite app_nil_r.
  by destruct g.
Qed.

Lemma assigned_in_nil h : assigned_in [] h h.
Proof. split; [done|]. intros r. split; [by intros ?%elem_of_nil|done]. Qed.

Lemma promote_loop_run fuel w :
  (length (awaiting_queue (registry w)) ≤ fuel)%nat →
  allocated w (awaiting_queue (registry w)) →
  ∃ w', promote_loop fuel w = (Val tt, w') ∧
        registry w' = promoted (registry w) ∧
        assigned_in (take (promoted_count (registry w))
                          (awaiting_queue (registry w))) (heap w) (heap w') ∧
        log w' = log w.
Proof.
  revert w. induction fuel as [|fuel IH]; intros w Hfuel Hall;
    destruct (decide (awaiting_queue (registry w) ≠ []
                      ∧ available_tickets (registry w) > 0)) as [[Hq Hav]|Hc].
  - destruct (awaiting_queue (registry w)); [done | simpl in Hfuel; lia].
  - exists w. rewrite promote_loop_exit, (promoted_count_0 _ Hc) by done.
    rewrite promoted_0 by (by apply promoted_count_0).
    split_and!; [done..| apply assigned_in_nil | done].
  - destruct (awaiting_queue (registry w)) as [|r q] eqn:Eq; [done|].
    apply Forall_cons in Hall as [Hr Hall].
    destruct (lookup_lt_is_Some_2 _ _ Hr) as [p Hp].
    rewrite (promote_loop_iter fuel w r q p Eq Hav Hp).
    set (w1 := set_registry _ _).
    destruct (IH w1) as (w' & Hrun & Hreg & Hheap & Hlog).
    { simpl. simpl in Hfuel. lia. }
    { unfold allocated. simpl. by rewrite length_insert. }
    exists w'. split; [exact Hrun|].
    unfold promoted, promoted_count, available_tickets in *.
    simpl in Hreg, Hheap, Hlog. rewrite length_app in Hreg, Hheap.
    simpl in Hreg, Hheap. rewrite Eq. unfold available_tickets in Hav.
    replace (Z.to_nat (limit (registry w) - Z.of_nat (length (assigned_list (registry w)))))
      with (S (Z.to_nat (limit (registry w)
                         - Z.of_nat (length (assigned_list (registry w)) + 1)))) by lia.
    simpl. split_and!.
    + rewrite Hreg. by rewrite <- app_assoc.
    + by eapply assigned_in_cons.
    + done.
  - exists w. rewrite promote_loop_exit, (promoted_count_0 _ Hc) by done.
    rewrite promoted_0 by (by apply promoted_count_0).
    split_and!; [done..| apply assigned_in_nil | done].
Qed.

Lemma promote_run w :
  allocated w (awaiting_queue (registry w)) →
  ∃ w', promote w = (Val tt, w') ∧
        registry w' = promoted (registry w) ∧
        assigned_in (take (promoted_count (registry w))
                          (awaiting_queue (registry w))) (heap w) (heap w') ∧
        log w' = log w.
Proof.
  intros Hall. unfold promote, bind, get_registry. simpl.
  by apply promote_loop_run.
Qed.

(** ** [add] *)

Lemma add_run_dangling r w :
  heap w !! r = None → add r w = (Raise Dangling, w).
Proof. intros Hp. unfold add. unfold_prims. by rewrite Hp. Qed.

Lemma add_run_duplicate r w p :
  heap w !! r = Some p → id_no p ∈ seen_ids (registry w) →
  add r w = (Val tt, set_log (log w ++ [Info duplicate_msg]) w).
Proof.
  intros Hp Hseen. unfold add. unfold_prims. rewrite Hp.
  by rewrite decide_True.
Qed.

Lemma add_run_direct r w p :
  heap w !! r = Some p → id_no p ∉ seen_ids (registry w) →
  available_tickets (registry w) > 0 →
  add r w =
  (Val tt,
   set_registry
     (mk_Registry (limit (registry w)) (assigned_list (registry w) ++ [r])
                  (awaiting_queue (registry w)) (completed_list (registry w))
                  ({[id_no p]} ∪ seen_ids (registry w)))
     (set_heap (<[r := newcomer w true p]> (heap w))
               (set_clock_reads (newcomer_reads w true p) w))).
Proof.
  intros Hp Hseen Hav. unfold add. unfold_prims. rewrite Hp.
  rewrite decide_False by done. cbn.
  unfold newcomer, newcomer_reads.
  destruct (registered_at p) as [t|] eqn:Hreg; cbn.
  - rewrite decide_True by done. rewrite assign_run. cbn. rewrite Hp. done.
  - rewrite register_run. cbn. rewrite Hp. cbn.
    rewrite decide_True by done. rewrite assign_run. cbn.
    rewrite list_lookup_insert_eq by (by eapply lookup_lt_Some).
    by rewrite list_insert_insert_eq.
Qed.

Lemma add_run_queued r w p :
  heap w !! r = Some p → id_no p ∉ seen_ids (registry w) →
  ¬ available_tickets (registry w) > 0 →
  add r w =
  (Val tt,
   set_registry
     (mk_Registry (limit (registry w)) (assigned_list (registry w))
                  (awaiting_queue (registry w) ++ [r])
                  (completed_list (registry w))
                  ({[id_no p]} ∪ seen_ids (registry w)))
     (set_heap (<[r := newcomer w false p]> (heap w))
               (set_clock_reads (newcomer_reads w false p) w))).
Proof.
  intros Hp Hseen Hav. unfold add. unfold_prims. rewrite Hp.
  rewrite decide_False by done. cbn.
  unfold newcomer, newcomer_reads.
  destruct (registered_at p) as [t|] eqn:Hreg; cbn.
  - rewrite decide_False by done. cbn. rewrite list_insert_id by done.
    by destruct w.
  - rewrite register_run. cbn. rewrite Hp. cbn.
    by rewrite decide_False by done.
Qed.

(** ** [complete] *)

Lemma complete_run_dangling r w :
  heap w !! r = None →
  complete r w = (Raise Dangling, set_clock_reads (S (clock_reads w)) w).
Proof.
  intros Hp. unfold complete. unfold_prims. cbn. rewrite setattr_run.
  cbn. by rewrite Hp.
Qed.

Lemma complete_run_absent r w p :
  heap w !! r = Some p → r ∉ assigned_list (registry w) →
  complete r w =
  (Raise ValueError,
   set_heap (<[r := completed_at_time (clock w (clock_reads w)) p]> (heap w))
            (set_clock_reads (S (clock_reads w)) w)).
Proof.
  intros Hp Hr. unfold complete. unfold_prims. cbn. rewrite setattr_run.
  cbn. rewrite Hp. rewrite setattr_run. cbn.
  rewrite list_lookup_insert_eq by (by eapply lookup_lt_Some). cbn.
  rewrite list_insert_insert_eq. apply list_remove_None in Hr. by rewrite Hr.
Qed.

Lemma complete_run_active r w p l :
  heap w !! r = Some p → list_remove r (assigned_list (registry w)) = Some l →
  complete r w = promote (released r p l w).
Proof.
  intros Hp Hr. unfold complete. unfold_prims. cbn. rewrite setattr_run.
  cbn. rewrite Hp. rewrite setattr_run. cbn.
  rewrite list_lookup_insert_eq by (by eapply lookup_lt_Some). cbn.
  rewrite list_insert_insert_eq. rewrite Hr. cbn.
  rewrite list_lookup_insert_eq by (by eapply lookup_lt_Some).
  done.
Qed.

(** ** The invariant of the registry *)

Ltac split_Forall :=
  repeat first [ rewrite Forall_app in * | rewrite Forall_cons in *
               | rewrite Forall_nil in * ];
  tauto.

Lemma uid_Some w r p : heap w !! r = Some p → uid w r = id_no p.
Proof.
  intros Hp. unfold uid, uid_in, ids. by rewrite list_lookup_fmap, Hp.
Qed.

Lemma uid_in_prefix I I' rs :
  I `prefix_of` I' → Forall (λ r, (r < length I)%nat) rs →
  uid_in I' <$> rs = uid_in I <$> rs.
Proof.
  intros [k ->] Hall. apply Forall_fmap_ext_1.
  eapply Forall_impl; [exact Hall|]. intros r Hr. simpl in Hr.
  unfold uid_in. by rewrite lookup_app_l.
Qed.

Lemma core_prefix lim I I' g :
  I `prefix_of` I' → core lim I g → core lim I' g.
Proof.
  intros Hpre [Hlim Hall Hnd Hseen Hcap].
  assert (uid_in I' <$> live g = uid_in I <$> live g) as Heq.
  { apply uid_in_prefix; [done|]. by apply Forall_app in Hall as [? _]. }
  split; [done | | by rewrite Heq | by rewrite Heq | done].
  eapply Forall_impl; [exact Hall|]. intros r Hr. simpl in *.
  apply prefix_length in Hpre. lia.
Qed.

Lemma core_init lim I : core lim I (Registry_init lim).
Proof.
  split; simpl; [done | by apply Forall_nil | apply NoDup_nil_2 | done | lia].
Qed.

Lemma core_add_direct lim I g r :
  core lim I g → (r < length I)%nat → uid_in I r ∉ seen_ids g →
  available_tickets g > 0 →
  core lim I (mk_Registry (limit g) (assigned_list g ++ [r]) (awaiting_queue g)
                          (completed_list g) ({[uid_in I r]} ∪ seen_ids g)).
Proof.
  intros [Hlim Hall Hnd Hseen Hcap] Hr Hfresh Hav.
  unfold live, available_tickets in *.
  assert (uid_in I <$> (assigned_list g ++ [r]) ++ awaiting_queue g
          ≡ₚ uid_in I r :: (uid_in I <$> assigned_list g ++ awaiting_queue g))
    as Hperm.
  { rewrite !fmap_app. simpl. rewrite <- app_assoc. simpl.
    by rewrite <- Permutation_middle. }
  split; unfold live; simpl.
  - done.
  - split_Forall.
  - rewrite Hperm. apply NoDup_cons. split; [|done].
    rewrite Hseen in Hfresh. by rewrite elem_of_list_to_set in Hfresh.
  - rewrite Hseen. apply set_eq. intros u.
    rewrite elem_of_union, elem_of_singleton, !elem_of_list_to_set, Hperm.
    by rewrite elem_of_cons.
  - rewrite length_app. simpl. lia.
Qed.

Lemma core_add_queued lim I g r :
  core lim I g → (r < length I)%nat → uid_in I r ∉ seen_ids g →
  core lim I (mk_Registry (limit g) (assigned_list g) (awaiting_queue g ++ [r])
                          (completed_list g) ({[uid_in I r]} ∪ seen_ids g)).
Proof.
  intros [Hlim Hall Hnd Hseen Hcap] Hr Hfresh.
  unfold live in *.
  assert (uid_in I <$> assigned_list g ++ awaiting_queue g ++ [r]
          ≡ₚ uid_in I r :: (uid_in I <$> assigned_list g ++ awaiting_queue g))
    as Hperm.
  { rewrite app_assoc, fmap_app. simpl. by rewrite <- Permutation_cons_append. }
  split; unfold live; simpl.
  - done.
  - split_Forall.
  - rewrite Hperm. apply NoDup_cons. split; [|done].
    rewrite Hseen in Hfresh. by rewrite elem_of_list_to_set in Hfresh.
  - rewrite Hseen. apply set_eq. intros u.
    rewrite elem_of_union, elem_of_singleton, !elem_of_list_to_set, Hperm.
    by rewrite elem_of_cons.
  - done.
Qed.

Lemma core_release lim I g r l :
  core lim I g → list_remove r (assigned_list g) = Some l →
  core lim I (mk_Registry (limit g) l (awaiting_queue g)
                          (completed_list g ++ [r])
                          (seen_ids g ∖ {[uid_in I r]})).
Proof.
  intros [Hlim Hall Hnd Hseen Hcap] (l1 & l2 & Hl & Hr & ->)%list_remove_Some.
  unfold live in *. rewrite Hl in *. clear Hl.
  rewrite <- !app_assoc in *. rewrite <- !app_comm_cons in *.
  rewrite fmap_app, fmap_cons in Hnd, Hseen.
  apply NoDup_app in Hnd as (Hnd1 & Hnd12 & Hnd2).
  apply NoDup_cons in Hnd2 as [Hr2 Hnd2].
  split; unfold live; simpl.
  - done.
  - split_Forall.
  - rewrite <- app_assoc, fmap_app. apply NoDup_app. split_and!; [done | | done].
    intros u Hu Hu'. apply (Hnd12 u Hu). by right.
  - rewrite Hseen. apply set_eq. intros u.
    rewrite elem_of_difference, elem_of_singleton, !elem_of_list_to_set.
    rewrite <- app_assoc, (fmap_app _ l1), !elem_of_app, elem_of_cons.
    split.
    + intros [[?|[?|?]] ?]; tauto.
    + intros [Hu|Hu].
      * split; [tauto|]. intros ->. apply (Hnd12 _ Hu). by left.
      * split; [tauto|]. by intros ->.
  - rewrite length_app in *. simpl in Hcap. lia.
Qed.

Lemma promoted_live g : live (promoted g) = live g.
Proof.
  unfold live, promoted. simpl. by rewrite <- app_assoc, take_drop.
Qed.

Lemma core_promoted lim I g : core lim I g → core lim I (promoted g).
Proof.
  intros [Hlim Hall Hnd Hseen Hcap].
  split; rewrite ?promoted_live; try done.
  simpl. rewrite length_app, length_take. unfold promoted_count, available_tickets.
  lia.
Qed.

Lemma settled_promoted g : settled (promoted g).
Proof.
  unfold settled, promoted, promoted_count, available_tickets. simpl.
  intros Hq. rewrite length_app, length_take.
  assert (length (awaiting_queue g)
          `min` Z.to_nat (limit g - Z.of_nat (length (assigned_list g)))
          < length (awaiting_queue g))%nat as Hlt.
  { destruct (decide (length (awaiting_queue g)
        `min` Z.to_nat (limit g - Z.of_nat (length (assigned_list g)))
         < length (awaiting_queue g))%nat) as [|Hge]; [done|].
    rewrite drop_ge in Hq by lia. done. }
  lia.
Qed.

Lemma ids_insert (h : list Person) (r : ref) p p' :
  h !! r = Some p → id_no p' = id_no p →
  id_no <$> <[r := p']> h = id_no <$> h.
Proof.
  intros Hp Hid. rewrite list_fmap_insert, Hid.
  apply list_insert_id. by rewrite list_lookup_fmap, Hp.
Qed.

Lemma assigned_in_ids rs (h h' : list Person) :
  assigned_in rs h h' → id_no <$> h' = id_no <$> h.
Proof.
  intros [Hlen Hrs]. apply list_eq. intros r. rewrite !list_lookup_fmap.
  destruct (Hrs r) as [Hin Hout]. destruct (decide (r ∈ rs)) as [Hr|Hr].
  - destruct (Hin Hr) as (p & t & -> & ->). done.
  - by rewrite (Hout Hr).
Qed.

Lemma inv_promote lim w :
  core lim (ids w) (registry w) → inv lim (after promote w).
Proof.
  intros Hcore. destruct (promote_run w) as (w' & Hrun & Hreg & Hheap & _).
  { destruct Hcore as [_ Hall _ _ _]. unfold live in Hall.
    unfold allocated, ids in *. rewrite length_fmap in Hall. split_Forall. }
  unfold after. rewrite Hrun. simpl. unfold inv, ids.
  rewrite Hreg, (assigned_in_ids _ _ _ Hheap).
  split; [by apply core_promoted | apply settled_promoted].
Qed.

Lemma inv_exec lim w c : inv lim w → inv lim (after (exec c) w).
Proof.
  intros [Hcore Hset]. destruct c as [n s e pt|r|r| |r|a f];
    unfold after; cbn [exec].
  - split; [|done]. eapply core_prefix; [|exact Hcore].
    unfold ids. simpl. rewrite fmap_app. by apply prefix_app_r.
  - destruct (heap w !! r) as [p|] eqn:Hp.
    2:{ by rewrite add_run_dangling. }
    assert (r < length (ids w))%nat as Hr.
    { unfold ids. rewrite length_fmap. by eapply lookup_lt_Some. }
    destruct (decide (id_no p ∈ seen_ids (registry w))) as [Hseen|Hseen].
    { by rewrite (add_run_duplicate r w p). }
    assert (id_no <$> <[r := newcomer w true p]> (heap w) = ids w
            ∧ id_no <$> <[r := newcomer w false p]> (heap w) = ids w) as [Hi1 Hi2].
    { split; apply ids_insert with p; try done;
        unfold newcomer; by destruct (registered_at p). }
    pose proof (uid_Some w r p Hp) as Hu. unfold uid in Hu.
    destruct (decide (available_tickets (registry w) > 0)) as [Hav|Hav].
    + rewrite (add_run_direct r w p) by done.
      simpl. unfold inv, ids. simpl. rewrite Hi1, <- Hu.
      split; [apply core_add_direct; by rewrite ?Hu|].
      unfold settled. simpl. intros Hq. specialize (Hset Hq). lia.
    + rewrite (add_run_queued r w p) by done.
      simpl. unfold inv, ids. simpl. rewrite Hi2, <- Hu.
      split; [apply core_add_queued; by rewrite ?Hu|].
      unfold settled, available_tickets in *. simpl. intros _. lia.
  - destruct (heap w !! r) as [p|] eqn:Hp.
    2:{ by rewrite complete_run_dangling. }
    pose proof (uid_Some w r p Hp) as Hu. unfold uid in Hu.
    destruct (list_remove r (assigned_list (registry w))) as [l|] eqn:Hl.
    + rewrite (complete_run_active r w p l Hp Hl).
      change (promote (released r p l w)).2 with (after promote (released r p l w)).
      apply inv_promote. unfold released, ids. simpl.
      rewrite (ids_insert _ _ p) by done.
      rewrite <- Hu. by apply core_release.
    + apply list_remove_None in Hl.
      rewrite (complete_run_absent r w p Hp Hl). simpl.
      unfold inv, ids. simpl. by rewrite (ids_insert _ _ p).
  - by apply inv_promote.
  - unfold work, bind, get_person.
    destruct (heap w !! r) as [p|] eqn:Hp; [|done].
    rewrite setattr_run, Hp. simpl. unfold inv, ids. simpl.
    by rewrite (ids_insert _ _ p).
  - done.
Qed.

(** ** Reachable states *)

Lemma reachable_inv lim w : reachable lim w → inv lim w.
Proof.
  induction 1 as [clk ent|w c _ IH].
  - split; [apply core_init | by intros ?].
  - by apply inv_exec.
Qed.

Lemma reachable_exec_all lim cs w :
  reachable lim w → reachable lim (exec_all cs w).
Proof.
  revert w. induction cs as [|c cs IH]; intros w Hw; [done|].
  simpl. apply IH. by apply reachable_call.
Qed.

Lemma inv_lookup lim w r :
  inv lim w → r ∈ live (registry w) → ∃ p, heap w !! r = Some p.
Proof.
  intros [[_ Hall _ _ _] _] Hr. apply Forall_app in Hall as [Hall _].
  rewrite Forall_forall in Hall. specialize (Hall r Hr).
  unfold ids in Hall. rewrite length_fmap in Hall.
  by apply lookup_lt_is_Some_2.
Qed.

Lemma scenario_A_reachable : reachable 2 scenario_A.
Proof. apply reachable_exec_all, reachable_init. Qed.

(** ** Capacity, seen identifiers and the queue *)

(** C1. In every state reachable from an empty registry of positive
    capacity (by any sequence of calls), the number of active persons is
    between 0 and the capacity, and [available_tickets], which is the
    capacity minus that number, is never negative. *)
Theorem active_within_capacity lim w :
  0 < lim → reachable lim w →
  0 ≤ Z.of_nat (length (assigned_list (registry w))) ≤ lim ∧
  available_tickets (registry w)
  = lim - Z.of_nat (length (assigned_list (registry w))) ∧
  0 ≤ available_tickets (registry w).
Proof.
  intros Hlim [[Hl _ _ _ Hcap] _]%reachable_inv.
  unfold available_tickets. rewrite Hl. lia.
Qed.

Lemma active_within_capacity_witness :
  0 ≤ Z.of_nat (length (assigned_list (registry scenario_A))) ≤ 2 ∧
  available_tickets (registry scenario_A)
  = 2 - Z.of_nat (length (assigned_list (registry scenario_A))) ∧
  0 ≤ available_tickets (registry scenario_A).
Proof.
  apply (active_within_capacity 2 scenario_A); [lia|].
  apply scenario_A_reachable.
Defined.

(** C2. In every reachable state the seen-identifier set holds exactly the
    identifiers of the active persons and of the waiting persons. *)
Theorem seen_ids_are_live lim w :
  reachable lim w →
  ∀ u : UUID,
    u ∈ seen_ids (registry w) ↔
    (∃ r p, r ∈ assigned_list (registry w) ∧ heap w !! r = Some p ∧ id_no p = u)
    ∨ (∃ r p, r ∈ awaiting_queue (registry w) ∧ heap w !! r = Some p ∧ id_no p = u).
Proof.
  intros Hinv%reachable_inv u.
  pose proof Hinv as [[_ _ _ Hseen _] _].
  rewrite Hseen, elem_of_list_to_set, list_elem_of_fmap.
  unfold live. setoid_rewrite elem_of_app. split.
  - intros (r & -> & Hr).
    destruct (inv_lookup lim w r Hinv) as [p Hp].
    { unfold live. by rewrite elem_of_app. }
    pose proof (uid_Some w r p Hp) as Hu. unfold uid in Hu.
    destruct Hr; [left|right]; by exists r, p.
  - intros [(r & p & Hr & Hp & <-)|(r & p & Hr & Hp & <-)];
      pose proof (uid_Some w r p Hp) as Hu; unfold uid in Hu;
      exists r; rewrite Hu; tauto.
Qed.

Lemma seen_ids_are_live_witness :
  uuid4_of 17 ∈ seen_ids (registry scenario_A) ↔
  (∃ r p, r ∈ assigned_list (registry scenario_A)
          ∧ heap scenario_A !! r = Some p ∧ id_no p = uuid4_of 17)
  ∨ (∃ r p, r ∈ awaiting_queue (registry scenario_A)
            ∧ heap scenario_A !! r = Some p ∧ id_no p = uuid4_of 17).
Proof.
  apply (seen_ids_are_live 2 scenario_A). apply scenario_A_reachable.
Defined.

(** C9. In every reachable state of a registry (of capacity at least 0), a
    non-empty waiting queue means that no ticket is available; hence when
    [add] takes its direct path and appends the newcomer to the active list,
    nobody was waiting. *)
Theorem waiting_means_no_ticket lim w :
  0 ≤ lim → reachable lim w →
  (awaiting_queue (registry w) ≠ [] → available_tickets (registry w) = 0) ∧
  (∀ r, assigned_list (registry (after (add r) w))
        = assigned_list (registry w) ++ [r] →
        awaiting_queue (registry w) = []).
Proof.
  intros Hlim [[Hl _ _ _ Hcap] Hset]%reachable_inv.
  assert (awaiting_queue (registry w) ≠ [] → available_tickets (registry w) = 0)
    as Hwait.
  { intros Hq. specialize (Hset Hq). unfold available_tickets in *. lia. }
  split; [done|]. intros r Hadd.
  destruct (awaiting_queue (registry w)) as [|q qs] eqn:Hq; [done|].
  exfalso. specialize (Hwait ltac:(done)).
  assert (assigned_list (registry (after (add r) w)) = assigned_list (registry w))
    as Hsame.
  { unfold after. destruct (heap w !! r) as [p|] eqn:Hp.
    - destruct (decide (id_no p ∈ seen_ids (registry w))).
      + by rewrite (add_run_duplicate r w p).
      + rewrite (add_run_queued r w p) by (done || lia). done.
    - by rewrite add_run_dangling. }
  rewrite Hsame in Hadd. apply (f_equal length) in Hadd.
  rewrite length_app in Hadd. simpl in Hadd. lia.
Qed.

Lemma waiting_means_no_ticket_witness :
  (awaiting_queue (registry scenario_A) ≠ []
   → available_tickets (registry scenario_A) = 0) ∧
  (∀ r, assigned_list (registry (after (add r) scenario_A))
        = assigned_list (registry scenario_A) ++ [r] →
        awaiting_queue (registry scenario_A) = []).
Proof.
  apply (waiting_means_no_ticket 2 scenario_A); [lia|].
  apply scenario_A_reachable.
Defined.

(** ** Rejections and failures *)

(** C5. [complete] on a person that is not in the active list does not
    return: it raises [ValueError].  The rejection of a duplicate by [add] is
    a normal return, so the two outcomes differ. *)
Theorem complete_absent_raises w r p :
  heap w !! r = Some p → r ∉ assigned_list (registry w) →
  (complete r w).1 = Raise ValueError ∧
  (complete r w).1 ≠ Val tt ∧
  ∀ w' r' p', heap w' !! r' = Some p' → id_no p' ∈ seen_ids (registry w') →
              (add r' w').1 = Val tt ∧ (add r' w').1 ≠ (complete r w).1.
Proof.
  intros Hp Hr. rewrite (complete_run_absent r w p Hp Hr). simpl.
  split_and!; [done..|]. intros w' r' p' Hp' Hseen.
  by rewrite (add_run_duplicate r' w' p' Hp' Hseen).
Qed.

Lemma complete_absent_raises_witness :
  (complete 2%nat scenario_A).1 = Raise ValueError ∧
  (complete 2%nat scenario_A).1 ≠ Val tt ∧
  ∀ w' r' p', heap w' !! r' = Some p' → id_no p' ∈ seen_ids (registry w') →
              (add r' w').1 = Val tt
              ∧ (add r' w').1 ≠ (complete 2%nat scenario_A).1.
Proof.
  eapply (complete_absent_raises scenario_A 2%nat).
  - vm_compute. reflexivity.
  - vm_compute. intros H. inversion H as [|? ? ? H1]; subst.
    inversion H1 as [|? ? ? H2]; subst. inversion H2.
Defined.

(** C6. [add] of a person whose identifier is in the seen set returns
    normally, logs the rejection, and changes nothing else: the registry
    (active list, waiting queue, completed list, seen set) and every person
    are as before. *)
Theorem add_duplicate_rejected w r p :
  heap w !! r = Some p → id_no p ∈ seen_ids (registry w) →
  (add r w).1 = Val tt ∧
  log (after (add r) w) = log w ++ [Info duplicate_msg] ∧
  assigned_list (registry (after (add r) w)) = assigned_list (registry w) ∧
  awaiting_queue (registry (after (add r) w)) = awaiting_queue (registry w) ∧
  completed_list (registry (after (add r) w)) = completed_list (registry w) ∧
  seen_ids (registry (after (add r) w)) = seen_ids (registry w) ∧
  heap (after (add r) w) = heap w.
Proof.
  intros Hp Hseen. unfold after. by rewrite (add_run_duplicate r w p Hp Hseen).
Qed.

Lemma add_duplicate_rejected_witness :
  (add 2%nat scenario_A).1 = Val tt ∧
  log (after (add 2%nat) scenario_A) = log scenario_A ++ [Info duplicate_msg] ∧
  assigned_list (registry (after (add 2%nat) scenario_A))
  = assigned_list (registry scenario_A) ∧
  awaiting_queue (registry (after (add 2%nat) scenario_A))
  = awaiting_queue (registry scenario_A) ∧
  completed_list (registry (after (add 2%nat) scenario_A))
  = completed_list (registry scenario_A) ∧
  seen_ids (registry (after (add 2%nat) scenario_A))
  = seen_ids (registry scenario_A) ∧
  heap (after (add 2%nat) scenario_A) = heap scenario_A.
Proof.
  eapply (add_duplicate_rejected scenario_A 2%nat).
  - vm_compute. reflexivity.
  - vm_compute. reflexivity.
Defined.

(** C10. The failure of [complete] on a person outside the active list is
    not atomic: when [ValueError] is raised the person already has status
    [COMPLETED] and its [completed_at] set, while the registry (active list,
    waiting queue, completed list, seen set) is as before; so a person in the
    waiting queue stays queued with status [COMPLETED]. *)
Theorem complete_absent_marks_person w r p :
  heap w !! r = Some p → r ∉ assigned_list (registry w) →
  (complete r w).1 = Raise ValueError ∧
  heap (after (complete r) w)
  = <[r := set_status COMPLETED
             (set_completed_at (Some (clock w (clock_reads w))) p)]> (heap w) ∧
  registry (after (complete r) w) = registry w ∧
  (r ∈ awaiting_queue (registry w) →
   r ∈ awaiting_queue (registry (after (complete r) w)) ∧
   ∃ p', heap (after (complete r) w) !! r = Some p' ∧ status p' = COMPLETED
         ∧ completed_at p' = Some (clock w (clock_reads w))).
Proof.
  intros Hp Hr. unfold after. rewrite (complete_run_absent r w p Hp Hr). simpl.
  split_and!; [done..|]. intros Hq. split; [done|].
  exists (completed_at_time (clock w (clock_reads w)) p). split; [|done].
  apply list_lookup_insert_eq. by eapply lookup_lt_Some.
Qed.

Lemma complete_absent_marks_person_witness :
  2%nat ∈ awaiting_queue (registry scenario_A) ∧
  (complete 2%nat scenario_A).1 = Raise ValueError ∧
  registry (after (complete 2%nat) scenario_A) = registry scenario_A ∧
  2%nat ∈ awaiting_queue (registry (after (complete 2%nat) scenario_A)) ∧
  ∃ p', heap (after (complete 2%nat) scenario_A) !! 2%nat = Some p'
        ∧ status p' = COMPLETED
        ∧ completed_at p' = Some (clock scenario_A (clock_reads scenario_A)).
Proof.
  assert (2%nat ∈ awaiting_queue (registry scenario_A)) as Hq.
  { vm_compute. left. }
  destruct (complete_absent_marks_person scenario_A 2%nat
              (mk_Person "Grace" "Hopper" "Grace.Hopper@gmail.com" 1 None
                         (Some (clock0 4)) None WAITING (uuid4_of 17)))
    as (H1 & _ & H3 & H4).
  - vm_compute. reflexivity.
  - vm_compute. intros H. inversion H as [|? ? ? Ha]; subst.
    inversion Ha as [|? ? ? Hb]; subst. inversion Hb.
  - destruct (H4 Hq) as [H5 H6]. split_and!; done.
Defined.

(** ** [complete] on an active person *)

Lemma elem_of_take_1 {A} (x : A) n (l : list A) : x ∈ take n l → x ∈ l.
Proof. intros H. rewrite <- (take_drop n l). apply elem_of_app. by left. Qed.

Lemma inv_live_NoDup lim w : inv lim w → NoDup (live (registry w)).
Proof. intros [[_ _ Hnd _ _] _]. by apply NoDup_fmap_1 in Hnd. Qed.

Lemma complete_run_inv lim w r :
  inv lim w → r ∈ assigned_list (registry w) →
  ∃ p l w',
    heap w !! r = Some p ∧
    list_remove r (assigned_list (registry w)) = Some l ∧
    (r ∉ l) ∧ (r ∉ awaiting_queue (registry w)) ∧
    complete r w = (Val tt, w') ∧
    registry w' = promoted (registry (released r p l w)) ∧
    assigned_in (take (promoted_count (registry (released r p l w)))
                      (awaiting_queue (registry w)))
                (heap (released r p l w)) (heap w') ∧
    log w' = log w.
Proof.
  intros Hinv Hr.
  destruct (inv_lookup lim w r Hinv) as [p Hp].
  { unfold live. rewrite elem_of_app. by left. }
  destruct (list_remove_is_Some r _ Hr) as [l Hl].
  pose proof (inv_live_NoDup lim w Hinv) as Hnd. unfold live in Hnd.
  pose proof Hl as (l1 & l2 & Hasg & Hr1 & ->)%list_remove_Some.
  rewrite Hasg in Hnd. rewrite <- app_assoc in Hnd.
  apply NoDup_app in Hnd as (_ & _ & Hnd).
  rewrite <- app_comm_cons in Hnd.
  apply NoDup_cons in Hnd as [Hr2 _]. rewrite elem_of_app in Hr2.
  destruct Hinv as [Hcore _].
  pose proof (uid_Some w r p Hp) as Hu. unfold uid in Hu.
  assert (core lim (ids (released r p (l1 ++ l2) w))
               (registry (released r p (l1 ++ l2) w))) as Hcore'.
  { unfold released, ids. simpl. rewrite (ids_insert _ _ p) by done.
    rewrite <- Hu. by apply core_release. }
  destruct (promote_run (released r p (l1 ++ l2) w))
    as (w' & Hrun & Hreg & Hheap & Hlog).
  { destruct Hcore' as [_ Hall _ _ _]. unfold live in Hall.
    unfold allocated, ids in *. rewrite length_fmap in Hall. split_Forall. }
  exists p, (l1 ++ l2), w'. split_and!; try done.
  - rewrite elem_of_app. tauto.
  - tauto.
  - by rewrite (complete_run_active r w p (l1 ++ l2) Hp Hl).
Qed.

(** C4. [complete] on an active person of a reachable state returns; the
    person then has status [COMPLETED] and its [completed_at] set, its
    identifier has left the seen set, it is the last entry of the completed
    list and no longer in the active list; [promote] has run on the result, so
    the first [k] waiting persons follow the remaining active ones, [k] being
    the smaller of the queue's length and the tickets then free.  When the
    active list was full and somebody waits, exactly the head of the queue is
    promoted. *)
Theorem complete_releases_and_promotes lim w r :
  reachable lim w → r ∈ assigned_list (registry w) →
  ∃ p l w',
    heap w !! r = Some p ∧
    list_remove r (assigned_list (registry w)) = Some l ∧
    complete r w = (Val tt, w') ∧
    heap w' !! r
    = Some (set_status COMPLETED
              (set_completed_at (Some (clock w (clock_reads w))) p)) ∧
    seen_ids (registry w') = seen_ids (registry w) ∖ {[id_no p]} ∧
    (id_no p ∉ seen_ids (registry w')) ∧
    completed_list (registry w') = completed_list (registry w) ++ [r] ∧
    (r ∉ assigned_list (registry w')) ∧
    (let k := (length (awaiting_queue (registry w))
               `min` Z.to_nat (lim - Z.of_nat (length l)))%nat in
     assigned_list (registry w') = l ++ take k (awaiting_queue (registry w)) ∧
     awaiting_queue (registry w') = drop k (awaiting_queue (registry w))) ∧
    (∀ q qs, Z.of_nat (length (assigned_list (registry w))) = lim →
             awaiting_queue (registry w) = q :: qs →
             assigned_list (registry w') = l ++ [q] ∧
             awaiting_queue (registry w') = qs ∧
             ∃ pq t, heap w !! q = Some pq ∧
                     heap w' !! q
                     = Some (set_status ASSIGNED (set_assigned_at (Some t) pq))).
Proof.
  intros Hinv%reachable_inv Hr.
  destruct (complete_run_inv lim w r Hinv Hr)
    as (p & l & w' & Hp & Hl & Hrl & Hrq & Hrun & Hreg & Hheap & _).
  pose proof Hinv as [[Hlim _ _ _ _] _].
  exists p, l, w'. rewrite Hreg.
  unfold promoted, promoted_count, available_tickets in *.
  simpl in *. rewrite Hlim in *.
  destruct Hheap as [_ Hheap].
  split_and!; try done.
  - destruct (Hheap r) as [_ ->].
    + apply list_lookup_insert_eq. by eapply lookup_lt_Some.
    + intros Hin%elem_of_take_1. tauto.
  - rewrite elem_of_difference, elem_of_singleton. tauto.
  - rewrite elem_of_app. intros [?|Hin%elem_of_take_1]; tauto.
  - intros q qs Hfull Hq. rewrite Hq in Hheap, Hrq |- *.
    apply list_remove_length in Hl.
    assert ((length (q :: qs) `min` Z.to_nat (lim - Z.of_nat (length l)))%nat
            = 1%nat) as Hk by (rewrite length_cons; lia).
    rewrite Hk in Hheap |- *. simpl. rewrite drop_0.
    split_and!; [done..|].
    destruct (Hheap q) as [(pq & t & Hpq & Hq') _]; [left|].
    exists pq, t. split; [|done].
    rewrite list_lookup_insert_ne in Hpq; [done|].
    intros ->. apply Hrq. left.
Qed.

(** Scenario A: capacity 2, active [E1; E2], waiting [E3]; completing E1
    leaves active [E2; E3] and nobody waiting. *)
Lemma complete_releases_and_promotes_witness :
  assigned_list (registry scenario_A) = [0; 1]%nat ∧
  awaiting_queue (registry scenario_A) = [2%nat] ∧
  ∃ w', complete 0%nat scenario_A = (Val tt, w') ∧
        assigned_list (registry w') = [1; 2]%nat ∧
        awaiting_queue (registry w') = [] ∧
        completed_list (registry w') = [0%nat].
Proof.
  split; [vm_compute; reflexivity|]. split; [vm_compute; reflexivity|].
  destruct (complete_releases_and_promotes 2 scenario_A 0%nat)
    as (p & l & w' & _ & Hl & Hrun & _ & _ & _ & Hc & _ & _ & Hfull).
  - apply scenario_A_reachable.
  - vm_compute. left.
  - exists w'. split; [exact Hrun|].
    destruct (Hfull 2%nat []) as (Ha & Hq & _);
      [vm_compute; reflexivity | vm_compute; reflexivity |].
    vm_compute in Hl. injection Hl as <-.
    split; [exact Ha|]. split; [exact Hq|].
    rewrite Hc. vm_compute. reflexivity.
Defined.

(** ** First in, first out *)

(** Every call leaves the queue as it was up to a prefix moved, in order, to
    the end of the active list, and a suffix appended. *)
Lemma exec_queue_shape lim w c :
  inv lim w →
  ∃ k l tl,
    awaiting_queue (registry (after (exec c) w))
    = drop k (awaiting_queue (registry w)) ++ tl ∧
    assigned_list (registry (after (exec c) w))
    = l ++ take k (awaiting_queue (registry w)).
Proof.
  intros Hinv.
  assert (∀ w', registry w' = registry w →
    ∃ k l tl,
      awaiting_queue (registry w') = drop k (awaiting_queue (registry w)) ++ tl ∧
      assigned_list (registry w') = l ++ take k (awaiting_queue (registry w)))
    as Hsame.
  { intros w' ->. exists 0%nat, (assigned_list (registry w)), [].
    by rewrite drop_0, take_0, !app_nil_r. }
  destruct c as [n s e pt|r|r| |r|a f]; unfold after; cbn [exec].
  - by apply Hsame.
  - destruct (heap w !! r) as [p|] eqn:Hp.
    2:{ rewrite add_run_dangling by done. by apply Hsame. }
    destruct (decide (id_no p ∈ seen_ids (registry w))) as [Hseen|Hseen].
    { rewrite (add_run_duplicate r w p) by done. by apply Hsame. }
    destruct (decide (available_tickets (registry w) > 0)) as [Hav|Hav].
    + rewrite (add_run_direct r w p) by done. simpl.
      exists 0%nat, (assigned_list (registry w) ++ [r]), [].
      by rewrite drop_0, take_0, !app_nil_r.
    + rewrite (add_run_queued r w p) by done. simpl.
      exists 0%nat, (assigned_list (registry w)), [r].
      by rewrite drop_0, take_0, !app_nil_r.
  - destruct (heap w !! r) as [p|] eqn:Hp.
    2:{ rewrite complete_run_dangling by done. by apply Hsame. }
    destruct (decide (r ∈ assigned_list (registry w))) as [Hr|Hr].
    + destruct (complete_run_inv lim w r Hinv Hr)
        as (p' & l & w' & _ & _ & _ & _ & -> & Hreg & _).
      simpl. rewrite Hreg. simpl.
      exists (promoted_count (registry (released r p' l w))), l, [].
      by rewrite app_nil_r.
    + rewrite (complete_run_absent r w p) by done. by apply Hsame.
  - destruct (promote_run w) as (w' & -> & Hreg & _).
    { destruct Hinv as [[_ Hall _ _ _] _]. unfold live in Hall.
      unfold allocated, ids in *. rewrite length_fmap in Hall. split_Forall. }
    simpl. rewrite Hreg. simpl. exists (promoted_count (registry w)), (assigned_list (registry w)), [].
    by rewrite app_nil_r.
  - unfold work, bind, get_person.
    destruct (heap w !! r) as [p|] eqn:Hp; [|by apply Hsame].
    rewrite setattr_run, Hp. by apply Hsame.
  - by apply Hsame.
Qed.

Lemma precedes_step A B aw k l tl :
  precedes A B aw →
  precedes A B (drop k aw ++ tl)
  ∨ (A ∈ l ++ take k aw
     ∧ (B ∈ drop k aw ++ tl ∨ precedes A B (l ++ take k aw))).
Proof.
  intros (l1 & l2 & l3 & ->).
  destruct (decide (k ≤ length l1)%nat) as [Hk1|Hk1].
  { left. exists (drop k l1), l2, (l3 ++ tl).
    rewrite drop_app_le by done. rewrite <- !app_assoc. simpl.
    by rewrite <- app_assoc. }
  right.
  assert (take k (l1 ++ A :: l2 ++ B :: l3)
          = l1 ++ take (k - length l1) (A :: l2 ++ B :: l3)) as Ht
    by (apply take_app_ge; lia).
  assert (drop k (l1 ++ A :: l2 ++ B :: l3)
          = drop (k - length l1) (A :: l2 ++ B :: l3)) as Hd
    by (apply drop_app_ge; lia).
  rewrite Ht, Hd.
  destruct (k - length l1)%nat as [|k1] eqn:Hk; [lia|]. simpl.
  split.
  { rewrite !elem_of_app, elem_of_cons. tauto. }
  destruct (decide (k1 ≤ length l2)%nat) as [Hk2|Hk2].
  - left. rewrite drop_app_le by done. rewrite !elem_of_app, elem_of_cons. tauto.
  - right. rewrite take_app_ge by lia.
    destruct (k1 - length l2)%nat as [|k2] eqn:Hk'; [lia|]. simpl.
    exists (l ++ l1), l2, (take k2 l3). by rewrite <- app_assoc.
Qed.

Lemma fifo_history lim w A B cs :
  inv lim w →
  precedes A B (awaiting_queue (registry w)) →
  B ∉ awaiting_queue (registry (exec_all cs w)) →
  ∃ cs1 c cs2,
    cs = cs1 ++ c :: cs2 ∧
    precedes A B (awaiting_queue (registry (exec_all cs1 w))) ∧
    A ∈ assigned_list (registry (exec_all (cs1 ++ [c]) w)) ∧
    (A ∉ awaiting_queue (registry (exec_all (cs1 ++ [c]) w))) ∧
    (B ∈ awaiting_queue (registry (exec_all (cs1 ++ [c]) w))
     ∨ precedes A B (assigned_list (registry (exec_all (cs1 ++ [c]) w)))).
Proof.
  revert w. induction cs as [|c cs IH]; intros w Hinv Hpre HB.
  - exfalso. apply HB. destruct Hpre as (l1 & l2 & l3 & Heq). simpl.
    rewrite Heq, elem_of_app, elem_of_cons, elem_of_app, elem_of_cons. tauto.
  - destruct (exec_queue_shape lim w c Hinv) as (k & l & tl & Hq & Ha).
    destruct (precedes_step A B _ k l tl Hpre) as [Hpre'|[HA HB']].
    + rewrite <- Hq in Hpre'.
      destruct (IH (after (exec c) w)) as (cs1 & c' & cs2 & -> & H1 & H2 & H3 & H4);
        [by apply inv_exec | done | done |].
      by exists (c :: cs1), c', cs2.
    + rewrite <- Ha in HA. rewrite <- Hq, <- Ha in HB'.
      exists [], c, cs. split_and!; try done.
      pose proof (inv_live_NoDup lim _ (inv_exec lim w c Hinv)) as Hnd.
      unfold live in Hnd. apply NoDup_app in Hnd as (_ & Hnd & _).
      by apply Hnd.
Qed.

(** ** The first half of a tick *)

Lemma work_run r w :
  work r w =
  match heap w !! r with
  | Some p => (Val tt, set_heap (<[r := decremented p]> (heap w)) w)
  | None => (Raise Dangling, w)
  end.
Proof.
  unfold work, bind, get_person. destruct (heap w !! r) as [p|] eqn:Hp; [|done].
  by rewrite setattr_run, Hp.
Qed.

(** The decrements: one per member of a duplicate-free list. *)
Lemma for_each_work_run l w :
  NoDup l → allocated w l →
  ∃ h', for_each l work w = (Val tt, set_heap h' w) ∧
        length h' = length (heap w) ∧
        id_no <$> h' = id_no <$> heap w ∧
        ∀ r, (r ∈ l → h' !! r = decremented <$> heap w !! r) ∧
             (r ∉ l → h' !! r = heap w !! r).
Proof.
  revert w. induction l as [|r l IH]; intros w Hnd Hall.
  - exists (heap w). split_and!; [by destruct w | done..|].
    intros r. split; [by intros ?%elem_of_nil | done].
  - apply NoDup_cons in Hnd as [Hr Hnd]. apply Forall_cons in Hall as [Hlt Hall].
    destruct (lookup_lt_is_Some_2 _ _ Hlt) as [p Hp].
    destruct (IH (set_heap (<[r := decremented p]> (heap w)) w) Hnd)
      as (h' & Hrun & Hlen & Hids & Hh').
    { unfold allocated. simpl. by rewrite length_insert. }
    exists h'. simpl in *. split_and!.
    + unfold bind. rewrite work_run, Hp. rewrite Hrun. done.
    + by rewrite Hlen, length_insert.
    + rewrite Hids. by apply ids_insert with p.
    + intros r'. destruct (Hh' r') as [Hin Hout]. split.
      * intros [->|Hr']%elem_of_cons.
        -- rewrite (Hout Hr), Hp. simpl.
           apply list_lookup_insert_eq. by eapply lookup_lt_Some.
        -- rewrite (Hin Hr'). rewrite list_lookup_insert_ne; [done|].
           intros ->. done.
      * intros [Hne Hr']%not_elem_of_cons. rewrite (Hout Hr').
        by apply list_lookup_insert_ne.
Qed.

(** The list comprehension reads the heap and changes nothing. *)
Lemma select_finished_run l w :
  allocated w l →
  select_finished l w = (Val (filter (λ r, finished_now (heap w) r) l), w).
Proof.
  induction l as [|r l IH]; intros Hall; [done|].
  apply Forall_cons in Hall as [Hlt Hall].
  destruct (lookup_lt_is_Some_2 _ _ Hlt) as [p Hp].
  simpl. unfold bind, get_person. rewrite Hp, (IH Hall). unfold ret.
  destruct (decide (processing_time p ≤ 0)) as [Hle|Hle].
  - rewrite filter_cons_True; [done|].
    unfold finished_now. rewrite Hp. by apply bool_decide_pack.
  - rewrite filter_cons_False; [done|].
    unfold finished_now. rewrite Hp. by intros ?%bool_decide_unpack.
Qed.

(** [complete] never writes [processing_time]. *)
Lemma complete_run_time lim w r :
  inv lim w → r ∈ assigned_list (registry w) →
  ∃ l1 l2 k w',
    complete r w = (Val tt, w') ∧
    assigned_list (registry w) = l1 ++ r :: l2 ∧
    assigned_list (registry w')
    = (l1 ++ l2) ++ take k (awaiting_queue (registry w)) ∧
    completed_list (registry w') = completed_list (registry w) ++ [r] ∧
    ∀ r', processing_time <$> heap w' !! r' = processing_time <$> heap w !! r'.
Proof.
  intros Hinv Hr.
  destruct (complete_run_inv lim w r Hinv Hr)
    as (p & l & w' & Hp & Hl & _ & _ & Hrun & Hreg & [_ Hheap] & _).
  apply list_remove_Some in Hl as (l1 & l2 & Hasg & _ & ->).
  exists l1, l2, (promoted_count (registry (released r p (l1 ++ l2) w))), w'.
  rewrite Hreg. simpl. split_and!; [done..|].
  intros r'. simpl in Hheap. destruct (Hheap r') as [Hin Hout].
  assert (processing_time <$>
            <[r := completed_at_time (clock w (clock_reads w)) p]> (heap w) !! r'
          = processing_time <$> heap w !! r') as Hrel.
  { destruct (decide (r' = r)) as [->|Hne].
    - rewrite list_lookup_insert_eq by (by eapply lookup_lt_Some). by rewrite Hp.
    - by rewrite list_lookup_insert_ne. }
  rewrite <- Hrel.
  destruct (decide (r' ∈ take
      (promoted_count (registry (released r p (l1 ++ l2) w)))
      (awaiting_queue (registry w)))) as [Hd|Hd].
  - destruct (Hin Hd) as (p' & t & -> & ->). done.
  - by rewrite (Hout Hd).
Qed.

(** The completions of a tick: every one returns, and together they are the
    calls [complete] on the finished persons, in order. *)
Lemma for_each_complete_run lim fin w :
  inv lim w → NoDup fin → fin ⊆ assigned_list (registry w) →
  ∃ w', for_each fin complete w = (Val tt, w') ∧
        w' = exec_all (CComplete <$> fin) w ∧
        completed_list (registry w') = completed_list (registry w) ++ fin ∧
        ∀ r, processing_time <$> heap w' !! r = processing_time <$> heap w !! r.
Proof.
  revert w. induction fin as [|r fin IH]; intros w Hinv Hnd Hsub.
  - exists w. by rewrite app_nil_r.
  - apply NoDup_cons in Hnd as [Hr Hnd].
    destruct (complete_run_time lim w r Hinv)
      as (l1 & l2 & k & w1 & Hrun & Hasg & Hasg1 & Hcmp & Hpt).
    { apply Hsub. left. }
    assert (w1 = after (exec (CComplete r)) w) as Hw1.
    { unfold after. simpl. by rewrite Hrun. }
    destruct (IH w1) as (w' & Hrun' & Hw' & Hcmp' & Hpt'); [|done| |].
    { rewrite Hw1. by apply inv_exec. }
    { intros r' Hr'. rewrite Hasg1. rewrite !elem_of_app.
      assert (r' ∈ assigned_list (registry w)) as Hin by (apply Hsub; by right).
      rewrite Hasg in Hin. rewrite elem_of_app, elem_of_cons in Hin.
      destruct Hin as [?|[->|?]]; tauto. }
    exists w'. split_and!.
    + simpl. unfold bind. by rewrite Hrun.
    + rewrite Hw', Hw1. reflexivity.
    + rewrite Hcmp', Hcmp. by rewrite <- app_assoc.
    + intros r'. by rewrite Hpt', Hpt.
Qed.

Lemma for_each_exec_all {A} (C : A → Call) (f : A → M unit) l w w' :
  (∀ x, exec (C x) = f x) →
  for_each l f w = (Val tt, w') → w' = exec_all (C <$> l) w.
Proof.
  intros HC. revert w. induction l as [|x l IH]; intros w Hrun.
  - by injection Hrun as <-.
  - simpl in Hrun. unfold bind in Hrun.
    destruct (f x w) as [[[]|e] w1] eqn:Hx; [|done].
    simpl. unfold after. rewrite HC, Hx. by apply IH.
Qed.

(** ** The reader inverts the writer *)

Lemma special_false c :
  special c = false → c ≠ comma ∧ c ≠ dquote ∧ c ≠ CR ∧ c ≠ LF.
Proof.
  unfold special. intros H%bool_decide_eq_false. tauto.
Qed.

Lemma existsb_special_false s :
  existsb special s = false → Forall (λ c, special c = false) s.
Proof.
  induction s as [|c s IH]; simpl; [by constructor|].
  intros [Hc Hs]%orb_false_elim. constructor; [done | by apply IH].
Qed.

Ltac decide_chars :=
  repeat first [ rewrite decide_True by done
               | rewrite decide_False by done ].

Lemma csv_read_in_field s acc fs rest :
  Forall (λ c, special c = false) s →
  csv_read (mk_Reader IN_FIELD acc fs) (s ++ rest)
  = csv_read (mk_Reader IN_FIELD (acc ++ s) fs) rest.
Proof.
  revert acc. induction s as [|c s IH]; intros acc Hs; simpl.
  - by rewrite app_nil_r.
  - apply Forall_cons in Hs as [(? & ? & ? & ?)%special_false Hs].
    unfold reader_step. simpl. decide_chars.
    rewrite IH by done. by rewrite <- app_assoc.
Qed.

Lemma csv_read_in_quoted s acc fs rest :
  csv_read (mk_Reader IN_QUOTED_FIELD acc fs) (csv_escape s ++ rest)
  = csv_read (mk_Reader IN_QUOTED_FIELD (acc ++ s) fs) rest.
Proof.
  revert acc. induction s as [|c s IH]; intros acc; simpl.
  - by rewrite app_nil_r.
  - destruct (decide (c = dquote)) as [->|Hc]; simpl.
    + unfold reader_step. simpl. decide_chars. simpl. decide_chars.
      rewrite IH. by rewrite <- app_assoc.
    + unfold reader_step. simpl. decide_chars.
      rewrite IH. by rewrite <- app_assoc.
Qed.

Lemma after_field_comma f fs rd rest :
  after_field f fs rd →
  csv_read rd (comma :: rest) = csv_read (mk_Reader START_FIELD [] (fs ++ [f])) rest.
Proof.
  destruct rd as [st fl fs']. intros [Hfs Hst]. simpl in *. subst fs'.
  destruct Hst as [(-> & -> & ->)|[(-> & ->)|(-> & ->)]];
    unfold reader_step; simpl; by decide_chars.
Qed.

Lemma after_field_crlf f fs rd rest :
  after_field f fs rd →
  csv_read rd (CR :: LF :: rest)
  = (fs ++ [f]) :: csv_read (mk_Reader START_RECORD [] []) rest.
Proof.
  destruct rd as [st fl fs']. intros [Hfs Hst]. simpl in *. subst fs'.
  destruct Hst as [(-> & -> & ->)|[(-> & ->)|(-> & ->)]];
    unfold reader_step; simpl; by decide_chars.
Qed.

(** Reading a written field from the start of a field.  At the start of a
    record an empty unquoted field is not seen before a line end, which is
    why [csv_row] quotes it. *)
Lemma csv_read_field st fs f rest :
  st = START_FIELD ∨ (st = START_RECORD ∧ f ≠ []) ∨ (st = START_RECORD ∧ rest ≠ []
                                                      ∧ ∀ c r, rest = c :: r → c ≠ CR ∧ c ≠ LF) →
  ∃ rd, after_field f fs rd ∧
        csv_read (mk_Reader st [] fs) (csv_field f ++ rest) = csv_read rd rest.
Proof.
  intros Hst. unfold csv_field.
  destruct (existsb special f) eqn:Hsp.
  - exists (mk_Reader QUOTE_IN_QUOTED_FIELD f fs). split.
    { split; [done|]. right. by right. }
    assert (st = START_FIELD ∨ st = START_RECORD) as [->| ->] by tauto;
      unfold csv_quote; simpl; unfold reader_step; simpl; decide_chars;
      rewrite <- app_assoc; rewrite csv_read_in_quoted; simpl;
      unfold reader_step; simpl; by decide_chars.
  - apply existsb_special_false in Hsp. destruct f as [|c f].
    + destruct Hst as [->|[[_ ?]|(-> & Hrest & Hc)]]; [|done|].
      * exists (mk_Reader START_FIELD [] fs). split; [|done].
        split; [done|]. by left.
      * exists (mk_Reader START_FIELD [] fs). split.
        { split; [done|]. by left. }
        destruct rest as [|c r]; [done|]. destruct (Hc c r eq_refl) as [? ?].
        simpl. unfold reader_step. simpl. by decide_chars.
    + exists (mk_Reader IN_FIELD (c :: f) fs). split.
      { split; [done|]. right. by left. }
      apply Forall_cons in Hsp as [(? & ? & ? & ?)%special_false Hsp].
      assert (st = START_FIELD ∨ st = START_RECORD) as [->| ->] by tauto;
        simpl; unfold reader_step; simpl; decide_chars;
        by rewrite csv_read_in_field.
Qed.

Lemma csv_read_join fs' f st fs rest :
  st = START_FIELD ∨ (st = START_RECORD ∧ f :: fs' ≠ [[]]) →
  csv_read (mk_Reader st [] fs) (csv_join (f :: fs') ++ CR :: LF :: rest)
  = (fs ++ f :: fs') :: csv_read (mk_Reader START_RECORD [] []) rest.
Proof.
  revert f st fs. induction fs' as [|g fs' IH]; intros f st fs Hst.
  - simpl.
    destruct (csv_read_field st fs f (CR :: LF :: rest)) as (rd & Hrd & ->).
    { destruct Hst as [?|[? Hf]]; [by left|]. right. left. split; [done|].
      by intros ->. }
    by apply after_field_crlf.
  - change (csv_join (f :: g :: fs'))
      with (csv_field f ++ comma :: csv_join (g :: fs')).
    rewrite <- app_assoc, <- app_comm_cons.
    destruct (csv_read_field st fs f
                (comma :: csv_join (g :: fs') ++ CR :: LF :: rest))
      as (rd & Hrd & ->).
    { destruct Hst as [?|[? _]]; [by left|]. right. right.
      split_and!; [done..|]. by intros c r [= <- _]. }
    rewrite (after_field_comma f fs rd _ Hrd).
    rewrite IH by (by left). by rewrite <- app_assoc.
Qed.

Lemma csv_read_row fs rest :
  csv_read (mk_Reader START_RECORD [] []) (csv_row fs ++ rest)
  = fs :: csv_read (mk_Reader START_RECORD [] []) rest.
Proof.
  destruct fs as [|f fs]; [done|].
  destruct (decide (f :: fs = [[]])) as [[= -> ->]|Hne]; [done|].
  assert (csv_row (f :: fs) = csv_join (f :: fs) ++ [CR; LF]) as ->.
  { unfold csv_row. destruct f; [|done]. by destruct fs. }
  rewrite <- app_assoc. simpl ([CR; LF] ++ rest).
  rewrite csv_read_join by (right; done). done.
Qed.

(** The reader gives back the rows the writer was given. *)
Lemma csv_reader_rows rows :
  csv_reader (concat (csv_row <$> rows)) = rows.
Proof.
  unfold csv_reader. induction rows as [|fs rows IH]; [done|].
  rewrite fmap_cons. simpl concat. by rewrite csv_read_row, IH.
Qed.

(** ** Numbers, identifiers and timestamps are read back *)

Lemma digit_char_alphabet d : digit_char d ∈ alphabet.
Proof.
  unfold digit_char. fold alphabet.
  destruct (decide (N.to_nat d < length alphabet)%nat) as [Hlt|Hge].
  - apply list_elem_of_In, nth_In. done.
  - rewrite nth_overflow by lia. by left.
Qed.

Lemma alphabet_plain c :
  c ∈ alphabet → special c = false ∧ c ≠ "-"%char ∧ c ≠ CR ∧ c ≠ LF.
Proof.
  intros Hc. unfold alphabet in Hc. simpl in Hc.
  repeat (apply elem_of_cons in Hc as [->|Hc]; [by vm_compute|]).
  by apply elem_of_nil in Hc.
Qed.

Lemma pad_num_alphabet base w n : Forall (λ c, c ∈ alphabet) (pad_num base w n).
Proof.
  induction w as [|w IH]; simpl; [by constructor|].
  constructor; [apply digit_char_alphabet | done].
Qed.

Lemma digit_val_char base d :
  (d < base)%N → (base ≤ 16)%N → digit_val base (digit_char d) = Some d.
Proof.
  intros Hd Hb.
  assert (d ∈ N.of_nat <$> seq 0 16) as Hin.
  { apply list_elem_of_fmap. exists (N.to_nat d). split; [lia|].
    apply elem_of_seq. lia. }
  unfold digit_val. simpl in Hin.
  repeat (apply elem_of_cons in Hin as [->|Hin];
          [vm_compute digit_char; simpl; by rewrite decide_True by done|]).
  by apply elem_of_nil in Hin.
Qed.

Lemma read_num_pad base w n acc rest :
  (1 < base ≤ 16)%N →
  read_num base w acc (pad_num base w n ++ rest)
  = Some ((acc * base ^ N.of_nat w + n mod base ^ N.of_nat w)%N, rest).
Proof.
  intros Hb. revert acc. induction w as [|w IH]; intros acc.
  - simpl. do 2 f_equal. rewrite N.mod_1_r. lia.
  - simpl pad_num. simpl app. simpl read_num.
    rewrite digit_val_char; [|apply N.mod_lt; lia|lia].
    rewrite IH. do 2 f_equal.
    rewrite Nat2N.inj_succ, N.pow_succ_r'.
    rewrite (N.mul_comm base (base ^ N.of_nat w)).
    rewrite N.Div0.mod_mul_r. lia.
Qed.

Lemma read_num_pad_0 base w n rest :
  (1 < base ≤ 16)%N → (n < base ^ N.of_nat w)%N →
  read_num base w 0 (pad_num base w n ++ rest) = Some (n, rest).
Proof.
  intros Hb Hn. rewrite read_num_pad by done.
  by rewrite N.mod_small by done.
Qed.

Lemma filter_all {A} (P : A → Prop) `{∀ x, Decision (P x)} (l : list A) :
  Forall P l → filter P l = l.
Proof.
  induction 1 as [|x l Hx _ IH]; [done|].
  by rewrite filter_cons_True, IH.
Qed.

Lemma filter_none {A} (P : A → Prop) `{∀ x, Decision (P x)} (l : list A) :
  Forall (λ x, ¬ P x) l → filter P l = [].
Proof.
  induction 1 as [|x l Hx _ IH]; [done|].
  by rewrite filter_cons_False.
Qed.

Lemma UUID_str_parse u : (u < 2 ^ 128)%N → UUID_parse (UUID_str u) = Some u.
Proof.
  intros Hu. unfold UUID_parse, UUID_str.
  set (h := pad_num 16 32 u).
  assert (Forall (λ c, c ≠ "-"%char) h) as Hh.
  { eapply Forall_impl; [apply pad_num_alphabet|].
    intros c Hc. apply alphabet_plain in Hc. tauto. }
  assert (∀ k l, Forall (λ c, c ≠ "-"%char) l →
                 filter (λ c, c ≠ "-"%char) (take k l) = take k l) as Htake.
  { intros k l Hl. apply filter_all, Forall_take, Hl. }
  repeat first [ rewrite filter_app | rewrite filter_cons_False by (by intros ?) ].
  rewrite (filter_all _ (drop 20 h)) by (by apply Forall_drop).
  rewrite (Htake 8%nat h) by done.
  rewrite !Htake by (by apply Forall_drop).
  replace (take 8 h ++ take 4 (drop 8 h) ++ take 4 (drop 12 h)
             ++ take 4 (drop 16 h) ++ drop 20 h) with (h ++ []).
  - unfold h. rewrite read_num_pad_0; [done | lia | exact Hu].
  - rewrite app_nil_r. rewrite <- (take_drop 8 h) at 1. f_equal.
Qed.

Lemma expect_cons c s : expect c (c :: s) = Some s.
Proof. unfold expect. by rewrite decide_True. Qed.

Lemma isoformat_parse d : valid_datetime d → fromisoformat (isoformat d) = Some d.
Proof.
  intros (Hy & Hmo & Hd & Hh & Hmi & Hs & Hus).
  destruct d as [y mo dd h mi s us]. simpl in *.
  unfold fromisoformat, isoformat. simpl year. simpl month. simpl day.
  simpl hour. simpl minute. simpl second. simpl microsecond.
  repeat first
    [ rewrite <- app_assoc
    | rewrite <- app_comm_cons
    | rewrite read_num_pad_0 by (simpl; lia)
    | rewrite expect_cons
    | progress cbn [mbind option_bind] ].
  destruct (decide (us = 0%N)) as [->|Hne]; [done|].
  cbn [mbind option_bind]. rewrite expect_cons. cbn [mbind option_bind].
  rewrite <- (app_nil_r (pad_num 10 6 us)).
  rewrite read_num_pad_0 by (simpl; lia). cbn [mbind option_bind].
  by rewrite decide_False.
Qed.

Lemma isoformat_cons d : ∃ c s, isoformat d = c :: s.
Proof. unfold isoformat. simpl. eauto. Qed.

Lemma timestamp_field_parse t :
  valid_timestamp t → timestamp_parse (timestamp_field t) = Some t.
Proof.
  destruct t as [d|]; [|done]. simpl. intros Hd.
  destruct (isoformat_cons d) as (c & s & Hcs).
  pose proof (isoformat_parse d Hd) as Hp. rewrite Hcs in Hp.
  unfold timestamp_parse. by rewrite Hcs, Hp.
Qed.

Lemma timestamp_field_nil t : timestamp_field t = [] ↔ t = None.
Proof.
  destruct t as [d|]; [|done]. simpl.
  destruct (isoformat_cons d) as (c & s & ->). done.
Qed.

Lemma record_fields_parse p :
  valid_person p → record_parse (record_fields p) = Some (exported p).
Proof.
  intros (Hu & Hr & Ha & Hc). unfold record_parse, record_fields.
  rewrite UUID_str_parse by done. cbn [mbind option_bind].
  rewrite !timestamp_field_parse by done. cbn [mbind option_bind].
  by rewrite !String.string_of_list_ascii_of_string.
Qed.

(** ** Line ends in the export *)

Lemma count_char_app x s1 s2 :
  count_char x (s1 ++ s2) = (count_char x s1 + count_char x s2)%nat.
Proof. unfold count_char. by rewrite filter_app, length_app. Qed.

Lemma count_char_cons x c s :
  count_char x (c :: s)
  = ((if decide (c = x) then 1 else 0) + count_char x s)%nat.
Proof. unfold count_char. rewrite filter_cons. by destruct (decide (c = x)). Qed.

Lemma count_char_none x s : Forall (λ c, c ≠ x) s → count_char x s = 0%nat.
Proof. intros Hs. unfold count_char. by rewrite filter_none. Qed.

Lemma count_char_escape x s :
  x ≠ dquote → count_char x (csv_escape s) = count_char x s.
Proof.
  intros Hx. induction s as [|c s IH]; [done|]. simpl.
  destruct (decide (c = dquote)) as [->|Hc].
  - rewrite !count_char_cons, IH. by rewrite !decide_False by done.
  - by rewrite !count_char_cons, IH.
Qed.

Lemma count_char_field x f :
  x ≠ dquote → count_char x (csv_field f) = count_char x f.
Proof.
  intros Hx. unfold csv_field, csv_quote. destruct (existsb special f); [|done].
  rewrite count_char_cons, count_char_app, count_char_escape by done.
  rewrite count_char_cons. rewrite !decide_False by done. simpl.
  unfold count_char at 2. simpl. lia.
Qed.

Lemma count_char_join x fs :
  x ≠ dquote → x ≠ comma →
  count_char x (csv_join fs) = sum_list (count_char x <$> fs).
Proof.
  intros Hq Hc. induction fs as [|f fs IH]; [done|].
  destruct fs as [|g fs].
  - simpl. rewrite count_char_field by done. lia.
  - change (csv_join (f :: g :: fs))
      with (csv_field f ++ comma :: csv_join (g :: fs)).
    rewrite count_char_app, count_char_cons, count_char_field, IH by done.
    rewrite decide_False by done. by rewrite fmap_cons.
Qed.

Lemma count_char_row x fs :
  x = CR ∨ x = LF →
  count_char x (csv_row fs) = S (sum_list (count_char x <$> fs)).
Proof.
  intros Hx.
  assert (x ≠ dquote ∧ x ≠ comma) as [Hq Hc] by (destruct Hx as [->| ->]; done).
  assert (count_char x [CR; LF] = 1%nat) as Hend
    by (destruct Hx as [->| ->]; done).
  unfold csv_row. rewrite count_char_app, Hend.
  destruct fs as [|[|c f] [|g fs]];
    rewrite ?count_char_join by done; try lia.
  rewrite !count_char_cons, !decide_False by done. simpl. lia.
Qed.

Lemma UUID_str_plain x u : x = CR ∨ x = LF → Forall (λ c, c ≠ x) (UUID_str u).
Proof.
  intros Hx. unfold UUID_str.
  assert (Forall (λ c, c ≠ x) (pad_num 16 32 u)) as Hh.
  { eapply Forall_impl; [apply pad_num_alphabet|].
    intros c Hc%alphabet_plain. destruct Hx as [->| ->]; tauto. }
  assert ("-"%char ≠ x) as Hm by (destruct Hx as [->| ->]; done).
  cbv zeta. revert Hh. generalize (pad_num 16 32 u). intros h Hh.
  repeat first [ apply Forall_app; split | apply Forall_cons; split
               | by apply Forall_take | by apply Forall_drop
               | by apply Forall_take, Forall_drop | done ].
Qed.

Lemma isoformat_plain x d : x = CR ∨ x = LF → Forall (λ c, c ≠ x) (isoformat d).
Proof.
  intros Hx. unfold isoformat.
  assert (∀ w n, Forall (λ c, c ≠ x) (pad_num 10 w n)) as Hh.
  { intros w n. eapply Forall_impl; [apply pad_num_alphabet|].
    intros c Hc%alphabet_plain. destruct Hx as [->| ->]; tauto. }
  assert ("-"%char ≠ x ∧ "T"%char ≠ x ∧ ":"%char ≠ x ∧ "."%char ≠ x)
    as (? & ? & ? & ?) by (destruct Hx as [->| ->]; done).
  destruct (decide (microsecond d = 0%N));
    repeat first [ rewrite Forall_app | rewrite Forall_cons ];
    split_and!; first [ apply Hh | apply Forall_nil_2 | done ].
Qed.

Lemma record_fields_one_line x p :
  x = CR ∨ x = LF → one_line_person p →
  sum_list (count_char x <$> record_fields p) = 0%nat.
Proof.
  intros Hx (Hn & Hs & He).
  assert (∀ s, one_line s → count_char x (String.list_ascii_of_string s) = 0%nat)
    as Hone.
  { intros s Hs'. apply count_char_none. eapply Forall_impl; [exact Hs'|].
    intros c [? ?]. by destruct Hx as [->| ->]. }
  assert (∀ t, count_char x (timestamp_field t) = 0%nat) as Ht.
  { intros [d|]; [|done]. by apply count_char_none, isoformat_plain. }
  unfold record_fields. rewrite !fmap_cons. simpl sum_list.
  rewrite !Ht, !Hone by done.
  by rewrite (count_char_none x (UUID_str (id_no p))) by (by apply UUID_str_plain).
Qed.

(** ** The exported file *)

Lemma save_rows_run l w :
  allocated w l →
  ∃ ps, Forall2 (λ r p, heap w !! r = Some p) l ps ∧
        save_rows l w = (Val (concat (csv_row <$> (record_fields <$> ps))), w).
Proof.
  induction l as [|r l IH]; intros Hall.
  - exists []. split; [constructor | done].
  - apply Forall_cons in Hall as [Hr Hall].
    destruct (lookup_lt_is_Some_2 _ _ Hr) as [p Hp].
    destruct (IH Hall) as (ps & Hps & Hrun).
    exists (p :: ps). split; [by constructor|].
    simpl. unfold bind, get_person, ret. by rewrite Hp, Hrun.
Qed.

Lemma mapM_record_parse ps :
  Forall valid_person ps →
  mapM record_parse (record_fields <$> ps) = Some (exported <$> ps).
Proof.
  induction 1 as [|p ps Hp _ IH]; [done|].
  rewrite fmap_cons.
  change (mapM record_parse (record_fields p :: (record_fields <$> ps)))
    with (y ← record_parse (record_fields p);
          k ← mapM record_parse (record_fields <$> ps); mret (y :: k)).
  by rewrite record_fields_parse, IH by done.
Qed.

Lemma count_char_rows x ps :
  x = CR ∨ x = LF → Forall one_line_person ps →
  count_char x (concat (csv_row <$> (record_fields <$> ps))) = length ps.
Proof.
  intros Hx. induction 1 as [|p ps Hp _ IH]; [done|].
  rewrite !fmap_cons. simpl concat.
  rewrite count_char_app, count_char_row, record_fields_one_line, IH by done.
  done.
Qed.

(** C8, as stated, fails: with one completed person whose name holds a line
    feed, the export has two records but three lines. *)
Lemma export_lines_counterexample :
  length (completed_list (registry scenario_multiline)) = 1%nat ∧
  ∃ text, (save scenario_multiline).1 = Val text ∧
          count_lines text = 3%nat ∧
          length (csv_reader text) = 2%nat.
Proof.
  split; [vm_compute; reflexivity|].
  eexists. split; [vm_compute; reflexivity|].
  split; vm_compute; reflexivity.
Qed.

(** C8, amended.  The export of a completed log of K persons is K+1 CSV
    records, each ended by CR LF: the header naming the seven fields, then
    one record per person in completion order, an unset timestamp being the
    empty field and a set one its [isoformat].  Reading the text as CSV gives
    these K+1 records back, and reading the records gives back identifier,
    name, surname, email and the three timestamps of every person.  When no
    name, surname or email holds a carriage return or a line feed, the K+1
    line ends of the records are the only ones, so the text has K+1 lines. *)
Theorem export_round_trip w :
  allocated w (completed_list (registry w)) →
  ∃ ps text,
    Forall2 (λ r p, heap w !! r = Some p) (completed_list (registry w)) ps ∧
    save w = (Val text, w) ∧
    text = concat (csv_row <$> header :: (record_fields <$> ps)) ∧
    csv_reader text = header :: (record_fields <$> ps) ∧
    length (csv_reader text) = S (length (completed_list (registry w))) ∧
    (∀ t, timestamp_field t = [] ↔ t = None) ∧
    (∀ d, timestamp_field (Some d) = isoformat d
          ∧ (valid_datetime d → fromisoformat (isoformat d) = Some d)) ∧
    (Forall valid_person ps → export_parse text = Some (exported <$> ps)) ∧
    (Forall one_line_person ps →
     count_lines text = S (length (completed_list (registry w)))
     ∧ count_char CR text = S (length (completed_list (registry w)))).
Proof.
  intros Hall. destruct (save_rows_run _ w Hall) as (ps & Hps & Hrun).
  pose proof (Forall2_length _ _ _ Hps) as Hlen.
  exists ps, (concat (csv_row <$> header :: (record_fields <$> ps))).
  rewrite csv_reader_rows.
  split_and!; try done.
  - unfold save, bind, get_registry, ret. by rewrite Hrun.
  - simpl. by rewrite length_fmap, Hlen.
  - apply timestamp_field_nil.
  - intros d. split; [done | apply isoformat_parse].
  - intros Hv. unfold export_parse. rewrite csv_reader_rows.
    rewrite decide_True by done. by apply mapM_record_parse.
  - intros Hone. rewrite fmap_cons. unfold count_lines.
    assert (∀ x s l, count_char x (concat (s :: l))
                     = (count_char x s + count_char x (concat l))%nat) as Hc
      by (intros; apply count_char_app).
    rewrite !Hc, !count_char_rows by first [done | by left | by right].
    rewrite Hlen.
    assert (count_char LF (csv_row header) = 1%nat) as -> by (by vm_compute).
    assert (count_char CR (csv_row header) = 1%nat) as -> by (by vm_compute).
    done.
Qed.

Lemma export_round_trip_witness :
  ∃ ps text,
    Forall2 (λ r p, heap scenario_done !! r = Some p)
            (completed_list (registry scenario_done)) ps ∧
    save scenario_done = (Val text, scenario_done) ∧
    csv_reader text = header :: (record_fields <$> ps) ∧
    length (csv_reader text) = 3%nat ∧
    export_parse text = Some (exported <$> ps) ∧
    count_lines text = 3%nat.
Proof.
  destruct (export_round_trip scenario_done)
    as (ps & text & Hps & Hsave & _ & Hread & Hlen & _ & _ & Hparse & Hlines).
  { vm_compute. repeat constructor. }
  exists ps, text. split; [exact Hps|]. split; [exact Hsave|].
  split; [exact Hread|]. split; [exact Hlen|].
  assert (ps = [mk_Person "Ada" "Lovelace" "Ada.Lovelace@gmail.com" 2
                          (Some (clock0 1)) (Some (clock0 0)) (Some (clock0 5))
                          COMPLETED (uuid4_of 3);
                mk_Person "Alan" "Turing" "Alan.Turing@gmail.com" 3
                          (Some (clock0 3)) (Some (clock0 2)) (Some (clock0 7))
                          COMPLETED (uuid4_of 10)]) as ->.
  { vm_compute in Hps.
    inversion Hps as [|r1 p1 l1 ps1 H1 Hps1]; subst.
    inversion Hps1 as [|r2 p2 l2 ps2 H2 Hps2]; subst.
    inversion Hps2; subst. vm_compute in H1, H2.
    injection H1 as <-. injection H2 as <-. reflexivity. }
  split.
  - apply Hparse. apply (bool_decide_unpack _). vm_compute. reflexivity.
  - apply Hlines. apply (bool_decide_unpack _). vm_compute. reflexivity.
Defined.

(** * The generator, the driver and the whole run *)

(** ** Computations are made of steps *)

Lemma steps_trans w1 w2 w3 : steps_to w1 w2 → steps_to w2 w3 → steps_to w1 w3.
Proof.
  intros H12 H23. induction H23 as [| w3 c _ IH | w3 _ IH | w3 m _ IH].
  - done.
  - apply steps_call. by apply IH.
  - apply steps_random. by apply IH.
  - apply steps_log. by apply IH.
Qed.

Lemma steps_exec_all cs w : steps_to w (exec_all cs w).
Proof.
  revert w. induction cs as [|c cs IH]; intros w; [apply steps_refl|].
  simpl. eapply steps_trans; [|apply IH]. apply steps_call, steps_refl.
Qed.

Lemma reachable_driven lim w : reachable lim w → driven lim w.
Proof.
  induction 1 as [clk ent | w c _ (clk & ent & IH)].
  - exists clk, ent. apply steps_refl.
  - exists clk, ent. by apply steps_call.
Qed.

Lemma driven_steps lim w w' : driven lim w → steps_to w w' → driven lim w'.
Proof. intros (clk & ent & H) H'. exists clk, ent. by eapply steps_trans. Qed.

Lemma inv_steps lim w w' : inv lim w → steps_to w w' → inv lim w'.
Proof.
  intros Hinv. induction 1 as [| w' c _ IH | w' _ IH | w' m _ IH].
  - done.
  - by apply inv_exec, IH.
  - by apply IH.
  - by apply IH.
Qed.

Lemma driven_inv lim w : driven lim w → inv lim w.
Proof.
  intros (clk & ent & H). eapply inv_steps; [|exact H].
  split; [apply core_init | by intros ?].
Qed.

Lemma stepwise_bind {A B} (c : M A) (k : A → M B) :
  stepwise c → (∀ a, stepwise (k a)) → stepwise (bind c k).
Proof.
  intros Hc Hk w. unfold after, bind. specialize (Hc w). unfold after in Hc.
  destruct (c w) as [[a|e] w1]; simpl in *; [|done].
  eapply steps_trans; [exact Hc|]. apply Hk.
Qed.

Lemma stepwise_ret {A} (a : A) : stepwise (ret a).
Proof. intros w. apply steps_refl. Qed.

Lemma stepwise_raise {A} e : stepwise (@raise A e).
Proof. intros w. apply steps_refl. Qed.

Lemma stepwise_get_registry : stepwise get_registry.
Proof. intros w. apply steps_refl. Qed.

Lemma stepwise_random_bits : stepwise random_bits.
Proof. intros w. apply steps_random, steps_refl. Qed.

Lemma stepwise_logger_info m : stepwise (logger_info m).
Proof. intros w. apply steps_log, steps_refl. Qed.

Lemma stepwise_exec c : stepwise (exec c).
Proof. intros w. apply steps_call, steps_refl. Qed.

Lemma stepwise_Person_init n s e pt : stepwise (Person_init n s e pt).
Proof.
  intros w. change (after (Person_init n s e pt) w)
    with (after (exec (CPerson n s e pt)) w).
  apply stepwise_exec.
Qed.

Lemma stepwise_for_each {A} (l : list A) (f : A → M unit) :
  (∀ x, stepwise (f x)) → stepwise (for_each l f).
Proof.
  intros Hf. induction l as [|x l IH]; simpl; [apply stepwise_ret|].
  apply stepwise_bind; [apply Hf | done].
Qed.

Lemma select_finished_world l w : (select_finished l w).2 = w.
Proof.
  induction l as [|r l IH]; [done|]. simpl. unfold bind, get_person.
  destruct (heap w !! r); [|done].
  destruct (select_finished l w) as [[x|e] w1]; simpl in *; by subst.
Qed.

Lemma save_world w : (save w).2 = w.
Proof.
  unfold save, bind, get_registry. simpl.
  assert (∀ l, (save_rows l w).2 = w) as Hrows.
  { induction l as [|r l IH]; [done|]. simpl. unfold bind, get_person.
    destruct (heap w !! r); [|done].
    destruct (save_rows l w) as [[x|e] w1]; simpl in *; by subst. }
  specialize (Hrows (completed_list (registry w))).
  destruct (save_rows _ w) as [[x|e] w1]; simpl in *; by subst.
Qed.

Lemma stepwise_select_finished l : stepwise (select_finished l).
Proof. intros w. unfold after. rewrite select_finished_world. apply steps_refl. Qed.

Lemma stepwise_save : stepwise save.
Proof. intros w. unfold after. rewrite save_world. apply steps_refl. Qed.

Ltac stepwise_tac :=
  repeat first
    [ apply stepwise_ret | apply stepwise_raise | apply stepwise_get_registry
    | apply stepwise_random_bits | apply stepwise_logger_info
    | apply stepwise_Person_init | apply stepwise_select_finished
    | apply stepwise_save
    | apply (stepwise_exec (CAdd _)) | apply (stepwise_exec (CComplete _))
    | apply (stepwise_exec CPromote) | apply (stepwise_exec (CWork _))
    | apply (stepwise_exec (CReport _ _))
    | apply stepwise_for_each; intros ?
    | apply stepwise_bind; [|intros ?] ].

Lemma stepwise_tick_finish : stepwise tick_finish.
Proof. unfold tick_finish. stepwise_tac. Qed.

Lemma stepwise_randint a b : stepwise (randint a b).
Proof. unfold randint. case_decide; stepwise_tac. Qed.

Lemma stepwise_choice l : stepwise (choice l).
Proof. unfold choice. destruct l; stepwise_tac. Qed.

Lemma stepwise_generate gen : stepwise (generate gen).
Proof.
  unfold generate. apply stepwise_bind; [apply stepwise_randint|]. intros nu.
  induction (Z.to_nat nu) as [|n IH]; simpl; [apply stepwise_ret|].
  repeat first [ apply stepwise_choice | apply stepwise_randint | exact IH
               | apply stepwise_Person_init | apply stepwise_ret
               | apply stepwise_bind; [|intros ?] ].
Qed.

Lemma sleep_run int d w : sleep int d w = (slept int d, w).
Proof. unfold sleep, slept. case_decide; [done|]. by destruct int. Qed.

Lemma stepwise_sleep int d : stepwise (sleep int d).
Proof. intros w. unfold after. rewrite sleep_run. apply steps_refl. Qed.

Lemma stepwise_try_except {A} (c : M A) e (h : M A) :
  stepwise c → stepwise h → stepwise (try_except c e h).
Proof.
  intros Hc Hh w. unfold after, try_except. specialize (Hc w). unfold after in Hc.
  destruct (c w) as [[a|e'] w1]; simpl in *; [done|].
  case_decide; [|done]. eapply steps_trans; [exact Hc|]. apply Hh.
Qed.

Lemma stepwise_Registry_save env file : stepwise (Registry_save env file).
Proof.
  unfold Registry_save.
  destruct (can_open env file); [apply stepwise_save | apply stepwise_raise].
Qed.

Lemma stepwise_tick gen d int : stepwise (tick gen d int).
Proof.
  unfold tick. apply stepwise_bind; [apply stepwise_tick_finish|]. intros fin.
  apply stepwise_bind; [apply stepwise_generate|]. intros users.
  apply stepwise_bind; [apply stepwise_for_each; intros r;
                        apply (stepwise_exec (CAdd r))|]. intros _.
  apply stepwise_bind; [apply (stepwise_exec (CReport _ _))|]. intros _.
  apply stepwise_sleep.
Qed.

Lemma stepwise_run_ticks env gen n d : stepwise (run_ticks env gen n d).
Proof.
  unfold run_ticks. induction (Z.to_nat n) as [|k IH]; simpl; [apply stepwise_ret|].
  apply stepwise_bind; [apply stepwise_tick | by intros _].
Qed.

Lemma stepwise_run env gen n d file : stepwise (run env gen n d file).
Proof.
  unfold run. apply stepwise_bind.
  { apply stepwise_try_except; [apply stepwise_run_ticks|].
    apply stepwise_logger_info. }
  intros _. apply stepwise_bind; [apply stepwise_get_registry|]. intros g.
  apply stepwise_bind; [apply stepwise_logger_info|]. intros _.
  apply stepwise_bind; [apply stepwise_Registry_save|]. intros text.
  apply stepwise_bind; [apply stepwise_logger_info|]. intros _.
  apply stepwise_ret.
Qed.

(** ** [promote] twice *)

(** X1. [promote] returns, and calling it again at once changes nothing;
    with nobody waiting or no ticket left it changes nothing at all. *)
Theorem promote_idempotent w :
  allocated w (awaiting_queue (registry w)) →
  ∃ w', promote w = (Val tt, w') ∧
        promote w' = (Val tt, w') ∧
        (awaiting_queue (registry w) = [] ∨ available_tickets (registry w) ≤ 0 →
         w' = w).
Proof.
  intros Hall. destruct (promote_run w Hall) as (w' & Hrun & Hreg & _ & _).
  exists w'. split; [done|]. split.
  - unfold promote, bind, get_registry. simpl. apply promote_loop_exit.
    rewrite Hreg. intros [Hq Hav]. pose proof (settled_promoted (registry w) Hq). lia.
  - intros Hidle.
    assert (promote w = (Val tt, w)) as Hw.
    { unfold promote, bind, get_registry. simpl. apply promote_loop_exit.
      intros [Hq Hav]. destruct Hidle; [done | lia]. }
    rewrite Hw in Hrun. by injection Hrun.
Qed.

Lemma promote_idempotent_witness :
  ∃ w', promote scenario_queue = (Val tt, w') ∧
        promote w' = (Val tt, w') ∧
        (awaiting_queue (registry scenario_queue) = []
         ∨ available_tickets (registry scenario_queue) ≤ 0 →
         w' = scenario_queue).
Proof.
  apply (promote_idempotent scenario_queue). vm_compute. repeat constructor.
Defined.

(** ** Statuses in the lists *)

Lemma fresh_not_live lim w r p :
  inv lim w → heap w !! r = Some p → id_no p ∉ seen_ids (registry w) →
  r ∉ live (registry w).
Proof.
  intros [[_ _ _ Hseen _] _] Hp Hfresh Hr. apply Hfresh.
  rewrite Hseen, elem_of_list_to_set, list_elem_of_fmap. exists r.
  split; [|done]. pose proof (uid_Some w r p Hp) as Hu. by unfold uid in Hu.
Qed.

Lemma newcomer_direct_ok w p : active_ok (newcomer w true p).
Proof.
  unfold newcomer. destruct (registered_at p) eqn:Hr;
    repeat split; simpl; rewrite ?Hr; eauto.
Qed.

Lemma newcomer_queued_ok w p : is_Some (registered_at (newcomer w false p)).
Proof.
  unfold newcomer. destruct (registered_at p) eqn:Hr; simpl; rewrite ?Hr; eauto.
Qed.

Lemma status_inv_promoted w w' l k q :
  assigned_in (take k q) (heap w) (heap w') →
  (∀ r, r ∈ l → ∃ p, heap w !! r = Some p ∧ active_ok p) →
  (∀ r, r ∈ q → ∃ p, heap w !! r = Some p ∧ is_Some (registered_at p)) →
  (∀ r, r ∈ l ++ take k q → ∃ p, heap w' !! r = Some p ∧ active_ok p) ∧
  (∀ r, r ∈ drop k q → ∃ p, heap w' !! r = Some p ∧ is_Some (registered_at p)).
Proof.
  intros [_ Hheap] Hl Hq.
  assert (∀ r, r ∈ take k q → ∃ p, heap w' !! r = Some p ∧ active_ok p) as Hnew.
  { intros r Hr. destruct (Hheap r) as [Hin _].
    destruct (Hin Hr) as (p & t & Hp & Hp').
    destruct (Hq r) as (p0 & Hp0 & Hreg); [by eapply elem_of_take_1|].
    rewrite Hp in Hp0. injection Hp0 as ->.
    exists (assigned_at_time t p0). split; [done|]. repeat split; eauto. }
  split.
  - intros r Hr. destruct (decide (r ∈ take k q)) as [Hd|Hd]; [by apply Hnew|].
    apply elem_of_app in Hr as [Hr|Hr]; [|done].
    destruct (Hheap r) as [_ Hout]. rewrite (Hout Hd). by apply Hl.
  - intros r Hr.
    assert (r ∈ q) as Hrq.
    { rewrite <- (take_drop k q). apply elem_of_app. by right. }
    destruct (decide (r ∈ take k q)) as [Hd|Hd].
    + destruct (Hnew r Hd) as (p & Hp & _ & _ & Hreg). by exists p.
    + destruct (Hheap r) as [_ Hout]. rewrite (Hout Hd). by apply Hq.
Qed.

Lemma status_inv_insert (h : list Person) (r r' : ref) p p' (Q : Person → Prop) :
  h !! r = Some p → (Q p → Q p') →
  (∃ q, h !! r' = Some q ∧ Q q) → ∃ q, <[r := p']> h !! r' = Some q ∧ Q q.
Proof.
  intros Hp HQ (q & Hq & HQq). destruct (decide (r = r')) as [->|Hne].
  - rewrite Hp in Hq. injection Hq as ->. exists p'.
    split; [|by apply HQ]. apply list_lookup_insert_eq. by eapply lookup_lt_Some.
  - exists q. by rewrite list_lookup_insert_ne.
Qed.

Lemma status_inv_exec lim w c :
  inv lim w → status_inv w → status_inv (after (exec c) w).
Proof.
  intros Hinv [Ha Hq]. destruct c as [n s e pt|r|r| |r|a f];
    unfold after; cbn [exec].
  - simpl. split; intros r Hr; [destruct (Ha r Hr) as (p & Hp & ?)
                               |destruct (Hq r Hr) as (p & Hp & ?)];
      exists p; (split; [|done]); by apply lookup_app_l_Some.
  - destruct (heap w !! r) as [p|] eqn:Hp.
    2:{ by rewrite add_run_dangling. }
    destruct (decide (id_no p ∈ seen_ids (registry w))) as [Hseen|Hseen].
    { by rewrite (add_run_duplicate r w p). }
    pose proof (fresh_not_live lim w r p Hinv Hp Hseen) as Hfresh.
    unfold live in Hfresh. rewrite elem_of_app in Hfresh.
    assert (∀ (Q : Person → Prop) x r',
              r' ≠ r → (∃ q, heap w !! r' = Some q ∧ Q q) →
              ∃ q, <[r := x]> (heap w) !! r' = Some q ∧ Q q) as Hother.
    { intros Q x r' Hne (q & Hq' & HQ). exists q.
      by rewrite list_lookup_insert_ne. }
    assert (∀ x, <[r := x]> (heap w) !! r = Some x) as Hself.
    { intros x. apply list_lookup_insert_eq. by eapply lookup_lt_Some. }
    destruct (decide (available_tickets (registry w) > 0)) as [Hav|Hav].
    + rewrite (add_run_direct r w p) by done. split; simpl.
      * intros r' [Hr'| ->%list_elem_of_singleton]%elem_of_app.
        -- apply Hother; [intros ->; tauto | by apply Ha].
        -- eexists. split; [apply Hself | apply newcomer_direct_ok].
      * intros r' Hr'. apply Hother; [intros ->; tauto | by apply Hq].
    + rewrite (add_run_queued r w p) by done. split; simpl.
      * intros r' Hr'. apply Hother; [intros ->; tauto | by apply Ha].
      * intros r' [Hr'| ->%list_elem_of_singleton]%elem_of_app.
        -- apply Hother; [intros ->; tauto | by apply Hq].
        -- eexists. split; [apply Hself | apply newcomer_queued_ok].
  - destruct (heap w !! r) as [p|] eqn:Hp.
    2:{ by rewrite complete_run_dangling. }
    destruct (decide (r ∈ assigned_list (registry w))) as [Hr|Hr].
    + destruct (complete_run_inv lim w r Hinv Hr)
        as (p' & l & w' & Hp' & Hl & Hrl & Hrq & -> & Hreg & Hheap & _).
      rewrite Hp in Hp'. injection Hp' as <-.
      unfold status_inv. simpl. rewrite Hreg. unfold promoted. simpl.
      simpl in Hheap.
      apply list_remove_Some in Hl as (l1 & l2 & Hasg & _ & ->).
      apply (status_inv_promoted (released r p (l1 ++ l2) w) w'); [done| |].
      * intros r' Hr'. simpl.
        assert (r' ≠ r) as Hne by (by intros ->).
        rewrite list_lookup_insert_ne by done. apply Ha.
        rewrite Hasg. rewrite elem_of_app in Hr'. rewrite elem_of_app, elem_of_cons.
        tauto.
      * intros r' Hr'. simpl.
        assert (r' ≠ r) as Hne by (by intros ->).
        rewrite list_lookup_insert_ne by done. by apply Hq.
    + rewrite (complete_run_absent r w p Hp Hr). split; simpl.
      * intros r' Hr'. destruct (Ha r' Hr') as (q & Hq' & HQ).
        exists q. split; [|done]. rewrite list_lookup_insert_ne; [done|].
        by intros ->.
      * intros r' Hr'. apply (status_inv_insert _ r r' p); [done|done|by apply Hq].
  - destruct (promote_run w) as (w' & -> & Hreg & Hheap & _).
    { destruct Hinv as [[_ Hall _ _ _] _]. unfold live in Hall.
      unfold allocated, ids in *. rewrite length_fmap in Hall. split_Forall. }
    unfold status_inv. simpl. rewrite Hreg. unfold promoted. simpl.
    by apply (status_inv_promoted w w').
  - rewrite work_run. destruct (heap w !! r) as [p|] eqn:Hp; [|done].
    split; simpl; intros r' Hr'.
    + apply (status_inv_insert _ r r' p); [done|done|by apply Ha].
    + apply (status_inv_insert _ r r' p); [done|done|by apply Hq].
  - done.
Qed.

Lemma driven_status_inv lim w : driven lim w → status_inv w.
Proof.
  intros (clk & ent & H).
  assert (inv lim (init_world lim clk ent)) as Hinv0.
  { split; [apply core_init | by intros ?]. }
  induction H as [| w' c H IH | w' H IH | w' m H IH].
  - split; intros r Hr; simpl in Hr; by apply elem_of_nil in Hr.
  - apply (status_inv_exec lim); [by eapply inv_steps | by apply IH].
  - by apply IH.
  - by apply IH.
Qed.

(** X2. In every state of the process an active person has status ASSIGNED
    and both [registered_at] and [assigned_at] set, and a waiting person has
    [registered_at] set, whatever was called before. *)
Theorem active_persons_are_assigned lim w :
  driven lim w →
  (∀ r, r ∈ assigned_list (registry w) →
        ∃ p, heap w !! r = Some p ∧ status p = ASSIGNED
             ∧ is_Some (assigned_at p) ∧ is_Some (registered_at p)) ∧
  (∀ r, r ∈ awaiting_queue (registry w) →
        ∃ p, heap w !! r = Some p ∧ is_Some (registered_at p)).
Proof. intros H. exact (driven_status_inv lim w H). Qed.

Lemma active_persons_are_assigned_witness :
  (∀ r, r ∈ assigned_list (registry scenario_A) →
        ∃ p, heap scenario_A !! r = Some p ∧ status p = ASSIGNED
             ∧ is_Some (assigned_at p) ∧ is_Some (registered_at p)) ∧
  (∀ r, r ∈ awaiting_queue (registry scenario_A) →
        ∃ p, heap scenario_A !! r = Some p ∧ is_Some (registered_at p)).
Proof.
  apply (active_persons_are_assigned 2 scenario_A).
  apply reachable_driven, reachable_exec_all, reachable_init.
Defined.

(** ** [promote], iteration by iteration *)

Lemma assigned_at_time_twice t t' p :
  assigned_at_time t (assigned_at_time t' p) = assigned_at_time t p.
Proof. done. Qed.

Lemma promote_loop_times fuel w :
  (length (awaiting_queue (registry w)) ≤ fuel)%nat →
  allocated w (awaiting_queue (registry w)) →
  ∃ w', promote_loop fuel w = (Val tt, w') ∧
        registry w' = promoted (registry w) ∧
        clock w' = clock w ∧
        clock_reads w' = (clock_reads w + promoted_count (registry w))%nat ∧
        log w' = log w ∧
        (∀ (i : nat) r,
           take (promoted_count (registry w)) (awaiting_queue (registry w)) !! i
           = Some r →
           r ∉ drop (S i) (take (promoted_count (registry w))
                                (awaiting_queue (registry w))) →
           ∃ p, heap w !! r = Some p ∧
                heap w' !! r
                = Some (assigned_at_time (clock w (clock_reads w + i)%nat) p)) ∧
        (∀ r, r ∉ take (promoted_count (registry w)) (awaiting_queue (registry w)) →
              heap w' !! r = heap w !! r).
Proof.
  revert w. induction fuel as [|fuel IH]; intros w Hfuel Hall;
    destruct (decide (awaiting_queue (registry w) ≠ []
                      ∧ available_tickets (registry w) > 0)) as [[Hq Hav]|Hc].
  - destruct (awaiting_queue (registry w)); [done | simpl in Hfuel; lia].
  - exists w. rewrite promote_loop_exit, (promoted_count_0 _ Hc) by done.
    rewrite promoted_0 by (by apply promoted_count_0).
    split_and!; try done; try lia; intros i r Hr; by rewrite take_0 in Hr.
  - destruct (awaiting_queue (registry w)) as [|r0 q] eqn:Eq; [done|].
    apply Forall_cons in Hall as [Hr0 Hall].
    destruct (lookup_lt_is_Some_2 _ _ Hr0) as [p0 Hp0].
    rewrite (promote_loop_iter fuel w r0 q p0 Eq Hav Hp0).
    set (w1 := set_registry _ _).
    destruct (IH w1) as (w' & Hrun & Hreg & Hclk & Hreads & Hlog & Hin & Hout).
    { simpl. simpl in Hfuel. lia. }
    { unfold allocated. simpl. by rewrite length_insert. }
    assert (promoted_count (registry w) = S (promoted_count (registry w1))) as Hk.
    { unfold promoted_count, available_tickets, w1, set_registry in *.
      cbn [registry limit assigned_list awaiting_queue]. rewrite Eq.
      rewrite length_app. cbn [length]. lia. }
    exists w'. split; [exact Hrun|]. rewrite Hk.
    change (awaiting_queue (registry w1)) with q in *.
    change (clock w1) with (clock w) in *.
    change (clock_reads w1) with (S (clock_reads w)) in *.
    change (log w1) with (log w) in *.
    split_and!.
    + rewrite Hreg. unfold promoted. rewrite Hk, Eq. unfold w1. simpl.
      by rewrite <- app_assoc.
    + done.
    + lia.
    + done.
    + intros i r Hr Hlast. destruct i as [|i].
      * simpl in Hr. injection Hr as <-. simpl in Hlast. rewrite drop_0 in Hlast.
        exists p0. split; [done|]. rewrite (Hout r0 Hlast). unfold w1. simpl.
        rewrite Nat.add_0_r. apply list_lookup_insert_eq. by eapply lookup_lt_Some.
      * simpl in Hr, Hlast. destruct (Hin i r Hr Hlast) as (p1 & Hp1 & Hp').
        replace (clock_reads w + S i)%nat with (S (clock_reads w) + i)%nat by lia.
        unfold w1 in Hp1. simpl in Hp1.
        destruct (decide (r = r0)) as [->|Hne].
        -- rewrite list_lookup_insert_eq in Hp1 by (by eapply lookup_lt_Some).
           injection Hp1 as <-. exists p0. split; [done|].
           by rewrite Hp', assigned_at_time_twice.
        -- rewrite list_lookup_insert_ne in Hp1 by done. by exists p1.
    + intros r Hr. simpl in Hr. rewrite not_elem_of_cons in Hr.
      destruct Hr as [Hne Hr]. rewrite (Hout r Hr). unfold w1. simpl.
      by rewrite list_lookup_insert_ne.
  - exists w. rewrite promote_loop_exit, (promoted_count_0 _ Hc) by done.
    rewrite promoted_0 by (by apply promoted_count_0).
    split_and!; try done; try lia; intros i r Hr; by rewrite take_0 in Hr.
Qed.

Lemma promote_times w :
  allocated w (awaiting_queue (registry w)) →
  ∃ w', promote w = (Val tt, w') ∧
        registry w' = promoted (registry w) ∧
        clock w' = clock w ∧
        clock_reads w' = (clock_reads w + promoted_count (registry w))%nat ∧
        log w' = log w ∧
        (∀ (i : nat) r,
           take (promoted_count (registry w)) (awaiting_queue (registry w)) !! i
           = Some r →
           r ∉ drop (S i) (take (promoted_count (registry w))
                                (awaiting_queue (registry w))) →
           ∃ p, heap w !! r = Some p ∧
                heap w' !! r
                = Some (assigned_at_time (clock w (clock_reads w + i)%nat) p)) ∧
        (∀ r, r ∉ take (promoted_count (registry w)) (awaiting_queue (registry w)) →
              heap w' !! r = heap w !! r).
Proof.
  intros Hall. unfold promote, bind, get_registry. simpl.
  by apply promote_loop_times.
Qed.

Lemma promote_unroll w r q p :
  awaiting_queue (registry w) = r :: q →
  available_tickets (registry w) > 0 →
  heap w !! r = Some p →
  promote w = promote (promote_step r q p w).
Proof.
  intros Hq Hav Hp. unfold promote at 1. unfold bind, get_registry. simpl.
  rewrite Hq. simpl length.
  by rewrite (promote_loop_iter _ w r q p Hq Hav Hp).
Qed.

(** C3. [promote] is the loop it is written as: with nobody waiting or no
    ticket free it returns at once and changes nothing; otherwise it pops the
    head [r] of the queue, assigns it, appends it to the active list and goes
    on from there.  So it returns, having moved the first [k] waiting persons,
    in queue order, to the end of the active list, where [k] is the smaller of
    the queue's length and the tickets available; the [i]-th of them has
    status ASSIGNED and as [assigned_at] the [i]-th reading of the clock made
    by the call; everybody else, the rest of the queue, the completed list,
    the seen identifiers and the log are as before.  Consequently, from any
    state of the program and over any later sequence of calls, if [A] stands
    before [B] in the waiting queue and [B] has left the queue, then there is
    a call before which both still waited in that order and after which [A]
    is active and ASSIGNED, and [B] either still waits or is active behind
    [A]. *)
Theorem promote_is_fifo w :
  allocated w (awaiting_queue (registry w)) →
  (awaiting_queue (registry w) = [] ∨ available_tickets (registry w) ≤ 0 →
   promote w = (Val tt, w)) ∧
  (∀ r q p,
     awaiting_queue (registry w) = r :: q →
     available_tickets (registry w) > 0 → heap w !! r = Some p →
     promote w
     = promote
         (set_registry
            (mk_Registry (limit (registry w)) (assigned_list (registry w) ++ [r])
                         q (completed_list (registry w)) (seen_ids (registry w)))
            (set_heap (<[r := set_status ASSIGNED
                               (set_assigned_at (Some (clock w (clock_reads w))) p)]>
                         (heap w))
                      (set_clock_reads (S (clock_reads w)) w)))) ∧
  (∃ w',
     let q := awaiting_queue (registry w) in
     let k := (length q `min` Z.to_nat (available_tickets (registry w)))%nat in
     promote w = (Val tt, w') ∧
     assigned_list (registry w') = assigned_list (registry w) ++ take k q ∧
     awaiting_queue (registry w') = drop k q ∧
     completed_list (registry w') = completed_list (registry w) ∧
     seen_ids (registry w') = seen_ids (registry w) ∧
     limit (registry w') = limit (registry w) ∧
     clock_reads w' = (clock_reads w + k)%nat ∧
     log w' = log w ∧
     (∀ (i : nat) r,
        take k q !! i = Some r → r ∉ drop (S i) (take k q) →
        ∃ p, heap w !! r = Some p ∧
             heap w' !! r
             = Some (set_status ASSIGNED
                       (set_assigned_at
                          (Some (clock w (clock_reads w + i)%nat)) p))) ∧
     (∀ r, r ∉ take k q → heap w' !! r = heap w !! r)) ∧
  (∀ lim A B cs,
     driven lim w →
     precedes A B (awaiting_queue (registry w)) →
     B ∉ awaiting_queue (registry (exec_all cs w)) →
     ∃ cs1 c cs2 p,
       cs = cs1 ++ c :: cs2 ∧
       precedes A B (awaiting_queue (registry (exec_all cs1 w))) ∧
       A ∈ assigned_list (registry (exec_all (cs1 ++ [c]) w)) ∧
       (A ∉ awaiting_queue (registry (exec_all (cs1 ++ [c]) w))) ∧
       heap (exec_all (cs1 ++ [c]) w) !! A = Some p ∧
       status p = ASSIGNED ∧ is_Some (assigned_at p) ∧
       (B ∈ awaiting_queue (registry (exec_all (cs1 ++ [c]) w))
        ∨ precedes A B (assigned_list (registry (exec_all (cs1 ++ [c]) w))))).
Proof.
  intros Hall. split_and!.
  - intros Hidle. unfold promote, bind, get_registry. simpl.
    apply promote_loop_exit. intros [Hq Hav]. destruct Hidle; [done | lia].
  - intros r q p Hq Hav Hp. exact (promote_unroll w r q p Hq Hav Hp).
  - destruct (promote_times w Hall)
      as (w' & Hrun & Hreg & _ & Hreads & Hlog & Hin & Hout).
    exists w'. cbv zeta. rewrite Hreg. unfold promoted, promoted_count in *.
    simpl. split_and!; done.
  - intros lim A B cs Hd Hpre HB.
    destruct (fifo_history lim w A B cs (driven_inv lim w Hd) Hpre HB)
      as (cs1 & c & cs2 & Hcs & Hpre1 & HA & HA' & HB').
    assert (driven lim (exec_all (cs1 ++ [c]) w)) as Hd'.
    { apply (driven_steps lim w); [done | apply steps_exec_all]. }
    destruct (driven_status_inv lim _ Hd') as [Hact _].
    destruct (Hact A HA) as (p & Hp & Hst & Hat & _).
    exists cs1, c, cs2, p. by split_and!.
Qed.

Lemma promote_is_fifo_witness :
  (∃ w', promote scenario_raised = (Val tt, w') ∧
         assigned_list (registry scenario_raised) = [0; 1]%nat ∧
         awaiting_queue (registry scenario_raised) = [2; 3]%nat ∧
         available_tickets (registry scenario_raised) = 1 ∧
         assigned_list (registry w') = [0; 1; 2]%nat ∧
         awaiting_queue (registry w') = [3%nat] ∧
         clock_reads w' = S (clock_reads scenario_raised) ∧
         status <$> heap scenario_raised !! 2%nat = Some WAITING ∧
         status <$> heap w' !! 2%nat = Some ASSIGNED ∧
         assigned_at <$> heap w' !! 2%nat = Some (Some (clock0 6)) ∧
         heap w' !! 3%nat = heap scenario_raised !! 3%nat) ∧
  ∃ cs1 c cs2 p,
    [CComplete 0%nat; CComplete 1%nat] = cs1 ++ c :: cs2 ∧
    precedes 2%nat 3%nat (awaiting_queue (registry (exec_all cs1 scenario_queue))) ∧
    2%nat ∈ assigned_list (registry (exec_all (cs1 ++ [c]) scenario_queue)) ∧
    (2%nat ∉ awaiting_queue (registry (exec_all (cs1 ++ [c]) scenario_queue))) ∧
    heap (exec_all (cs1 ++ [c]) scenario_queue) !! 2%nat = Some p ∧
    status p = ASSIGNED ∧ is_Some (assigned_at p) ∧
    (3%nat ∈ awaiting_queue (registry (exec_all (cs1 ++ [c]) scenario_queue))
     ∨ precedes 2%nat 3%nat
         (assigned_list (registry (exec_all (cs1 ++ [c]) scenario_queue)))).
Proof.
  split.
  - destruct (promote_is_fifo scenario_raised) as (_ & _ & Hp & _).
    { vm_compute. repeat constructor. }
    destruct Hp as (w' & Hrun & Ha & Hq & _ & _ & _ & Hreads & _ & Hin & Hout).
    destruct (Hin 0%nat 2%nat) as (p & Hp & Hp').
    { vm_compute. reflexivity. }
    { vm_compute. intros H. inversion H. }
    exists w'. split; [exact Hrun|].
    split; [vm_compute; reflexivity|]. split; [vm_compute; reflexivity|].
    split; [vm_compute; reflexivity|].
    split; [rewrite Ha; vm_compute; reflexivity|].
    split; [rewrite Hq; vm_compute; reflexivity|].
    split; [rewrite Hreads; vm_compute; reflexivity|].
    split; [vm_compute; reflexivity|].
    split; [rewrite Hp'; reflexivity|].
    split.
    { rewrite Hp'. cbn [fmap option_fmap option_map assigned_at set_status
                          set_assigned_at]. do 2 f_equal; vm_compute; reflexivity. }
    apply Hout. vm_compute. intros H. inversion H as [|? ? ? H']. inversion H'.
  - destruct (promote_is_fifo scenario_queue) as (_ & _ & _ & Hfifo).
    { vm_compute. repeat constructor. }
    apply (Hfifo 2).
    + apply reachable_driven, reachable_exec_all, scenario_A_reachable.
    + exists [], [], []. vm_compute. reflexivity.
    + vm_compute. intros H. inversion H.
Defined.

(** ** A tick begins with the finished persons *)

(** C7. In every state of the program, those between the ticks of a run
    included, an iteration of the driver's loop begins by (a) subtracting
    exactly 1 from the processing time of every active person, touching
    nobody else, then (b) taking as [finished] the active persons, in
    active-list order, whose time is then at most 0, read after all
    decrements and before any completion, and (c) calling [complete] on each
    of them in that order, every call returning; only then does it go on to
    generate, add, report and sleep, with [finished] as computed.  The
    completed list grows by [finished], which has no repetition; persons
    outside the active list at the start of the tick (such as those promoted
    during it) keep their processing time and are not completed by this tick.
    The loop of [run] is made of such iterations, each starting in the state
    the one before left, which is again a state of the program. *)
Theorem tick_decrements_then_completes lim gen d int w :
  driven lim w →
  let act := assigned_list (registry w) in
  ∃ w1 w2,
    for_each act work w = (Val tt, w1) ∧
    w1 = exec_all (CWork <$> act) w ∧
    registry w1 = registry w ∧
    (∀ r p, r ∈ act → heap w !! r = Some p →
            heap w1 !! r
            = Some (set_processing_time (processing_time p - 1) p)) ∧
    (∀ r, r ∉ act → heap w1 !! r = heap w !! r) ∧
    let finished := filter (λ r, finished_now (heap w1) r) act in
    select_finished act w1 = (Val finished, w1) ∧
    (∀ r, r ∈ finished ↔
          r ∈ act ∧ ∃ p, heap w !! r = Some p ∧ processing_time p - 1 ≤ 0) ∧
    for_each finished complete w1 = (Val tt, w2) ∧
    w2 = exec_all (CComplete <$> finished) w1 ∧
    tick_finish w = (Val finished, w2) ∧
    tick gen d int w
    = (users <- generate gen ;;
       for_each users add ;;
       report_detailed (Z.of_nat (length users)) (Z.of_nat (length finished)) ;;
       sleep int d) w2 ∧
    completed_list (registry w2) = completed_list (registry w) ++ finished ∧
    NoDup finished ∧
    (∀ r, r ∉ act →
          processing_time <$> heap w2 !! r = processing_time <$> heap w !! r) ∧
    driven lim w2 ∧
    driven lim (after (tick gen d int) w) ∧
    ∀ env n,
      run_loop env gen d (S n) w
      = match tick gen d (interrupted env n) w with
        | (Val _, w') => run_loop env gen d n w'
        | (Raise e, w') => (Raise e, w')
        end.
Proof.
  intros Hd act. pose proof (driven_inv lim w Hd) as Hinv.
  pose proof (inv_live_NoDup lim w Hinv) as Hnd. unfold live in Hnd.
  apply NoDup_app in Hnd as (Hnd & _ & _).
  assert (allocated w act) as Hall.
  { destruct Hinv as [[_ Hall _ _ _] _]. unfold live in Hall.
    unfold allocated, ids in *. rewrite length_fmap in Hall. split_Forall. }
  destruct (for_each_work_run act w Hnd Hall) as (h' & Hwork & Hlen & Hids & Hh').
  set (w1 := set_heap h' w) in *.
  assert (inv lim w1) as Hinv1.
  { unfold inv, ids. simpl. by rewrite Hids. }
  assert (select_finished act w1
          = (Val (filter (λ r, finished_now (heap w1) r) act), w1)) as Hsel.
  { apply select_finished_run. unfold allocated. simpl. by rewrite Hlen. }
  set (finished := filter (λ r, finished_now (heap w1) r) act) in *.
  assert (∀ r, r ∈ finished ↔
               r ∈ act ∧ ∃ p, heap w !! r = Some p ∧ processing_time p - 1 ≤ 0)
    as Hfin.
  { intros r. unfold finished. rewrite list_elem_of_filter.
    unfold finished_now. simpl. split.
    - intros [Hr Hact]. split; [done|]. destruct (Hh' r) as [Hin _].
      rewrite (Hin Hact) in Hr. destruct (heap w !! r) as [p|]; [|done].
      simpl in Hr. exists p. split; [done|]. by apply bool_decide_unpack in Hr.
    - intros [Hact (p & Hp & Hle)]. split; [|done]. destruct (Hh' r) as [Hin _].
      rewrite (Hin Hact), Hp. simpl. by apply bool_decide_pack. }
  destruct (for_each_complete_run lim finished w1 Hinv1)
    as (w2 & Hcomp & Hw2 & Hcmp & Hpt).
  { by apply NoDup_filter. }
  { intros r Hr. by apply Hfin in Hr as [Hr _]. }
  assert (w1 = exec_all (CWork <$> act) w) as Hw1.
  { by apply (for_each_exec_all CWork work). }
  assert (tick_finish w = (Val finished, w2)) as Htf.
  { unfold tick_finish, bind, get_registry. fold act. rewrite Hwork.
    change (registry w1) with (registry w). fold act. by rewrite Hsel, Hcomp. }
  assert (driven lim w2) as Hd2.
  { apply (driven_steps lim w); [done|]. rewrite Hw2, Hw1.
    eapply steps_trans; apply steps_exec_all. }
  exists w1, w2. cbv zeta. split_and!; try done.
  - intros r p Hr Hp. destruct (Hh' r) as [Hin _].
    change (heap w1) with h'. by rewrite (Hin Hr), Hp.
  - intros r Hr. destruct (Hh' r) as [_ Hout]. by apply Hout.
  - unfold tick. unfold bind at 1. by rewrite Htf.
  - by apply NoDup_filter.
  - intros r Hr. rewrite Hpt. destruct (Hh' r) as [_ Hout]. simpl.
    by rewrite (Hout Hr).
  - apply (driven_steps lim w); [done | apply stepwise_tick].
Qed.

Lemma tick_decrements_then_completes_witness :
  assigned_list (registry scenario_second_tick) = [1; 2]%nat ∧
  processing_time <$> heap scenario_second_tick = [0; 2; 0; 1] ∧
  (tick_finish scenario_second_tick).1 = Val [2%nat] ∧
  processing_time <$> heap (after tick_finish scenario_second_tick)
  = [0; 1; -1; 1] ∧
  assigned_list (registry (after tick_finish scenario_second_tick))
  = [1; 3]%nat ∧
  ∃ w1 w2,
    for_each (assigned_list (registry scenario_second_tick)) work
             scenario_second_tick = (Val tt, w1) ∧
    tick_finish scenario_second_tick
    = (Val (filter (λ r, finished_now (heap w1) r)
                   (assigned_list (registry scenario_second_tick))), w2) ∧
    tick generator0 0 false scenario_second_tick
    = (users <- generate generator0 ;;
       for_each users add ;;
       report_detailed
         (Z.of_nat (length users))
         (Z.of_nat (length (filter (λ r, finished_now (heap w1) r)
                                   (assigned_list (registry scenario_second_tick))))) ;;
       sleep false 0) w2 ∧
    completed_list (registry w2)
    = completed_list (registry scenario_second_tick)
      ++ filter (λ r, finished_now (heap w1) r)
                (assigned_list (registry scenario_second_tick)) ∧
    driven 2 (after (tick generator0 0 false) scenario_second_tick).
Proof.
  split; [vm_compute; reflexivity|]. split; [vm_compute; reflexivity|].
  split; [vm_compute; reflexivity|]. split; [vm_compute; reflexivity|].
  split; [vm_compute; reflexivity|].
  destruct (tick_decrements_then_completes 2 generator0 0 false
              scenario_second_tick)
    as (w1 & w2 & H1 & _ & _ & _ & _ & _ & _ & _ & _ & H2 & H3 & H4 & _ & _ & _
        & H5 & _).
  { apply (driven_steps 2 scenario_due); [|apply stepwise_tick].
    apply reachable_driven, reachable_exec_all, scenario_A_reachable. }
  exists w1, w2. split; [exact H1|]. split; [exact H2|]. split; [exact H3|].
  split; [exact H4 | exact H5].
Defined.

(** ** The loop of [promote], round by round *)

Lemma promote_loop_invariant (P : World → Prop) :
  (∀ w r q p, P w → awaiting_queue (registry w) = r :: q →
              available_tickets (registry w) > 0 → heap w !! r = Some p →
              P (promote_step r q p w)) →
  ∀ fuel w, allocated w (awaiting_queue (registry w)) → P w →
            P (promote_loop fuel w).2.
Proof.
  intros Hstep fuel. induction fuel as [|fuel IH]; intros w Hall HP;
    destruct (decide (awaiting_queue (registry w) ≠ []
                      ∧ available_tickets (registry w) > 0)) as [[Hq Hav]|Hc].
  - cbn. rewrite decide_True by done. done.
  - by rewrite promote_loop_exit.
  - destruct (awaiting_queue (registry w)) as [|r q] eqn:Eq; [done|].
    apply Forall_cons in Hall as [Hr Hall].
    destruct (lookup_lt_is_Some_2 _ _ Hr) as [p Hp].
    rewrite (promote_loop_iter fuel w r q p Eq Hav Hp).
    apply IH.
    + unfold allocated. simpl. by rewrite length_insert.
    + by apply (Hstep w r q p).
  - by rewrite promote_loop_exit.
Qed.

Lemma promote_invariant (P : World → Prop) :
  (∀ w r q p, P w → awaiting_queue (registry w) = r :: q →
              available_tickets (registry w) > 0 → heap w !! r = Some p →
              P (promote_step r q p w)) →
  ∀ w, allocated w (awaiting_queue (registry w)) → P w → P (promote w).2.
Proof.
  intros Hstep w Hall HP. unfold promote, bind, get_registry. simpl.
  by apply promote_loop_invariant.
Qed.

Lemma promote_frame w :
  allocated w (awaiting_queue (registry w)) →
  clock (promote w).2 = clock w ∧ entropy (promote w).2 = entropy w ∧
  entropy_reads (promote w).2 = entropy_reads w.
Proof.
  intros Hall.
  apply (promote_invariant (λ w', clock w' = clock w ∧ entropy w' = entropy w ∧
                                  entropy_reads w' = entropy_reads w));
    [|done..].
  intros w' r q p HP _ _ _. exact HP.
Qed.

Lemma inv_allocated lim w : inv lim w → allocated w (awaiting_queue (registry w)).
Proof.
  intros [[_ Hall _ _ _] _]. unfold live in Hall.
  unfold allocated, ids in *. rewrite length_fmap in Hall.
  split_Forall.
Qed.

(** ** Nothing is lost *)

Lemma same_person_refl p : same_person p p.
Proof. by split_and!. Qed.

Lemma same_person_trans p1 p2 p3 :
  same_person p1 p2 → same_person p2 p3 → same_person p1 p3.
Proof.
  intros (Hi1 & Ht1 & Hr1 & Ha1 & Hc1) (Hi2 & Ht2 & Hr2 & Ha2 & Hc2).
  split_and!; [by rewrite Hi2 | lia | | tauto..].
  intros t Ht. by apply Hr2, Hr1.
Qed.

Lemma same_person_newcomer w d p : same_person p (newcomer w d p).
Proof.
  unfold newcomer. destruct (registered_at p) eqn:Hr; destruct d;
    split_and!; simpl; eauto; try lia; try (intros t Ht; congruence).
Qed.

Lemma heap_kept_refl h : heap_kept h h.
Proof. intros r p Hp. exists p. split; [done | apply same_person_refl]. Qed.

Lemma heap_kept_trans h1 h2 h3 :
  heap_kept h1 h2 → heap_kept h2 h3 → heap_kept h1 h3.
Proof.
  intros H12 H23 r p Hp. destruct (H12 r p Hp) as (p2 & Hp2 & Hs2).
  destruct (H23 r p2 Hp2) as (p3 & Hp3 & Hs3).
  exists p3. split; [done | by eapply same_person_trans].
Qed.

Lemma heap_kept_insert (h : list Person) (r : ref) p p' :
  h !! r = Some p → same_person p p' → heap_kept h (<[r := p']> h).
Proof.
  intros Hp Hs r' q Hq. destruct (decide (r = r')) as [->|Hne].
  - rewrite Hp in Hq. injection Hq as ->. exists p'.
    split; [|done]. apply list_lookup_insert_eq. by eapply lookup_lt_Some.
  - exists q. split; [by rewrite list_lookup_insert_ne | apply same_person_refl].
Qed.

Lemma heap_kept_app (h l : list Person) : heap_kept h (h ++ l).
Proof.
  intros r p Hp. exists p. split; [by apply lookup_app_l_Some|].
  apply same_person_refl.
Qed.

Lemma heap_kept_assigned_in rs (h h' : list Person) :
  assigned_in rs h h' → heap_kept h h'.
Proof.
  intros [_ Hrs] r p Hp. destruct (Hrs r) as [Hin Hout].
  destruct (decide (r ∈ rs)) as [Hr|Hr].
  - destruct (Hin Hr) as (p0 & t & Hp0 & Hp'). rewrite Hp in Hp0.
    injection Hp0 as <-. exists (assigned_at_time t p).
    split_and!; simpl; try done; try lia; eauto.
  - exists p. split; [by rewrite (Hout Hr) | apply same_person_refl].
Qed.

Lemma grows_refl w : grows w w.
Proof. split_and!; try done. apply heap_kept_refl. Qed.

Lemma grows_trans w1 w2 w3 : grows w1 w2 → grows w2 w3 → grows w1 w3.
Proof.
  intros (Hh1 & Hc1 & Hl1 & Hm1 & Hi1 & Hk1 & He1)
         (Hh2 & Hc2 & Hl2 & Hm2 & Hi2 & Hk2 & He2).
  split_and!.
  - by eapply heap_kept_trans.
  - by etrans.
  - by etrans.
  - intros r Hr. by apply Hm2, Hm1.
  - by rewrite Hi2.
  - by rewrite Hk2.
  - by rewrite He2.
Qed.

Lemma grows_exec lim w c : inv lim w → grows w (after (exec c) w).
Proof.
  intros Hinv. destruct c as [n s e pt|r|r| |r|a f]; unfold after; cbn [exec].
  - simpl. split_and!; try done. apply heap_kept_app.
  - destruct (heap w !! r) as [p|] eqn:Hp.
    2:{ rewrite add_run_dangling by done. apply grows_refl. }
    destruct (decide (id_no p ∈ seen_ids (registry w))) as [Hseen|Hseen].
    { rewrite (add_run_duplicate r w p) by done. simpl.
      split_and!; try done; [apply heap_kept_refl | by apply prefix_app_r]. }
    destruct (decide (available_tickets (registry w) > 0)) as [Hav|Hav].
    + rewrite (add_run_direct r w p) by done. unfold grows, live. simpl.
      split_and!; try done.
      * apply heap_kept_insert with p; [done | apply same_person_newcomer].
      * intros r'. rewrite !elem_of_app. tauto.
    + rewrite (add_run_queued r w p) by done. unfold grows, live. simpl.
      split_and!; try done.
      * apply heap_kept_insert with p; [done | apply same_person_newcomer].
      * intros r'. rewrite !elem_of_app. tauto.
  - destruct (heap w !! r) as [p|] eqn:Hp.
    2:{ rewrite complete_run_dangling by done. simpl.
        split_and!; try done. apply heap_kept_refl. }
    destruct (decide (r ∈ assigned_list (registry w))) as [Hr|Hr].
    + destruct (complete_run_inv lim w r Hinv Hr)
        as (p' & l & w' & Hp' & Hl & _ & _ & Hrun & Hreg & Hheap & Hlog).
      rewrite Hp in Hp'. injection Hp' as <-.
      destruct (promote_frame (released r p l w)) as (Hclk & Hent & _).
      { pose proof (inv_allocated lim w Hinv) as Hall.
        unfold allocated in *. simpl. by rewrite length_insert. }
      rewrite <- (complete_run_active r w p l Hp Hl), Hrun in Hclk, Hent.
      rewrite Hrun. clear Hrun.
      apply list_remove_Some in Hl as (l1 & l2 & Hasg & _ & ->).
      unfold grows. simpl. rewrite Hreg, Hlog, promoted_live.
      unfold live, promoted. simpl.
      apply heap_kept_assigned_in in Hheap. simpl in Hheap.
      split_and!; try done.
      * eapply heap_kept_trans; [|exact Hheap].
        apply heap_kept_insert with p; [done|].
        split_and!; simpl; try done; try lia; eauto.
      * by apply prefix_app_r.
      * intros r'. rewrite Hasg. rewrite !elem_of_app, elem_of_cons.
        rewrite list_elem_of_singleton. tauto.
    + rewrite (complete_run_absent r w p Hp Hr). simpl.
      split_and!; try done. apply heap_kept_insert with p; [done|].
      split_and!; simpl; try done; try lia; eauto.
  - pose proof (inv_allocated lim w Hinv) as Hall.
    destruct (promote_frame w Hall) as (Hclk & Hent & _).
    destruct (promote_run w Hall) as (w' & Hrun & Hreg & Hheap & Hlog).
    rewrite Hrun in *. simpl in Hclk, Hent.
    unfold grows. simpl. rewrite Hreg, Hlog, promoted_live.
    split_and!; try done. by eapply heap_kept_assigned_in.
  - rewrite work_run. destruct (heap w !! r) as [p|] eqn:Hp; [|apply grows_refl].
    simpl. split_and!; try done. apply heap_kept_insert with p; [done|].
    split_and!; simpl; [done | lia | done..].
  - simpl. split_and!; try done; [apply heap_kept_refl | by apply prefix_app_r].
Qed.

Lemma grows_steps lim w w' : inv lim w → steps_to w w' → grows w w'.
Proof.
  intros Hinv Hsteps. induction Hsteps as [| w' c Hs IH | w' Hs IH | w' m Hs IH].
  - apply grows_refl.
  - eapply grows_trans; [exact IH|].
    apply (grows_exec lim). by apply (inv_steps lim w).
  - eapply grows_trans; [exact IH|]. unfold after. simpl.
    split_and!; try done. apply heap_kept_refl.
  - eapply grows_trans; [exact IH|]. unfold after. simpl.
    split_and!; try done; [apply heap_kept_refl | by apply prefix_app_r].
Qed.

(** ** What a person keeps, and what the registry never loses *)

(** X3. From a state of the program on, whatever calls, random draws and log
    lines follow (so over any ticks of the driver as well), a person on the
    heap stays there with the same identifier, name, surname and e-mail; its
    processing time is never more than it was; its registration time-stamp,
    once set, is never overwritten ([add] calls [register] only when
    [registered_at] is [None]); and [assigned_at] and [completed_at], once
    set, are never unset. *)
Theorem person_keeps_identity lim w w' r p :
  driven lim w → steps_to w w' → heap w !! r = Some p →
  ∃ p', heap w' !! r = Some p' ∧
        id_no p' = id_no p ∧ name p' = name p ∧ surname p' = surname p ∧
        email p' = email p ∧
        processing_time p' ≤ processing_time p ∧
        (∀ t, registered_at p = Some t → registered_at p' = Some t) ∧
        (is_Some (assigned_at p) → is_Some (assigned_at p')) ∧
        (is_Some (completed_at p) → is_Some (completed_at p')).
Proof.
  intros Hd Hs Hp.
  destruct (grows_steps lim w w' (driven_inv lim w Hd) Hs) as (Hh & _).
  destruct (Hh r p Hp) as (p' & Hp' & Hid & Ht & Hr & Ha & Hc).
  exists p'. unfold person_identity in Hid. injection Hid as Hi Hn Hsn He.
  by split_and!.
Qed.

Lemma person_keeps_identity_witness :
  ∃ p p', heap scenario_A !! 0%nat = Some p ∧
          heap scenario_done !! 0%nat = Some p' ∧
          id_no p' = id_no p ∧ name p' = name p ∧ surname p' = surname p ∧
          email p' = email p ∧
          processing_time p' ≤ processing_time p ∧
          (∀ t, registered_at p = Some t → registered_at p' = Some t) ∧
          (is_Some (assigned_at p) → is_Some (assigned_at p')) ∧
          (is_Some (completed_at p) → is_Some (completed_at p')).
Proof.
  let o := eval vm_compute in (heap scenario_A !! 0%nat) in
  match o with
  | Some ?p =>
      destruct (person_keeps_identity 2 scenario_A scenario_done 0%nat p)
        as (p' & Hp' & H);
      [ apply reachable_driven, reachable_exec_all, reachable_init
      | apply steps_exec_all
      | vm_compute; reflexivity
      | exists p, p'; split; [vm_compute; reflexivity | split; [exact Hp' | exact H]] ]
  end.
Defined.

(** X4. From a state of the program on, whatever calls, random draws and log
    lines follow, the completed list and the log are only appended to, the
    limit stays the same, and nobody is dropped: a person in the active list,
    the queue or the completed list is still in one of the three. *)
Theorem registry_never_loses lim w w' :
  driven lim w → steps_to w w' →
  completed_list (registry w) `prefix_of` completed_list (registry w') ∧
  log w `prefix_of` log w' ∧
  limit (registry w') = limit (registry w) ∧
  ∀ r, r ∈ assigned_list (registry w) ++ awaiting_queue (registry w)
           ++ completed_list (registry w) →
       r ∈ assigned_list (registry w') ++ awaiting_queue (registry w')
           ++ completed_list (registry w').
Proof.
  intros Hd Hs.
  destruct (grows_steps lim w w' (driven_inv lim w Hd) Hs)
    as (_ & Hc & Hl & Hm & Hlim & _).
  split_and!; try done. intros r. rewrite !(assoc (++)). apply Hm.
Qed.

Lemma registry_never_loses_witness :
  completed_list (registry scenario_due)
    `prefix_of` completed_list (registry (after (tick generator0 0 false) scenario_due)) ∧
  log scenario_due `prefix_of` log (after (tick generator0 0 false) scenario_due) ∧
  limit (registry (after (tick generator0 0 false) scenario_due))
  = limit (registry scenario_due) ∧
  ∀ r, r ∈ assigned_list (registry scenario_due)
           ++ awaiting_queue (registry scenario_due)
           ++ completed_list (registry scenario_due) →
       r ∈ assigned_list (registry (after (tick generator0 0 false) scenario_due))
           ++ awaiting_queue (registry (after (tick generator0 0 false) scenario_due))
           ++ completed_list (registry (after (tick generator0 0 false) scenario_due)).
Proof.
  apply (registry_never_loses 2 scenario_due (after (tick generator0 0 false) scenario_due)).
  - apply reachable_driven, reachable_exec_all, scenario_A_reachable.
  - apply stepwise_tick.
Defined.

(** ** A batch of newcomers *)

Lemma newcomer_id w d p : id_no (newcomer w d p) = id_no p.
Proof. unfold newcomer. by destruct (registered_at p), d. Qed.

Lemma newcomer_waiting w p :
  registered_at p = None →
  status (newcomer w false p) = WAITING ∧ is_Some (registered_at (newcomer w false p)).
Proof. intros Hr. unfold newcomer. rewrite Hr. simpl. eauto. Qed.

Lemma for_each_add_run rs w :
  allocated w rs → NoDup (uid w <$> rs) →
  (∀ r, r ∈ rs → uid w r ∉ seen_ids (registry w)) →
  ∃ w', for_each rs add w = (Val tt, w') ∧
        registry w'
        = mk_Registry (limit (registry w))
                      (assigned_list (registry w) ++ take (admitted w rs) rs)
                      (awaiting_queue (registry w) ++ drop (admitted w rs) rs)
                      (completed_list (registry w))
                      (list_to_set (uid w <$> rs) ∪ seen_ids (registry w)) ∧
        ids w' = ids w ∧ log w' = log w ∧
        (∀ r, r ∉ rs → heap w' !! r = heap w !! r) ∧
        (∀ r, r ∈ take (admitted w rs) rs →
              ∃ p', heap w' !! r = Some p' ∧ active_ok p') ∧
        (∀ r p, r ∈ drop (admitted w rs) rs → heap w !! r = Some p →
                registered_at p = None →
                ∃ p', heap w' !! r = Some p' ∧ status p' = WAITING
                      ∧ is_Some (registered_at p')).
Proof.
  revert w. induction rs as [|r rs IH]; intros w Hall Hnd Hseen.
  - exists w. unfold admitted. simpl. rewrite !app_nil_r.
    split_and!; try done.
    + destruct (registry w). simpl. f_equal. by rewrite (left_id_L ∅ (∪)).
    + by intros r ?%elem_of_nil.
    + by intros r p ?%elem_of_nil.
  - apply Forall_cons in Hall as [Hr Hall].
    destruct (lookup_lt_is_Some_2 _ _ Hr) as [p Hp].
    rewrite fmap_cons in Hnd. apply NoDup_cons in Hnd as [Hr' Hnd].
    pose proof (uid_Some w r p Hp) as Hu.
    assert (r ∉ rs) as Hrs.
    { intros Hin. apply Hr'. apply list_elem_of_fmap. by exists r. }
    assert (id_no p ∉ seen_ids (registry w)) as Hfresh.
    { rewrite <- Hu. apply Hseen. left. }
    assert (∀ d : bool, ids (set_registry
                   (mk_Registry (limit (registry w))
                      (if d then assigned_list (registry w) ++ [r]
                       else assigned_list (registry w))
                      (if d then awaiting_queue (registry w)
                       else awaiting_queue (registry w) ++ [r])
                      (completed_list (registry w))
                      ({[id_no p]} ∪ seen_ids (registry w)))
                   (set_heap (<[r := newcomer w d p]> (heap w))
                             (set_clock_reads (newcomer_reads w d p) w)))
                 = ids w) as Hids.
    { intros d. unfold ids. simpl. apply (ids_insert _ _ p); [done|].
      apply newcomer_id. }
    simpl for_each. unfold bind at 1.
    destruct (decide (available_tickets (registry w) > 0)) as [Hav|Hav].
    + rewrite (add_run_direct r w p) by done.
      specialize (Hids true). simpl in Hids.
      set (w1 := set_registry _ _) in *.
      destruct (IH w1) as (w' & Hrun & Hreg & Hids' & Hlog & Hout & Hact & Hwait).
      { unfold allocated, w1. simpl. by rewrite length_insert. }
      { unfold uid. by rewrite Hids. }
      { intros r' Hr'0. unfold uid. rewrite Hids. simpl.
        rewrite elem_of_union, elem_of_singleton. intros [Heq|Hin].
        - apply Hr'. rewrite Hu, <- Heq. apply list_elem_of_fmap. by exists r'.
        - apply (Hseen r'); [by right | done]. }
      assert (admitted w (r :: rs) = S (admitted w1 rs)) as Hk.
      { unfold admitted, available_tickets, w1, set_registry.
        unfold available_tickets in Hav.
        cbn [registry limit assigned_list length]. rewrite length_app.
        cbn [length]. lia. }
      exists w'. rewrite Hrun, Hreg, Hids', Hids, Hlog, Hk. simpl.
      unfold uid at 1. rewrite Hids. fold (uid w). rewrite Hu.
      split_and!; try done.
      * f_equal; [by rewrite <- app_assoc |].
        by rewrite (assoc_L (∪)), (comm_L (∪) _ {[id_no p]}).
      * intros r' Hr'0. rewrite not_elem_of_cons in Hr'0.
        destruct Hr'0 as [Hne Hr'0]. rewrite (Hout r' Hr'0). simpl.
        by rewrite list_lookup_insert_ne.
      * intros r' [->|Hin]%elem_of_cons; [|by apply Hact].
        exists (newcomer w true p). split; [|apply newcomer_direct_ok].
        rewrite (Hout r Hrs). simpl. apply list_lookup_insert_eq.
        by eapply lookup_lt_Some.
      * intros r' p' Hin Hp' Hnone. apply (Hwait r' p'); [done| |done].
        simpl. rewrite list_lookup_insert_ne; [done|].
        intros ->. apply Hrs. by eapply subseteq_drop.
    + rewrite (add_run_queued r w p) by done.
      specialize (Hids false). simpl in Hids.
      set (w1 := set_registry _ _) in *.
      destruct (IH w1) as (w' & Hrun & Hreg & Hids' & Hlog & Hout & Hact & Hwait).
      { unfold allocated, w1. simpl. by rewrite length_insert. }
      { unfold uid. by rewrite Hids. }
      { intros r' Hr'0. unfold uid. rewrite Hids. simpl.
        rewrite elem_of_union, elem_of_singleton. intros [Heq|Hin].
        - apply Hr'. rewrite Hu, <- Heq. apply list_elem_of_fmap. by exists r'.
        - apply (Hseen r'); [by right | done]. }
      assert (admitted w (r :: rs) = 0%nat ∧ admitted w1 rs = 0%nat) as [Hk Hk1].
      { unfold admitted, available_tickets, w1, set_registry.
        unfold available_tickets in Hav.
        cbn [registry limit assigned_list length]. lia. }
      exists w'. rewrite Hrun, Hreg, Hids', Hids, Hlog, Hk. rewrite Hk1 in *. simpl.
      unfold uid at 1. rewrite Hids. fold (uid w). rewrite Hu.
      rewrite !drop_0 in *. rewrite !app_nil_r.
      split_and!; try done.
      * f_equal; [by rewrite <- app_assoc |].
        by rewrite (assoc_L (∪)), (comm_L (∪) _ {[id_no p]}).
      * intros r' Hr'0. rewrite not_elem_of_cons in Hr'0.
        destruct Hr'0 as [Hne Hr'0]. rewrite (Hout r' Hr'0). simpl.
        by rewrite list_lookup_insert_ne.
      * intros r' p' [->|Hin]%elem_of_cons Hp' Hnone.
        -- rewrite Hp in Hp'. injection Hp' as <-.
           exists (newcomer w false p). rewrite (Hout r Hrs). simpl.
           split; [|by apply newcomer_waiting].
           apply list_lookup_insert_eq. by eapply lookup_lt_Some.
        -- apply (Hwait r' p'); [done| |done].
           simpl. rewrite list_lookup_insert_ne; [done|].
           intros ->. by apply Hrs.
Qed.

(** X5. Adding a batch of persons whose identifiers differ from each other
    and from the seen ones (the loop [for user in users: add(user)] of the
    driver) returns, logs nothing, and splits the batch in order: as many
    persons as there are free tickets, from the front, are appended to the
    active list and are ASSIGNED with both time-stamps set; the rest are
    appended to the queue, behind those who already wait, and are WAITING if
    they had not been registered before.  All their identifiers are seen
    afterwards, the completed list is untouched, and so is everybody else. *)
Theorem add_batch_fills_tickets w rs :
  allocated w rs → NoDup (uid w <$> rs) →
  (∀ r, r ∈ rs → uid w r ∉ seen_ids (registry w)) →
  ∃ w', for_each rs add w = (Val tt, w') ∧
        assigned_list (registry w')
        = assigned_list (registry w) ++ take (admitted w rs) rs ∧
        awaiting_queue (registry w')
        = awaiting_queue (registry w) ++ drop (admitted w rs) rs ∧
        completed_list (registry w') = completed_list (registry w) ∧
        seen_ids (registry w')
        = list_to_set (uid w <$> rs) ∪ seen_ids (registry w) ∧
        log w' = log w ∧
        (∀ r, r ∉ rs → heap w' !! r = heap w !! r) ∧
        (∀ r, r ∈ take (admitted w rs) rs →
              ∃ p', heap w' !! r = Some p' ∧ status p' = ASSIGNED
                    ∧ is_Some (assigned_at p') ∧ is_Some (registered_at p')) ∧
        (∀ r p, r ∈ drop (admitted w rs) rs → heap w !! r = Some p →
                registered_at p = None →
                ∃ p', heap w' !! r = Some p' ∧ status p' = WAITING
                      ∧ is_Some (registered_at p')).
Proof.
  intros Hall Hnd Hseen.
  destruct (for_each_add_run rs w Hall Hnd Hseen)
    as (w' & Hrun & Hreg & _ & Hlog & Hout & Hact & Hwait).
  exists w'. rewrite Hreg. simpl. split_and!; done.
Qed.

Lemma add_batch_fills_tickets_witness :
  ∃ w', for_each [3; 4; 5]%nat add scenario_arrivals = (Val tt, w') ∧
        assigned_list (registry w') = [2; 3]%nat ∧
        awaiting_queue (registry w') = [4; 5]%nat ∧
        completed_list (registry w') = [0; 1]%nat ∧
        log w' = log scenario_arrivals.
Proof.
  destruct (add_batch_fills_tickets scenario_arrivals [3; 4; 5]%nat)
    as (w' & Hrun & Ha & Hq & Hc & _ & Hlog & _).
  - vm_compute. repeat constructor.
  - apply (bool_decide_unpack _). vm_compute. reflexivity.
  - apply Forall_forall. apply (bool_decide_unpack _). vm_compute. reflexivity.
  - exists w'. split; [exact Hrun|].
    split; [rewrite Ha; vm_compute; reflexivity|].
    split; [rewrite Hq; vm_compute; reflexivity|].
    split; [rewrite Hc; vm_compute; reflexivity|].
    exact Hlog.
Defined.

(** ** A completed person comes back *)

Lemma newcomer_registered w (d : bool) p t :
  registered_at p = Some t →
  newcomer w d p = if d then assigned_at_time (clock w (clock_reads w)) p else p.
Proof. intros Hr. unfold newcomer. by rewrite Hr. Qed.

(** X6. [complete] discards the identifier of the person it completes, so
    the same [Person] object can be added again at once: the second [add]
    is not rejected as a duplicate and logs nothing.  The person is then in
    the completed list and live at the same time.  [add] does not call
    [register] again, so the registration time-stamp is the old one, and the
    completion time-stamp stays; with a free ticket the person is active and
    ASSIGNED, without one it is the last of the queue and still COMPLETED,
    not WAITING. *)
Theorem completed_person_is_admitted_again lim w r :
  driven lim w → r ∈ assigned_list (registry w) →
  ∃ w1 p1 w2 p2,
    complete r w = (Val tt, w1) ∧ heap w1 !! r = Some p1 ∧
    status p1 = COMPLETED ∧ (id_no p1 ∉ seen_ids (registry w1)) ∧
    add r w1 = (Val tt, w2) ∧ log w2 = log w ∧ heap w2 !! r = Some p2 ∧
    r ∈ completed_list (registry w2) ∧ r ∈ live (registry w2) ∧
    id_no p2 ∈ seen_ids (registry w2) ∧
    is_Some (registered_at p1) ∧ registered_at p2 = registered_at p1 ∧
    is_Some (completed_at p1) ∧ completed_at p2 = completed_at p1 ∧
    if decide (available_tickets (registry w1) > 0)
    then last (assigned_list (registry w2)) = Some r ∧ status p2 = ASSIGNED
    else last (awaiting_queue (registry w2)) = Some r ∧ status p2 = COMPLETED.
Proof.
  intros Hd Hr. pose proof (driven_inv lim w Hd) as Hinv.
  destruct (driven_status_inv lim w Hd) as [Hact _].
  destruct (Hact r Hr) as (p & Hp & _ & _ & [t Ht]).
  destruct (complete_run_inv lim w r Hinv Hr)
    as (p' & l & w1 & Hp' & Hl & _ & Hq & Hrun & Hreg & [_ Hheap] & Hlog).
  rewrite Hp in Hp'. injection Hp' as <-.
  set (p1 := completed_at_time (clock w (clock_reads w)) p).
  assert (heap w1 !! r = Some p1) as Hp1.
  { destruct (Hheap r) as [_ ->].
    - simpl. apply list_lookup_insert_eq. by eapply lookup_lt_Some.
    - intros Hin. apply Hq. by eapply subseteq_take. }
  assert (id_no p1 ∉ seen_ids (registry w1)) as Hfresh.
  { rewrite Hreg. simpl. intros [_ Hn]%elem_of_difference.
    apply Hn. by apply elem_of_singleton. }
  assert (r ∈ completed_list (registry w1)) as Hc.
  { rewrite Hreg. simpl. rewrite elem_of_app, list_elem_of_singleton. by right. }
  assert (registered_at p1 = Some t) as Ht1 by done.
  exists w1, p1.
  destruct (decide (available_tickets (registry w1) > 0)) as [Hav|Hav].
  - exists (after (add r) w1), (newcomer w1 true p1). unfold after.
    rewrite (add_run_direct r w1 p1) by done.
    rewrite (newcomer_registered w1 true p1 t Ht1). unfold live. simpl.
    rewrite Ht. simpl. rewrite last_snoc.
    split_and!; eauto.
    + apply list_lookup_insert_eq. by eapply lookup_lt_Some.
    + rewrite !elem_of_app, list_elem_of_singleton. tauto.
    + by apply elem_of_union_l, elem_of_singleton.
  - exists (after (add r) w1), (newcomer w1 false p1). unfold after.
    rewrite (add_run_queued r w1 p1) by done.
    rewrite (newcomer_registered w1 false p1 t Ht1). unfold live. simpl.
    rewrite Ht. simpl. rewrite last_snoc.
    split_and!; eauto.
    + apply list_lookup_insert_eq. by eapply lookup_lt_Some.
    + rewrite !elem_of_app, list_elem_of_singleton. tauto.
    + by apply elem_of_union_l, elem_of_singleton.
Qed.

Lemma completed_person_is_admitted_again_witness :
  ∃ w1 p1 w2 p2,
    complete 0%nat scenario_A = (Val tt, w1) ∧ heap w1 !! 0%nat = Some p1 ∧
    status p1 = COMPLETED ∧ (id_no p1 ∉ seen_ids (registry w1)) ∧
    add 0%nat w1 = (Val tt, w2) ∧ log w2 = log scenario_A ∧
    heap w2 !! 0%nat = Some p2 ∧
    0%nat ∈ completed_list (registry w2) ∧ 0%nat ∈ live (registry w2) ∧
    id_no p2 ∈ seen_ids (registry w2) ∧
    is_Some (registered_at p1) ∧ registered_at p2 = registered_at p1 ∧
    is_Some (completed_at p1) ∧ completed_at p2 = completed_at p1 ∧
    if decide (available_tickets (registry w1) > 0)
    then last (assigned_list (registry w2)) = Some 0%nat ∧ status p2 = ASSIGNED
    else last (awaiting_queue (registry w2)) = Some 0%nat ∧ status p2 = COMPLETED.
Proof.
  apply (completed_person_is_admitted_again 2 scenario_A 0%nat).
  - apply reachable_driven, scenario_A_reachable.
  - vm_compute. left.
Defined.

(** ** The identifiers [uuid4] makes *)

Lemma uuid4_of_bits n k :
  N.testbit (uuid4_of n) k
  = (((N.testbit (n mod 2 ^ 128) k && negb (N.testbit (N.shiftl 0xc000 48) k))
      || N.testbit (N.shiftl 0x8000 48) k)
     && negb (N.testbit (N.shiftl 0xf000 64) k))
    || N.testbit (N.shiftl 4 76) k.
Proof.
  unfold uuid4_of. cbv zeta.
  by rewrite N.lor_spec, N.ldiff_spec, N.lor_spec, N.ldiff_spec.
Qed.

Lemma log2_lt_128 a : (a < 2 ^ 128 → N.log2 a < 128)%N.
Proof.
  intros Ha. destruct (decide (a = 0%N)) as [->|Hne]; [done|].
  apply N.log2_lt_pow2; [lia | done].
Qed.

Lemma uuid4_of_lt n : (uuid4_of n < 2 ^ 128)%N.
Proof.
  destruct (decide (uuid4_of n = 0%N)) as [->|Hne]; [done|].
  apply N.log2_lt_pow2; [lia|].
  unfold uuid4_of. cbv zeta. rewrite N.log2_lor. apply N.max_lub_lt; [|done].
  eapply N.le_lt_trans; [apply N.log2_le_mono, N.ldiff_le_l|].
  rewrite N.log2_lor. apply N.max_lub_lt; [|done].
  eapply N.le_lt_trans; [apply N.log2_le_mono, N.ldiff_le_l|].
  apply log2_lt_128. apply N.mod_lt. done.
Qed.

Lemma uuid4_of_version n : N.land (N.shiftr (uuid4_of n) 76) 0xf = 4%N.
Proof.
  apply N.bits_inj. intros k.
  rewrite N.land_spec, N.shiftr_spec', uuid4_of_bits.
  destruct (decide (k < 4)%N) as [Hk|Hk].
  - assert (k = 0 ∨ k = 1 ∨ k = 2 ∨ k = 3)%N as [->|[->|[->| ->]]] by lia;
      destruct (N.testbit (n mod 2 ^ 128) _); vm_compute; reflexivity.
  - rewrite (N.bits_above_log2 0xf k), (N.bits_above_log2 4 k)
      by (simpl; lia).
    apply andb_false_r.
Qed.

Lemma uuid4_of_variant n : N.land (N.shiftr (uuid4_of n) 62) 3 = 2%N.
Proof.
  apply N.bits_inj. intros k.
  rewrite N.land_spec, N.shiftr_spec', uuid4_of_bits.
  destruct (decide (k < 2)%N) as [Hk|Hk].
  - assert (k = 0 ∨ k = 1)%N as [->| ->] by lia;
      destruct (N.testbit (n mod 2 ^ 128) _); vm_compute; reflexivity.
  - rewrite (N.bits_above_log2 3 k), (N.bits_above_log2 2 k)
      by (simpl; lia).
    apply andb_false_r.
Qed.

(** ** What holds of every person of the program *)

Section persons.
Variable Q : Person → Prop.
Variable clk : nat → datetime.
Hypothesis Q_init :
  ∀ n s e pt u, Q (mk_Person n s e pt None None None UNASSIGNED (uuid4_of u)).
Hypothesis Q_registered : ∀ p k, Q p → Q (registered_at_time (clk k) p).
Hypothesis Q_assigned : ∀ p k, Q p → Q (assigned_at_time (clk k) p).
Hypothesis Q_completed : ∀ p k, Q p → Q (completed_at_time (clk k) p).
Hypothesis Q_decremented : ∀ p, Q p → Q (decremented p).

Lemma Q_newcomer w d p : clock w = clk → Q p → Q (newcomer w d p).
Proof using Q_registered Q_assigned.
  intros Hclk HQ. unfold newcomer. rewrite Hclk.
  destruct (registered_at p), d; auto.
Qed.

Lemma persons_ok_promote w :
  allocated w (awaiting_queue (registry w)) →
  persons_ok Q clk w → persons_ok Q clk (promote w).2.
Proof using Q_assigned.
  intros Hall Hok. apply (promote_invariant (persons_ok Q clk)); [|done..].
  intros w' r q p [Hclk HQ] _ _ Hp. split; [done|]. simpl.
  apply Forall_insert; [done|]. rewrite Hclk. apply Q_assigned.
  by eapply Forall_lookup_1.
Qed.

Lemma persons_ok_exec lim w c :
  inv lim w → persons_ok Q clk w → persons_ok Q clk (after (exec c) w).
Proof using All.
  intros Hinv [Hclk HQ]. destruct c as [n s e pt|r|r| |r|a f];
    unfold after; cbn [exec].
  - split; [done|]. simpl. apply Forall_app. split; [done|].
    apply Forall_singleton, Q_init.
  - destruct (heap w !! r) as [p|] eqn:Hp.
    2:{ by rewrite add_run_dangling by done. }
    pose proof (Forall_lookup_1 _ _ _ _ HQ Hp) as HQp.
    destruct (decide (id_no p ∈ seen_ids (registry w))) as [Hseen|Hseen].
    { by rewrite (add_run_duplicate r w p) by done. }
    destruct (decide (available_tickets (registry w) > 0)) as [Hav|Hav].
    + rewrite (add_run_direct r w p) by done. split; [done|]. simpl.
      apply Forall_insert; [done|]. by apply Q_newcomer.
    + rewrite (add_run_queued r w p) by done. split; [done|]. simpl.
      apply Forall_insert; [done|]. by apply Q_newcomer.
  - destruct (heap w !! r) as [p|] eqn:Hp.
    2:{ by rewrite complete_run_dangling by done. }
    pose proof (Forall_lookup_1 _ _ _ _ HQ Hp) as HQp.
    assert (persons_ok Q clk
              (set_heap (<[r := completed_at_time (clock w (clock_reads w)) p]>
                           (heap w))
                        (set_clock_reads (S (clock_reads w)) w))) as Hok.
    { split; [done|]. simpl. apply Forall_insert; [done|].
      rewrite Hclk. by apply Q_completed. }
    destruct (list_remove r (assigned_list (registry w))) as [l|] eqn:Hl.
    + rewrite (complete_run_active r w p l Hp Hl).
      apply persons_ok_promote.
      * pose proof (inv_allocated lim w Hinv) as Hall.
        unfold allocated in *. simpl. by rewrite length_insert.
      * exact Hok.
    + rewrite (complete_run_absent r w p Hp); [exact Hok|].
      intros Hr. apply list_remove_is_Some in Hr as [l' Hl']. congruence.
  - apply persons_ok_promote; [by eapply inv_allocated | done].
  - rewrite work_run. destruct (heap w !! r) as [p|] eqn:Hp; [|done].
    split; [done|]. simpl. apply Forall_insert; [done|].
    apply Q_decremented. by eapply Forall_lookup_1.
  - done.
Qed.

Lemma persons_ok_steps lim ent w :
  steps_to (init_world lim clk ent) w → persons_ok Q clk w.
Proof using All.
  intros Hs.
  assert (inv lim (init_world lim clk ent)) as Hinv0.
  { split; [apply core_init | by intros ?]. }
  induction Hs as [| w' c Hs IH | w' Hs IH | w' m Hs IH].
  - split; [done | constructor].
  - apply (persons_ok_exec lim); [by eapply inv_steps | done].
  - done.
  - done.
Qed.
End persons.

Lemma pad_num_length base w n : length (pad_num base w n) = w.
Proof. induction w as [|w IH]; simpl; [done | by rewrite IH]. Qed.

Lemma pad_num_lookup base w n (i : nat) :
  (i < w)%nat →
  pad_num base w n !! i
  = Some (digit_char ((n / base ^ N.of_nat (w - 1 - i)) mod base)).
Proof.
  revert i. induction w as [|w IH]; intros i Hi; [lia|].
  destruct i as [|i].
  - replace (S w - 1 - 0)%nat with w by lia. done.
  - replace (S w - 1 - S i)%nat with (w - 1 - i)%nat by lia.
    simpl pad_num. rewrite lookup_cons. by rewrite IH by lia.
Qed.

Lemma UUID_str_shape u :
  length (UUID_str u) = 36%nat ∧
  UUID_str u !! 14%nat = Some (digit_char ((u / 16 ^ 19) mod 16)).
Proof.
  unfold UUID_str. cbv zeta.
  pose proof (pad_num_length 16 32 u) as Hlen.
  pose proof (pad_num_lookup 16 32 u 12) as H12.
  specialize (H12 ltac:(lia)).
  change (N.of_nat (32 - 1 - 12)) with 19%N in H12.
  revert Hlen H12. generalize (pad_num 16 32 u). intros h Hlen H12.
  do 32 (destruct h as [|? h]; [done|]).
  destruct h; [|done]. simpl in H12. by injection H12 as ->.
Qed.

Lemma driven_minted lim w r p :
  driven lim w → heap w !! r = Some p → ∃ n, id_no p = uuid4_of n.
Proof.
  intros (clk & ent & Hs) Hp.
  assert (persons_ok (λ p, ∃ n, id_no p = uuid4_of n) clk w) as [_ HQ].
  { apply persons_ok_steps with lim ent; try done.
    intros n s e pt u. by exists u. }
  exact (Forall_lookup_1 _ _ _ _ HQ Hp).
Qed.

(** X7. Every person the program holds has a version-4 identifier: [id_no]
    is the one [uuid4] made in [Person.__init__] and nothing overwrites it.
    It is below 2^128, its version field is 4 and its variant bits are 10;
    so the export writes it as 36 characters with the digit 4 in position
    14, and reading that text gives the identifier back. *)
Theorem identifiers_are_version_4 lim w r p :
  driven lim w → heap w !! r = Some p →
  (id_no p < 2 ^ 128)%N ∧
  N.land (N.shiftr (id_no p) 76) 0xf = 4%N ∧
  N.land (N.shiftr (id_no p) 62) 3 = 2%N ∧
  length (UUID_str (id_no p)) = 36%nat ∧
  UUID_str (id_no p) !! 14%nat = Some "4"%char ∧
  UUID_parse (UUID_str (id_no p)) = Some (id_no p).
Proof.
  intros Hd Hp. destruct (driven_minted lim w r p Hd Hp) as [n ->].
  destruct (UUID_str_shape (uuid4_of n)) as [Hlen H14].
  split_and!.
  - apply uuid4_of_lt.
  - apply uuid4_of_version.
  - apply uuid4_of_variant.
  - exact Hlen.
  - rewrite H14. pose proof (uuid4_of_version n) as Hv.
    rewrite N.shiftr_div_pow2 in Hv.
    change 0xf%N with (N.ones 4) in Hv. rewrite N.land_ones in Hv.
    change (16 ^ 19)%N with (2 ^ 76)%N. change 16%N with (2 ^ 4)%N.
    by rewrite Hv.
  - apply UUID_str_parse, uuid4_of_lt.
Qed.

Lemma identifiers_are_version_4_witness :
  ∃ p, heap scenario_A !! 1%nat = Some p ∧
       (id_no p < 2 ^ 128)%N ∧
       N.land (N.shiftr (id_no p) 76) 0xf = 4%N ∧
       N.land (N.shiftr (id_no p) 62) 3 = 2%N ∧
       length (UUID_str (id_no p)) = 36%nat ∧
       UUID_str (id_no p) !! 14%nat = Some "4"%char ∧
       UUID_parse (UUID_str (id_no p)) = Some (id_no p).
Proof.
  let o := eval vm_compute in (heap scenario_A !! 1%nat) in
  match o with
  | Some ?p =>
      exists p; split; [vm_compute; reflexivity|];
      apply (identifiers_are_version_4 2 scenario_A 1%nat p);
      [ apply reachable_driven, scenario_A_reachable | vm_compute; reflexivity ]
  end.
Defined.

(** ** The completed list *)











(** ** [PersonGenerator] *)

Lemma randint_run a b w :
  a ≤ b →
  randint a b w
  = (Val (a + Z.of_N (entropy w (entropy_reads w)) mod (b - a + 1)),
     set_entropy_reads (S (entropy_reads w)) w).
Proof. intros Hab. unfold randint. by rewrite decide_True by done. Qed.

Lemma randint_empty a b w : b < a → randint a b w = (Raise ValueError, w).
Proof. intros Hab. unfold randint. by rewrite decide_False by lia. Qed.

Lemma randint_range a b n : a ≤ b → a ≤ a + Z.of_N n mod (b - a + 1) ≤ b.
Proof. intros Hab. pose proof (Z.mod_pos_bound (Z.of_N n) (b - a + 1)). lia. Qed.

Lemma choice_run l w :
  l ≠ [] →
  ∃ x, x ∈ l ∧
       choice l w = (Val x, set_entropy_reads (S (entropy_reads w)) w).
Proof.
  intros Hl. destruct l as [|y l]; [done|].
  exists (nth (N.to_nat (entropy w (entropy_reads w)) mod length (y :: l))
              (y :: l) y).
  split; [|done]. apply nth_elem_of.
  apply Nat.mod_upper_bound. done.
Qed.

Lemma Person_init_run n s e pt w :
  Person_init n s e pt w
  = (Val (length (heap w)),
     set_heap (heap w ++ [mk_Person n s e pt None None None UNASSIGNED
                                    (uuid4_of (entropy w (entropy_reads w)))])
              (set_entropy_reads (S (entropy_reads w)) w)).
Proof. done. Qed.

Lemma generate_loop_run gen n w :
  min_processing_time gen ≤ max_processing_time gen →
  names gen ≠ [] → surnames gen ≠ [] →
  ∃ ps, length ps = n ∧ Forall (generated_by gen) ps ∧
        generate_loop gen n w
        = (Val (seq (length (heap w)) n),
           set_heap (heap w ++ ps)
                    (set_entropy_reads (4 * n + entropy_reads w) w)).
Proof.
  intros Hpt Hn Hs. revert w. induction n as [|n IH]; intros w.
  - exists []. split_and!; [done | constructor |].
    simpl. rewrite app_nil_r. by destruct w.
  - destruct (choice_run (names gen) w Hn) as (nm & Hnm & Hc1).
    set (w1 := set_entropy_reads (S (entropy_reads w)) w) in *.
    destruct (choice_run (surnames gen) w1 Hs) as (sn & Hsn & Hc2).
    set (w2 := set_entropy_reads (S (entropy_reads w1)) w1) in *.
    pose proof (randint_run _ _ w2 Hpt) as Hr.
    set (pt := min_processing_time gen + _) in Hr.
    set (w3 := set_entropy_reads (S (entropy_reads w2)) w2) in *.
    set (p := mk_Person nm sn (nm +:+ "." +:+ sn +:+ "@gmail.com")%string pt
                        None None None UNASSIGNED
                        (uuid4_of (entropy w3 (entropy_reads w3)))).
    set (w4 := set_heap (heap w3 ++ [p])
                        (set_entropy_reads (S (entropy_reads w3)) w3)).
    destruct (IH w4) as (ps & Hlen & Hps & Hrun).
    exists (p :: ps). split_and!.
    + simpl. by rewrite Hlen.
    + constructor; [|done]. unfold generated_by, p. simpl.
      split_and!; try done; try apply uuid4_of_lt;
        apply (randint_range _ _ _ Hpt).
    + cbn [generate_loop]. unfold bind at 1. rewrite Hc1.
      unfold bind at 1. rewrite Hc2.
      unfold bind at 1. rewrite Hr.
      unfold bind at 1. rewrite Person_init_run. fold p. fold w4.
      unfold bind at 1. rewrite Hrun. unfold ret.
      f_equal.
      * f_equal. simpl. rewrite length_app. simpl.
        by rewrite Nat.add_1_r.
      * unfold set_heap, set_entropy_reads. simpl. f_equal.
        -- by rewrite <- app_assoc.
        -- lia.
Qed.

Lemma generate_run gen w :
  valid_generator gen →
  ∃ ps, Z.of_nat (length ps) = Z.max 0 (number_users gen w) ∧
        Forall (generated_by gen) ps ∧
        generate gen w
        = (Val (seq (length (heap w)) (length ps)),
           set_heap (heap w ++ ps)
                    (set_entropy_reads (S (4 * length ps + entropy_reads w)) w)).
Proof.
  intros (Hu & Hpt & Hn & Hs).
  destruct (generate_loop_run gen (Z.to_nat (number_users gen w))
              (set_entropy_reads (S (entropy_reads w)) w) Hpt Hn Hs)
    as (ps & Hlen & Hps & Hrun).
  exists ps. split_and!; [lia | done |].
  unfold generate, bind. rewrite (randint_run _ _ w Hu).
  fold (number_users gen w). rewrite Hrun, Hlen. simpl.
  do 2 f_equal. unfold set_entropy_reads. simpl. f_equal. lia.
Qed.

(** X9. With a generator whose two ranges are not empty and which has a
    name and a surname to pick, [generate] returns.  The number of new
    persons is the number it drew, which lies between the two bounds (none
    when the number is negative); the references it returns are those of
    new persons, in order, put at the end of the heap; every new person has
    a name and a surname of the lists, the e-mail made of them, a processing
    time within its bounds, status UNASSIGNED, no time-stamp and a fresh
    identifier.  The registry, the log and the clock are untouched. *)
Theorem generate_builds_valid_persons gen w :
  valid_generator gen →
  ∃ ps w',
    generate gen w = (Val (seq (length (heap w)) (length ps)), w') ∧
    heap w' = heap w ++ ps ∧
    Z.of_nat (length ps) = Z.max 0 (number_users gen w) ∧
    Z.max 0 (min_user_per_tick gen) ≤ Z.of_nat (length ps)
      ≤ Z.max 0 (max_user_per_tick gen) ∧
    Forall (generated_by gen) ps ∧
    Forall2 (λ r p, heap w' !! r = Some p) (seq (length (heap w)) (length ps)) ps ∧
    registry w' = registry w ∧ log w' = log w ∧
    clock_reads w' = clock_reads w.
Proof.
  intros Hgen. destruct (generate_run gen w Hgen) as (ps & Hlen & Hps & Hrun).
  exists ps. eexists. split; [exact Hrun|]. simpl.
  destruct Hgen as (Hu & _).
  pose proof (randint_range _ _ (entropy w (entropy_reads w)) Hu) as Hrange.
  fold (number_users gen w) in Hrange.
  split_and!; try done; try lia.
  apply Forall2_lookup. intros i.
  destruct (decide (i < length ps)%nat) as [Hi|Hi].
  - rewrite lookup_seq_lt by done.
    destruct (lookup_lt_is_Some_2 ps i Hi) as [p Hp]. rewrite Hp.
    constructor. rewrite lookup_app_r by lia.
    by replace (length (heap w) + i - length (heap w))%nat with i by lia.
  - rewrite lookup_seq_ge by lia. rewrite lookup_ge_None_2 by lia. constructor.
Qed.

Lemma generate_builds_valid_persons_witness :
  ∃ ps w',
    generate generator0 scenario_A
    = (Val (seq (length (heap scenario_A)) (length ps)), w') ∧
    heap w' = heap scenario_A ++ ps ∧
    Z.of_nat (length ps) = Z.max 0 (number_users generator0 scenario_A) ∧
    Z.max 0 (min_user_per_tick generator0) ≤ Z.of_nat (length ps)
      ≤ Z.max 0 (max_user_per_tick generator0) ∧
    Forall (generated_by generator0) ps ∧
    Forall2 (λ r p, heap w' !! r = Some p)
            (seq (length (heap scenario_A)) (length ps)) ps ∧
    registry w' = registry scenario_A ∧ log w' = log scenario_A ∧
    clock_reads w' = clock_reads scenario_A.
Proof.
  apply (generate_builds_valid_persons generator0 scenario_A).
  unfold valid_generator. simpl. split_and!; [lia | lia | done | done].
Defined.

(** X10. What [generate] does on a generator that is not valid.  An empty
    range of the number of persons raises [ValueError] at once.  Otherwise
    the number is drawn, and if it is not positive the result is the empty
    list, whatever the rest of the generator.  If it is positive, an empty
    list of names raises [IndexError] (from [random.choice]), then an empty
    list of surnames does, then an empty range of processing times raises
    [ValueError]; no person has been built at that point. *)
Theorem generate_on_invalid_generator gen w :
  let er := entropy_reads w in
  (max_user_per_tick gen < min_user_per_tick gen →
   generate gen w = (Raise ValueError, w)) ∧
  (min_user_per_tick gen ≤ max_user_per_tick gen →
   (number_users gen w ≤ 0 →
    generate gen w = (Val [], set_entropy_reads (S er) w)) ∧
   (0 < number_users gen w →
    (names gen = [] →
     generate gen w = (Raise IndexError, set_entropy_reads (S er) w)) ∧
    (names gen ≠ [] → surnames gen = [] →
     generate gen w = (Raise IndexError, set_entropy_reads (S (S er)) w)) ∧
    (names gen ≠ [] → surnames gen ≠ [] →
     max_processing_time gen < min_processing_time gen →
     generate gen w
     = (Raise ValueError, set_entropy_reads (S (S (S er))) w)))).
Proof.
  intros er. subst er. split.
  - intros Hu. unfold generate, bind. by rewrite randint_empty.
  - intros Hu. unfold generate, bind. rewrite (randint_run _ _ w Hu).
    fold (number_users gen w). split.
    + intros Hn. by replace (Z.to_nat (number_users gen w)) with 0%nat by lia.
    + intros Hn.
      destruct (Z.to_nat (number_users gen w)) as [|n] eqn:En; [lia|].
      cbn [generate_loop]. split_and!.
      * intros Hnames. unfold bind. by rewrite Hnames.
      * intros Hnames Hsur. unfold bind at 1.
        destruct (choice_run (names gen) (set_entropy_reads (S (entropy_reads w)) w) Hnames)
          as (nm & _ & ->).
        unfold bind. by rewrite Hsur.
      * intros Hnames Hsur Hpt. unfold bind at 1.
        destruct (choice_run (names gen) (set_entropy_reads (S (entropy_reads w)) w) Hnames)
          as (nm & _ & ->).
        unfold bind at 1.
        destruct (choice_run (surnames gen)
                    (set_entropy_reads (S (entropy_reads (set_entropy_reads (S (entropy_reads w)) w)))
                                       (set_entropy_reads (S (entropy_reads w)) w)) Hsur)
          as (sn & _ & ->).
        unfold bind. by rewrite randint_empty.
Qed.

(** ** One tick of the driver *)

Lemma filter_ext_in {A} (P Q : A → Prop) `{∀ x, Decision (P x)}
    `{∀ x, Decision (Q x)} (l : list A) :
  (∀ x, x ∈ l → P x ↔ Q x) → filter P l = filter Q l.
Proof.
  induction l as [|x l IH]; intros Hext; [done|].
  assert (filter P l = filter Q l) as Hl.
  { apply IH. intros y Hy. apply Hext. by right. }
  destruct (decide (P x)) as [HP|HP].
  - rewrite !filter_cons_True; [by rewrite Hl | by apply Hext; [left|] | done].
  - rewrite !filter_cons_False; [done | | done].
    intros HQ. apply HP. apply Hext; [left | done].
Qed.


Lemma complete_frame lim w r :
  inv lim w →
  length (heap (after (complete r) w)) = length (heap w) ∧
  log (after (complete r) w) = log w.
Proof.
  intros Hinv. unfold after. destruct (heap w !! r) as [p|] eqn:Hp.
  2:{ by rewrite complete_run_dangling by done. }
  destruct (decide (r ∈ assigned_list (registry w))) as [Hr|Hr].
  - destruct (complete_run_inv lim w r Hinv Hr)
      as (p' & l & w' & _ & _ & _ & _ & -> & _ & [Hlen _] & Hlog).
    simpl in *. rewrite length_insert in Hlen. done.
  - rewrite (complete_run_absent r w p Hp Hr). simpl.
    by rewrite length_insert.
Qed.

Lemma exec_all_complete_frame lim fin w :
  inv lim w →
  length (heap (exec_all (CComplete <$> fin) w)) = length (heap w) ∧
  log (exec_all (CComplete <$> fin) w) = log w.
Proof.
  revert w. induction fin as [|r fin IH]; intros w Hinv; [done|].
  rewrite fmap_cons.
  change (exec_all (CComplete r :: (CComplete <$> fin)) w)
    with (exec_all (CComplete <$> fin) (after (exec (CComplete r)) w)).
  destruct (IH (after (exec (CComplete r)) w)) as [Hlen Hlog].
  { by apply inv_exec. }
  rewrite Hlen, Hlog. exact (complete_frame lim w r Hinv).
Qed.

Lemma inv_exec_all lim cs w : inv lim w → inv lim (exec_all cs w).
Proof.
  revert w. induction cs as [|c cs IH]; intros w Hinv; [done|].
  simpl. apply IH. by apply inv_exec.
Qed.

Lemma tick_finish_run lim w :
  inv lim w →
  ∃ w', tick_finish w
        = (Val (filter (λ r, due w r) (assigned_list (registry w))), w') ∧
        inv lim w' ∧
        completed_list (registry w')
        = completed_list (registry w)
          ++ filter (λ r, due w r) (assigned_list (registry w)) ∧
        length (heap w') = length (heap w) ∧ log w' = log w.
Proof.
  intros Hinv. set (act := assigned_list (registry w)).
  pose proof (inv_live_NoDup lim w Hinv) as Hnd. unfold live in Hnd.
  apply NoDup_app in Hnd as (Hnd & _ & _).
  assert (allocated w act) as Hall.
  { destruct Hinv as [[_ Hall _ _ _] _]. unfold live in Hall.
    unfold allocated, ids in *. rewrite length_fmap in Hall. split_Forall. }
  destruct (for_each_work_run act w Hnd Hall) as (h' & Hwork & Hlen & Hids & Hh').
  set (w1 := set_heap h' w) in *.
  assert (inv lim w1) as Hinv1.
  { unfold inv, ids. simpl. by rewrite Hids. }
  assert (select_finished act w1
          = (Val (filter (λ r, finished_now (heap w1) r) act), w1)) as Hsel.
  { apply select_finished_run. unfold allocated. simpl. by rewrite Hlen. }
  assert (filter (λ r, finished_now (heap w1) r) act = filter (λ r, due w r) act)
    as Hfin.
  { apply filter_ext_in. intros r Hr. unfold finished_now, due. simpl.
    destruct (Hh' r) as [Hin _]. rewrite (Hin Hr).
    by destruct (heap w !! r). }
  rewrite Hfin in Hsel. set (fin := filter (λ r, due w r) act) in *.
  destruct (for_each_complete_run lim fin w1 Hinv1)
    as (w2 & Hcomp & Hw2 & Hcmp & _).
  { by apply NoDup_filter. }
  { intros r Hr. by apply list_elem_of_filter in Hr as [_ Hr]. }
  destruct (exec_all_complete_frame lim fin w1 Hinv1) as [Hlen2 Hlog2].
  rewrite <- Hw2 in Hlen2, Hlog2.
  exists w2. split_and!.
  - unfold tick_finish, bind, get_registry. fold act. rewrite Hwork.
    change (registry w1) with (registry w). fold act. by rewrite Hsel, Hcomp.
  - rewrite Hw2. by apply inv_exec_all.
  - done.
  - by rewrite Hlen2.
  - done.
Qed.






(** ** The whole run *)




(** ** Live persons *)

Lemma NoDup_fmap_eq {A B} (f : A → B) (l : list A) x y :
  NoDup (f <$> l) → x ∈ l → y ∈ l → f x = f y → x = y.
Proof.
  induction l as [|a l IH]; intros Hnd Hx Hy Hf; [by apply elem_of_nil in Hx|].
  rewrite fmap_cons in Hnd. apply NoDup_cons in Hnd as [Ha Hnd].
  apply elem_of_cons in Hx as [->|Hx]; apply elem_of_cons in Hy as [->|Hy].
  - done.
  - exfalso. apply Ha. rewrite Hf. apply list_elem_of_fmap. by exists y.
  - exfalso. apply Ha. rewrite <- Hf. apply list_elem_of_fmap. by exists x.
  - by apply IH.
Qed.

(** X13. In every state of the program no person is twice in the active
    list or in the queue, nor in both, and two live persons never have the
    same identifier. *)
Theorem live_persons_are_distinct lim w :
  driven lim w →
  NoDup (assigned_list (registry w) ++ awaiting_queue (registry w)) ∧
  ∀ r r' p p',
    r ∈ assigned_list (registry w) ++ awaiting_queue (registry w) →
    r' ∈ assigned_list (registry w) ++ awaiting_queue (registry w) →
    heap w !! r = Some p → heap w !! r' = Some p' →
    id_no p = id_no p' → r = r'.
Proof.
  intros Hd. pose proof (driven_inv lim w Hd) as Hinv.
  split; [exact (inv_live_NoDup lim w Hinv)|].
  intros r r' p p' Hr Hr' Hp Hp' Hid.
  destruct Hinv as [[_ _ Hnd _ _] _].
  apply (NoDup_fmap_eq (uid_in (ids w)) (live (registry w))); try done.
  pose proof (uid_Some w r p Hp) as Hu. pose proof (uid_Some w r' p' Hp') as Hu'.
  unfold uid in Hu, Hu'. by rewrite Hu, Hu'.
Qed.

Lemma live_persons_are_distinct_witness :
  NoDup (assigned_list (registry scenario_queue)
         ++ awaiting_queue (registry scenario_queue)) ∧
  ∀ r r' p p',
    r ∈ assigned_list (registry scenario_queue)
        ++ awaiting_queue (registry scenario_queue) →
    r' ∈ assigned_list (registry scenario_queue)
         ++ awaiting_queue (registry scenario_queue) →
    heap scenario_queue !! r = Some p → heap scenario_queue !! r' = Some p' →
    id_no p = id_no p' → r = r'.
Proof.
  apply (live_persons_are_distinct 2 scenario_queue).
  apply reachable_driven, reachable_exec_all, scenario_A_reachable.
Defined.



(** X15. A generator whose range of the number of persons is empty stops
    the run at its first tick: the tick completes the persons that are due
    and then [generate] raises [ValueError], which [run] does not catch, so
    the run raises too.  No report is logged for the tick, neither
    "Simulation finished" nor "Process Saved" follows, and nothing is
    exported; the completions of that tick stay. *)
Theorem run_stops_on_empty_range lim env gen n d file int w :
  driven lim w → max_user_per_tick gen < min_user_per_tick gen → 0 < n →
  ∃ w',
    tick gen d int w = (Raise ValueError, w') ∧
    run env gen n d file w = (Raise ValueError, w') ∧
    log w' = log w ∧
    completed_list (registry w')
    = completed_list (registry w)
      ++ filter (λ r, due w r) (assigned_list (registry w)) ∧
    length (heap w') = length (heap w).
Proof.
  intros Hd Hu Hn.
  destruct (tick_finish_run lim w (driven_inv lim w Hd))
    as (w' & Hfin & _ & Hcmp & Hlen & Hlog).
  assert (∀ i, tick gen d i w = (Raise ValueError, w')) as Htick.
  { intros i. unfold tick, bind. rewrite Hfin. unfold generate, bind.
    by rewrite randint_empty. }
  exists w'. split_and!; try done.
  unfold run, run_ticks, bind, try_except.
  destruct (Z.to_nat n) as [|k] eqn:Hk; [lia|].
  simpl. unfold bind. by rewrite Htick.
Qed.

Lemma run_stops_on_empty_range_witness :
  ∃ w',
    tick (mk_PersonGenerator 3 1 1 5 ["Ada"]%string ["Lovelace"]%string)
         0 false scenario_due = (Raise ValueError, w') ∧
    run env0 (mk_PersonGenerator 3 1 1 5 ["Ada"]%string ["Lovelace"]%string) 3
        0 "registry.csv" scenario_due = (Raise ValueError, w') ∧
    log w' = log scenario_due ∧
    completed_list (registry w')
    = completed_list (registry scenario_due)
      ++ filter (λ r, due scenario_due r) (assigned_list (registry scenario_due)) ∧
    length (heap w') = length (heap scenario_due).
Proof.
  apply (run_stops_on_empty_range 2 env0
           (mk_PersonGenerator 3 1 1 5 ["Ada"]%string ["Lovelace"]%string) 3
           0 "registry.csv" false scenario_due).
  - apply reachable_driven, reachable_exec_all, scenario_A_reachable.
  - simpl. lia.
  - lia.
Defined.
